(** * The capacity controller of shipper

    A shallow embedding of [pkg/controller/capacity/capacity_controller.go]:
    the percentage-to-replica arithmetic, the per-cluster reconciliation
    and [capacityTargetSyncHandler], followed by the properties the
    specification states about them; then the worker that takes the keys
    off the work queue and the event handlers that put them there, and
    further properties of the code.

    Integers of the Go code are [Z] (the [int32] conversions are written
    out), [float64] is the IEEE 754 binary64 format of [SpecFloat], slices
    are lists updated by index, and the pointer [clusterStatus] is a
    location that is either an element of [ct.Status.Clusters] or a struct
    of its own. *)

From Stdlib Require Import ZArith SpecFloat Ascii String.
From stdpp Require Import base list strings gmap sorting.

Local Open Scope Z_scope.

(** ** Capacity math *)

Module Float64.

Definition prec : Z := 53.
Definition emax : Z := 1024.

Definition t := spec_float.

(** [float64(n)] for an integer [n]. *)
Definition of_int (n : Z) : t := binary_normalize prec emax n 0 false.

Definition div : t → t → t := SFdiv prec emax.
Definition mul : t → t → t := SFmul prec emax.

(** [math.Ceil]: the least integral value not below [x]; zeros,
    infinities and NaN are returned as they are, and a negative value
    above -1 becomes -0. *)
Definition Ceil (x : t) : t :=
  match x with
  | S754_finite s m e =>
      if 0 <=? e then x
      else binary_normalize prec emax
             (- Z.shiftl (- cond_Zopp s (Z.pos m)) e) 0 s
  | _ => x
  end.

Definition int32_min : Z := - 2 ^ 31.
Definition int32_max : Z := 2 ^ 31 - 1.

(** [int32(x)]: the fraction is discarded.  Go leaves the conversion of
    a value that does not fit to the implementation; amd64 yields the
    smallest [int32] there, and so does this definition. *)
Definition to_int32 (x : t) : Z :=
  match x with
  | S754_zero _ => 0
  | S754_finite s m e =>
      let n := cond_Zopp s (Z.shiftl (Z.pos m) e) in
      if (int32_min <=? n) && (n <=? int32_max) then n else int32_min
  | _ => int32_min
  end.

End Float64.

(** [int32(n)] for an [int] (or wider) [n]: the low 32 bits, signed. *)
Definition int32 (n : Z) : Z := (n + 2 ^ 31) `mod` 2 ^ 32 - 2 ^ 31.

(** [calculateReplicaCountFromPercentage], lines 382-386. *)
Definition calculateReplicaCountFromPercentage (total percentage : Z) : Z :=
  let result :=
    Float64.mul (Float64.div (Float64.of_int percentage) (Float64.of_int 100))
                (Float64.of_int total) in
  Float64.to_int32 (Float64.Ceil result).

(** The ceiling of [percent / 100 * total] over the rationals. *)
Definition exact_ceil (total percent : Z) : Z := - ((- (percent * total)) `div` 100).

(** ** Data model

    The fields are those the controller reads and writes.  The structs of
    [ClusterCapacityStatus] and [ClusterCapacityTarget] the controller
    uses ([Percent], [AvailableReplicas], [AchievedPercent], [SadPods] and
    the conditions) are declared outside the source files at hand. *)

Definition Labels := list (string * string).

Inductive ConditionStatus := ConditionTrue | ConditionFalse | ConditionUnknown.

Inductive ClusterConditionType :=
  ClusterConditionTypeOperational | ClusterConditionTypeReady.

(** The reasons of package [conditions]; [NoReason] is the empty string. *)
Inductive ConditionReason :=
  NoReason | ServerError | WrongPodCount | PodsNotReady | MissingDeployment.

(** Go [error] values.  An error is kept as the data its text is printed
    from. *)
Inductive error :=
  | ApiError (notFound : bool) (msg : string)
      (* from a lister, a client or the cluster client store *)
  | MultipleOwnerReferencesError (name : string) (n : nat)
  | ReleaseIsGoneError (key ownerUID releaseUID : string)
  | ParseReplicasError (annotation : string)
  | DeploymentCountError (cluster namespace : string) (selector : Labels) (l : nat)
  | InvalidPodCountError (specReplicas podCount : Z).

Definition Result (A : Type) : Type := error + A.

(** [errors.IsNotFound]. *)
Definition IsNotFound (err : error) : bool :=
  match err with ApiError notFound _ => notFound | _ => false end.

(** The message of a condition: empty, [err.Error()], or the text
    "there are %d sad pods". *)
Inductive Message :=
  | MsgEmpty
  | MsgError (err : error)
  | MsgSadPods (sadPodsCount : Z).

Record ClusterCapacityCondition := {
  cond_Type : ClusterConditionType;
  cond_Status : ConditionStatus;
  cond_LastTransitionTime : Z;
  cond_Reason : ConditionReason;
  cond_Message : Message
}.

Record PodStatus := { pod_Name : string; pod_Diagnostics : string }.

Record ClusterCapacityStatus := {
  ccs_Name : string;
  ccs_AvailableReplicas : Z;
  ccs_AchievedPercent : Z;
  ccs_SadPods : list PodStatus;
  ccs_Conditions : list ClusterCapacityCondition
}.

Record ClusterCapacityTarget := { cct_Name : string; cct_Percent : Z }.

Record OwnerReference := { owner_Name : string; owner_UID : string }.

Record CapacityTarget := {
  ct_Namespace : string;
  ct_Name : string;
  ct_Labels : Labels;
  ct_OwnerReferences : list OwnerReference;
  ct_Spec_Clusters : list ClusterCapacityTarget;
  ct_Status_Clusters : list ClusterCapacityStatus
}.

Record Release := {
  release_Name : string;
  release_UID : string;
  release_Annotations : gmap string string
}.

(** [appsv1.Deployment]; [Spec.Replicas] is a pointer. *)
Record Deployment := {
  dep_Namespace : string;
  dep_Name : string;
  dep_Spec_Replicas : option Z;
  dep_Status_AvailableReplicas : Z
}.

#[global] Instance ConditionStatus_eq_dec : EqDecision ConditionStatus.
Proof. solve_decision. Defined.
#[global] Instance ClusterConditionType_eq_dec : EqDecision ClusterConditionType.
Proof. solve_decision. Defined.
#[global] Instance ConditionReason_eq_dec : EqDecision ConditionReason.
Proof. solve_decision. Defined.
#[global] Instance error_eq_dec : EqDecision error.
Proof. solve_decision. Defined.
#[global] Instance Message_eq_dec : EqDecision Message.
Proof. solve_decision. Defined.

(** The zero value of the struct with only [Name] set. *)
Definition newClusterCapacityStatus (name : string) : ClusterCapacityStatus :=
  {| ccs_Name := name; ccs_AvailableReplicas := 0; ccs_AchievedPercent := 0;
     ccs_SadPods := []; ccs_Conditions := [] |}.

Definition set_AvailableReplicas (n : Z) (cs : ClusterCapacityStatus) :=
  {| ccs_Name := ccs_Name cs; ccs_AvailableReplicas := n;
     ccs_AchievedPercent := ccs_AchievedPercent cs;
     ccs_SadPods := ccs_SadPods cs; ccs_Conditions := ccs_Conditions cs |}.

Definition set_AchievedPercent (n : Z) (cs : ClusterCapacityStatus) :=
  {| ccs_Name := ccs_Name cs; ccs_AvailableReplicas := ccs_AvailableReplicas cs;
     ccs_AchievedPercent := n;
     ccs_SadPods := ccs_SadPods cs; ccs_Conditions := ccs_Conditions cs |}.

Definition set_SadPods (pods : list PodStatus) (cs : ClusterCapacityStatus) :=
  {| ccs_Name := ccs_Name cs; ccs_AvailableReplicas := ccs_AvailableReplicas cs;
     ccs_AchievedPercent := ccs_AchievedPercent cs;
     ccs_SadPods := pods; ccs_Conditions := ccs_Conditions cs |}.

Definition set_Conditions (conds : list ClusterCapacityCondition)
    (cs : ClusterCapacityStatus) :=
  {| ccs_Name := ccs_Name cs; ccs_AvailableReplicas := ccs_AvailableReplicas cs;
     ccs_AchievedPercent := ccs_AchievedPercent cs;
     ccs_SadPods := ccs_SadPods cs; ccs_Conditions := conds |}.

Definition set_Status_Clusters (clusters : list ClusterCapacityStatus)
    (ct : CapacityTarget) :=
  {| ct_Namespace := ct_Namespace ct; ct_Name := ct_Name ct;
     ct_Labels := ct_Labels ct; ct_OwnerReferences := ct_OwnerReferences ct;
     ct_Spec_Clusters := ct_Spec_Clusters ct; ct_Status_Clusters := clusters |}.

(** ** The condition model of package [clusterutil] *)

(** Modelled from the spec: [NewClusterCapacityCondition] of package
    [clusterutil] is not among the source files; section 3 gives the
    fields of a condition, and the transition time is the time of its
    creation. *)
Definition NewClusterCapacityCondition (now : Z) (condType : ClusterConditionType)
    (status : ConditionStatus) (reason : ConditionReason) (message : Message) :=
  {| cond_Type := condType; cond_Status := status; cond_LastTransitionTime := now;
     cond_Reason := reason; cond_Message := message |}.

(** Modelled from the spec: [GetClusterCapacityCondition] of package
    [clusterutil] is not among the source files; section 4.2: a read
    accessor returning not-found when absent. *)
Definition GetClusterCapacityCondition (status : ClusterCapacityStatus)
    (condType : ClusterConditionType) : option ClusterCapacityCondition :=
  List.find (λ c, bool_decide (cond_Type c = condType)) (ccs_Conditions status).

(** Modelled from the spec: [SetClusterCapacityCondition] of package
    [clusterutil] is not among the source files; section 4.2: it inserts
    or updates the condition of the given type, leaves an entry with the
    same status, reason and message untouched, and refreshes the
    transition time when the status differs. *)
Definition SetClusterCapacityCondition (status : ClusterCapacityStatus)
    (condition : ClusterCapacityCondition) : ClusterCapacityStatus :=
  match GetClusterCapacityCondition status (cond_Type condition) with
  | None => set_Conditions (ccs_Conditions status ++ [condition]) status
  | Some current =>
      if decide (cond_Status current = cond_Status condition
                 ∧ cond_Reason current = cond_Reason condition
                 ∧ cond_Message current = cond_Message condition)
      then status
      else
        let condition' :=
          if decide (cond_Status current = cond_Status condition)
          then {| cond_Type := cond_Type condition;
                  cond_Status := cond_Status condition;
                  cond_LastTransitionTime := cond_LastTransitionTime current;
                  cond_Reason := cond_Reason condition;
                  cond_Message := cond_Message condition |}
          else condition in
        set_Conditions
          ((λ c, if decide (cond_Type c = cond_Type condition) then condition' else c)
             <$> ccs_Conditions status)
          status
  end.

(** ** [sort.Sort(byClusterName(...))] *)

(** Modelled from the spec: [byClusterName] is not among the source files;
    section 4.5: the status list is sorted by cluster name.  Go compares
    strings byte by byte. *)
Definition byClusterName_Less (a b : ClusterCapacityStatus) : bool :=
  String.ltb (ccs_Name a) (ccs_Name b).

(** [sort.Sort] as an insertion sort: each element moves left while it is
    [Less] than its predecessor. *)
Fixpoint sort_insert {A} (less : A → A → bool) (x : A) (sorted : list A) : list A :=
  match sorted with
  | [] => [x]
  | y :: rest =>
      if less x y then x :: y :: rest else y :: sort_insert less x rest
  end.

Definition sort_Sort {A} (less : A → A → bool) (data : list A) : list A :=
  fold_left (λ sorted x, sort_insert less x sorted) data [].

(** ** The world of one sync *)

(** The location [clusterStatus] points to: the element [i] of
    [ct.Status.Clusters], or the struct allocated by
    [&shipperv1.ClusterCapacityStatus{...}]. *)
Inductive StatusPtr := PElem (i : nat) | PLocal.

Inductive EventType := EventTypeNormal | EventTypeWarning.

Inductive EventMessage :=
  | EvError (err : error)
  | EvScaled (deployment : string) (replicaCount : Z)
  | EvStatus (key : string) (status : list ClusterCapacityStatus).

(** What a sync does to the outside, in order. *)
Inductive Action :=
  | ActHandleError (key : string)
  | ActGetInformerFactory (cluster : string)
  | ActListDeployments (cluster namespace : string) (selector : Labels)
  | ActGetClient (cluster : string)
  | ActPatch (cluster namespace name : string) (replicas : Z)
  | ActInspectPods (cluster : string) (deployment : Deployment)
  | ActSetCondition (clusterStatus : StatusPtr) (condition : ClusterCapacityCondition)
  | ActEvent (type : EventType) (reason : string) (message : EventMessage)
  | ActUpdate (ct : CapacityTarget).

Record World := {
  Clusters : list ClusterCapacityStatus;   (* ct.Status.Clusters of the private copy *)
  local : ClusterCapacityStatus;           (* the struct behind [PLocal] *)
  trace : list Action
}.

Definition initialWorld : World :=
  {| Clusters := []; local := newClusterCapacityStatus ""; trace := [] |}.

(** The collaborators of the controller: listers, the cluster client
    store, the clients of the target clusters, the pod inspection and the
    clock. *)
Record Env := {
  now : Z;
  capacityTargetsLister_Get : string → string → Result CapacityTarget;
  releasesLister_Get : string → string → Result Release;
  GetInformerFactory : string → option error;
  Deployments_List : string → string → Labels → Result (list Deployment);
  GetClient : string → option error;
  Deployments_Patch : string → string → string → Z → Result Deployment;
  (* [getSadPodsForDeploymentOnCluster], declared outside the source
     files: pod count, sad pod count and the sad pods *)
  getSadPodsForDeploymentOnCluster :
    Deployment → string → Result (Z * Z * list PodStatus);
  CapacityTargets_Update : CapacityTarget → option error
}.

(** A computation either returns or panics; both leave a world. *)
Inductive Outcome (A : Type) :=
  | Ok (a : A) (w : World)
  | Panic (w : World).
Arguments Ok {A} a w.
Arguments Panic {A} w.

Definition M (A : Type) : Type := World → Outcome A.

#[global] Instance M_ret : MRet M := λ A a w, Ok a w.
#[global] Instance M_bind : MBind M := λ A B f m w,
  match m w with
  | Ok a w' => f a w'
  | Panic w' => Panic w'
  end.

Definition panic {A} : M A := λ w, Panic w.

Definition addLog (a : Action) (w : World) : World :=
  {| Clusters := Clusters w; local := local w; trace := trace w ++ [a] |}.

Definition log (a : Action) : M unit := λ w, Ok () (addLog a w).

Definition getClusters : M (list ClusterCapacityStatus) := λ w, Ok (Clusters w) w.

Definition setClusters (l : list ClusterCapacityStatus) : M unit := λ w,
  Ok () {| Clusters := l; local := local w; trace := trace w |}.

(** [&shipperv1.ClusterCapacityStatus{Name: name}] *)
Definition alloc (cs : ClusterCapacityStatus) : M StatusPtr := λ w,
  Ok PLocal {| Clusters := Clusters w; local := cs; trace := trace w |}.

Definition read (p : StatusPtr) (w : World) : option ClusterCapacityStatus :=
  match p with
  | PElem i => Clusters w !! i
  | PLocal => Some (local w)
  end.

Definition write (p : StatusPtr) (cs : ClusterCapacityStatus) (w : World) : World :=
  match p with
  | PElem i => {| Clusters := <[i := cs]> (Clusters w); local := local w; trace := trace w |}
  | PLocal => {| Clusters := Clusters w; local := cs; trace := trace w |}
  end.

(** Reading through the pointer [p]. *)
Definition load (p : StatusPtr) : M ClusterCapacityStatus := λ w,
  match read p w with
  | Some cs => Ok cs w
  | None => Panic w
  end.

(** Updating the struct [p] points to. *)
Definition modify (p : StatusPtr) (f : ClusterCapacityStatus → ClusterCapacityStatus)
    : M unit := λ w,
  match read p w with
  | Some cs => Ok () (write p (f cs) w)
  | None => Panic w
  end.

(** Dereferencing a pointer that is [nil] when [None]. *)
Definition deref {A} (p : option A) : M A :=
  match p with
  | Some a => mret a
  | None => panic
  end.

Fixpoint forEach {A} (l : list A) (body : A → M unit) : M unit :=
  match l with
  | [] => mret ()
  | x :: rest => body x ;; forEach rest body
  end.

(** ** Helpers from the libraries *)

(** [cache.SplitMetaNamespaceKey]: one part is a name, two parts are
    namespace and name, anything else is an error. *)
Fixpoint split_slash (s : string) : list string :=
  match s with
  | EmptyString => [EmptyString]
  | String c rest =>
      if Ascii.eqb c "/"%char then EmptyString :: split_slash rest
      else match split_slash rest with
           | part :: parts => String c part :: parts
           | [] => [String c EmptyString]
           end
  end.

Definition SplitMetaNamespaceKey (key : string) : option (string * string) :=
  match split_slash key with
  | [name] => Some (EmptyString, name)
  | [namespace; name] => Some (namespace, name)
  | _ => None
  end.

(** [shippercontroller.MetaKey]: namespace/name. *)
Definition MetaKey (namespace name : string) : string :=
  (namespace +:+ "/" +:+ name)%string.

(** [strconv.Atoi]: an optional sign and decimal digits, within [int]. *)
Definition digit_of (c : ascii) : option Z :=
  let n := Z.of_N (Ascii.N_of_ascii c) in
  if (48 <=? n) && (n <=? 57) then Some (n - 48) else None.

Fixpoint parse_digits (s : string) (acc : Z) : option Z :=
  match s with
  | EmptyString => Some acc
  | String c rest =>
      match digit_of c with
      | Some d => parse_digits rest (10 * acc + d)
      | None => None
      end
  end.

Definition parse_unsigned (s : string) : option Z :=
  match s with
  | EmptyString => None
  | _ => parse_digits s 0
  end.

Definition Atoi (s : string) : option Z :=
  let n :=
    match s with
    | String "+"%char rest => parse_unsigned rest
    | String "-"%char rest => Z.opp <$> parse_unsigned rest
    | _ => parse_unsigned s
    end in
  n ≫= λ n, if (- 2 ^ 63 <=? n) && (n <? 2 ^ 63) then Some n else None.

(** ** The controller *)

Section Controller.

(** [shipperv1.ReleaseReplicasAnnotation] and
    [calculatePercentageFromAmount] are declared outside the source
    files; the controller is taken over any value of them. *)
Variable ReleaseReplicasAnnotation : string.
Variable calculatePercentageFromAmount : Z → Z → Z.
Variable env : Env.

(** [getReleaseForCapacityTarget], lines 365-380.  The list is matched
    against one element where the source compares [len] with 1 and then
    takes element 0. *)
Definition getReleaseForCapacityTarget (capacityTarget : CapacityTarget)
    : Result Release :=
  match ct_OwnerReferences capacityTarget with
  | [owner] =>
      match releasesLister_Get env (ct_Namespace capacityTarget) (owner_Name owner) with
      | inl err => inl err
      | inr release =>
          if decide (release_UID release ≠ owner_UID owner)
          then inl (ReleaseIsGoneError
                      (MetaKey (ct_Namespace capacityTarget) (ct_Name capacityTarget))
                      (owner_UID owner) (release_UID release))
          else inr release
      end
  | refs => inl (MultipleOwnerReferencesError (ct_Name capacityTarget) (length refs))
  end.

(** [clusterutil.SetClusterCapacityCondition(clusterStatus, *cond)] *)
Definition setCondition (clusterStatus : StatusPtr)
    (condition : ClusterCapacityCondition) : M unit :=
  log (ActSetCondition clusterStatus condition) ;;
  modify clusterStatus (λ status, SetClusterCapacityCondition status condition).

(** [recordErrorEvent], lines 457-463. *)
Definition recordErrorEvent (err : error) : M unit :=
  log (ActEvent EventTypeWarning "FailedCapacityChange" (EvError err)).

(** [findTargetDeploymentForClusterSpec], lines 427-455. *)
Definition findTargetDeploymentForClusterSpec (clusterSpec : ClusterCapacityTarget)
    (targetNamespace : string) (selector : Labels) (clusterStatus : StatusPtr)
    : M (Result Deployment) :=
  log (ActGetInformerFactory (cct_Name clusterSpec)) ;;
  match GetInformerFactory env (cct_Name clusterSpec) with
  | Some clusterErr =>
      setCondition clusterStatus
        (NewClusterCapacityCondition (now env) ClusterConditionTypeOperational
           ConditionFalse ServerError (MsgError clusterErr)) ;;
      mret (inl clusterErr)
  | None =>
      log (ActListDeployments (cct_Name clusterSpec) targetNamespace selector) ;;
      match Deployments_List env (cct_Name clusterSpec) targetNamespace selector with
      | inl clusterErr =>
          setCondition clusterStatus
            (NewClusterCapacityCondition (now env) ClusterConditionTypeOperational
               ConditionFalse ServerError (MsgError clusterErr)) ;;
          mret (inl clusterErr)
      | inr deploymentsList =>
          match deploymentsList with
          | [targetDeployment] => mret (inr targetDeployment)
          | _ =>
              let clusterErr :=
                DeploymentCountError (cct_Name clusterSpec) targetNamespace selector
                  (length deploymentsList) in
              setCondition clusterStatus
                (NewClusterCapacityCondition (now env) ClusterConditionTypeReady
                   ConditionFalse MissingDeployment (MsgError clusterErr)) ;;
              mret (inl clusterErr)
          end
      end
  end.

(** [patchDeploymentWithReplicaCount], lines 465-483. *)
Definition patchDeploymentWithReplicaCount (targetDeployment : Deployment)
    (clusterName : string) (replicaCount : Z) (clusterStatus : StatusPtr)
    : M (Result Deployment) :=
  log (ActGetClient clusterName) ;;
  match GetClient env clusterName with
  | Some clusterErr =>
      setCondition clusterStatus
        (NewClusterCapacityCondition (now env) ClusterConditionTypeOperational
           ConditionFalse ServerError (MsgError clusterErr)) ;;
      mret (inl clusterErr)
  | None =>
      log (ActPatch clusterName (dep_Namespace targetDeployment)
             (dep_Name targetDeployment) replicaCount) ;;
      match Deployments_Patch env clusterName (dep_Namespace targetDeployment)
              (dep_Name targetDeployment) replicaCount with
      | inl clusterErr =>
          setCondition clusterStatus
            (NewClusterCapacityCondition (now env) ClusterConditionTypeOperational
               ConditionFalse ServerError (MsgError clusterErr)) ;;
          mret (inl clusterErr)
      | inr updatedDeployment => mret (inr updatedDeployment)
      end
  end.

(** [getSadPods], lines 404-425. *)
Definition getSadPods (targetDeployment : Deployment) (clusterStatus : StatusPtr)
    : M (Result (list PodStatus)) :=
  status ← load clusterStatus ;
  log (ActInspectPods (ccs_Name status) targetDeployment) ;;
  match getSadPodsForDeploymentOnCluster env targetDeployment (ccs_Name status) with
  | inl err =>
      setCondition clusterStatus
        (NewClusterCapacityCondition (now env) ClusterConditionTypeOperational
           ConditionFalse ServerError (MsgError err)) ;;
      mret (inl err)
  | inr (podCount, sadPodsCount, sadPods) =>
      if match dep_Spec_Replicas targetDeployment with
         | None => true
         | Some replicas => negb (replicas =? podCount)
         end
      then
        replicas ← deref (dep_Spec_Replicas targetDeployment) ;
        let err := InvalidPodCountError replicas (int32 podCount) in
        setCondition clusterStatus
          (NewClusterCapacityCondition (now env) ClusterConditionTypeReady
             ConditionFalse WrongPodCount (MsgError err)) ;;
        mret (inl err)
      else
        (if 0 <? sadPodsCount
         then setCondition clusterStatus
                (NewClusterCapacityCondition (now env) ClusterConditionTypeReady
                   ConditionFalse PodsNotReady (MsgSadPods sadPodsCount))
         else mret ()) ;;
        mret (inr sadPods)
  end.

(** The inner loop of lines 257-264: the pointer is set at every entry
    of the name, so the last one wins. *)
Fixpoint findClusterStatus (name : string) (i : nat)
    (clusters : list ClusterCapacityStatus) (clusterStatus : option StatusPtr)
    : option StatusPtr :=
  match clusters with
  | [] => clusterStatus
  | cs :: rest =>
      findClusterStatus name (S i) rest
        (if decide (ccs_Name cs = name) then Some (PElem i) else clusterStatus)
  end.

(** Lines 254-271: the status of the cluster, appended when there is
    none.  [append] copies the new struct into the slice. *)
Definition resolveClusterStatus (clusterSpec : ClusterCapacityTarget) : M StatusPtr :=
  clusters ← getClusters ;
  match findClusterStatus (cct_Name clusterSpec) 0 clusters None with
  | Some clusterStatus => mret clusterStatus
  | None =>
      clusterStatus ← alloc (newClusterCapacityStatus (cct_Name clusterSpec)) ;
      status ← load clusterStatus ;
      setClusters (clusters ++ [status]) ;;
      mret clusterStatus
  end.

(** Lines 273-326: the rest of the loop body; every [continue] is a
    return. *)
Definition reconcileCluster (ct : CapacityTarget) (totalReplicaCount : Z)
    (clusterSpec : ClusterCapacityTarget) (clusterStatus : StatusPtr) : M unit :=
  found ← findTargetDeploymentForClusterSpec clusterSpec (ct_Namespace ct)
            (ct_Labels ct) clusterStatus ;
  match found with
  | inl err => recordErrorEvent err
  | inr targetDeployment =>
      let percentage := cct_Percent clusterSpec in
      let replicaCount :=
        calculateReplicaCountFromPercentage (int32 totalReplicaCount) percentage in
      patched ←
        (if match dep_Spec_Replicas targetDeployment with
            | None => true
            | Some replicas => negb (replicaCount =? replicas)
            end
         then
           r ← patchDeploymentWithReplicaCount targetDeployment
                 (cct_Name clusterSpec) replicaCount clusterStatus ;
           mret (match r with inl err => Some err | inr _ => None end)
         else mret None) ;
      match patched with
      | Some err => recordErrorEvent err
      | None =>
          modify clusterStatus
            (set_AvailableReplicas (dep_Status_AvailableReplicas targetDeployment)) ;;
          modify clusterStatus (λ status,
            set_AchievedPercent
              (calculatePercentageFromAmount (int32 totalReplicaCount)
                 (ccs_AvailableReplicas status)) status) ;;
          sad ← getSadPods targetDeployment clusterStatus ;
          match sad with
          | inl _ => mret ()
          | inr sadPods =>
              if decide (0 < length sadPods)%nat
              then modify clusterStatus (set_SadPods sadPods)
              else
                setCondition clusterStatus
                  (NewClusterCapacityCondition (now env) ClusterConditionTypeReady
                     ConditionTrue NoReason MsgEmpty) ;;
                setCondition clusterStatus
                  (NewClusterCapacityCondition (now env)
                     ClusterConditionTypeOperational ConditionTrue NoReason MsgEmpty) ;;
                log (ActEvent EventTypeNormal "CapacityChanged"
                       (EvScaled (MetaKey (dep_Namespace targetDeployment)
                                    (dep_Name targetDeployment))
                          replicaCount))
          end
      end
  end.

Definition syncCluster (ct : CapacityTarget) (totalReplicaCount : Z)
    (clusterSpec : ClusterCapacityTarget) : M unit :=
  clusterStatus ← resolveClusterStatus clusterSpec ;
  reconcileCluster ct totalReplicaCount clusterSpec clusterStatus.

(** Lines 329-349: sort, update, final event. *)
Definition persistStatus (ct : CapacityTarget) : M (option error) :=
  clusters ← getClusters ;
  setClusters (sort_Sort byClusterName_Less clusters) ;;
  clusters ← getClusters ;
  let ct' := set_Status_Clusters clusters ct in
  log (ActUpdate ct') ;;
  match CapacityTargets_Update env ct' with
  | Some err => log (ActEvent EventTypeWarning "FailedCapacityTargetChange" (EvError err))
  | None => mret ()
  end ;;
  log (ActEvent EventTypeNormal "CapacityTargetChanged"
         (EvStatus (MetaKey (ct_Namespace ct) (ct_Name ct)) clusters)) ;;
  mret None.

(** [capacityTargetSyncHandler], lines 216-350.  The result is the
    returned error, [None] for [nil]. *)
Definition capacityTargetSyncHandler (key : string) : M (option error) :=
  match SplitMetaNamespaceKey key with
  | None => log (ActHandleError key) ;; mret None
  | Some (namespace, name) =>
      match capacityTargetsLister_Get env namespace name with
      | inl err =>
          if IsNotFound err then log (ActHandleError key) ;; mret None
          else mret (Some err)
      | inr ct =>
          (* ct = ct.DeepCopy() *)
          setClusters (ct_Status_Clusters ct) ;;
          match getReleaseForCapacityTarget ct with
          | inl err => mret (Some err)
          | inr release =>
              let annotation :=
                default EmptyString
                  (release_Annotations release !! ReleaseReplicasAnnotation) in
              match Atoi annotation with
              | None => mret (Some (ParseReplicasError annotation))
              | Some totalReplicaCount =>
                  forEach (ct_Spec_Clusters ct) (syncCluster ct totalReplicaCount) ;;
                  persistStatus ct
              end
          end
      end
  end.

End Controller.

(** ** The work queue and the workers *)

(** What comes off the work queue: a string, which is taken as a key, or
    anything else. *)
Inductive QueueItem :=
  | ItemString (key : string)
  | ItemOther (repr : string).

(** The errors the worker and the event handlers hand to
    [runtime.HandleError]. *)
Inductive WorkerError :=
  | NotAStringError (obj : QueueItem)
  | SyncError (key : string) (err : error)
  | NoMetaError (repr : string).

(** What a worker or an event handler does, in order: calls on the work
    queue, errors handed to [runtime.HandleError], and the actions of
    the syncs it runs. *)
Inductive WorkerAction :=
  | WGet
  | WDone (obj : QueueItem)
  | WForget (obj : QueueItem)
  | WAddRateLimited (key : string)
  | WHandleError (err : WorkerError)
  | WSync (a : Action).

(** A run of a worker: the actions it took, and its result unless it
    panicked. *)
Inductive Run (A : Type) :=
  | Returns (a : A) (actions : list WorkerAction)
  | Panics (actions : list WorkerAction).
Arguments Returns {A} a actions.
Arguments Panics {A} actions.

#[global] Instance Run_ret : MRet Run := λ A a, Returns a [].
#[global] Instance Run_bind : MBind Run := λ A B f m,
  match m with
  | Returns a actions =>
      match f a with
      | Returns b actions' => Returns b (actions ++ actions')
      | Panics actions' => Panics (actions ++ actions')
      end
  | Panics actions => Panics actions
  end.

Definition act (a : WorkerAction) : Run unit := Returns () [a].

(** [defer]: the deferred calls run when the function returns and when
    it panics. *)
Definition defer {A} (deferred : list WorkerAction) (body : Run A) : Run A :=
  match body with
  | Returns a actions => Returns a (actions ++ deferred)
  | Panics actions => Panics (actions ++ deferred)
  end.

Definition actions_of {A} (r : Run A) : list WorkerAction :=
  match r with Returns _ actions | Panics actions => actions end.

(** An object handed to an event handler: a key given as such, an
    object with metadata, or an object without. *)
Inductive Object :=
  | ObjExplicitKey (key : string)
  | ObjMeta (namespace name : string)
  | ObjNoMeta (repr : string).

(** [cache.MetaNamespaceKeyFunc]: namespace/name, or the name alone when
    the namespace is empty. *)
Definition MetaNamespaceKeyFunc (obj : Object) : WorkerError + string :=
  match obj with
  | ObjExplicitKey key => inr key
  | ObjMeta namespace name =>
      if 0 <? Z.of_nat (String.length namespace)
      then inr (namespace +:+ "/" +:+ name)%string
      else inr name
  | ObjNoMeta repr => inl (NoMetaError repr)
  end.

(** The events of an informer. *)
Inductive InformerEvent :=
  | OnAdd (obj : Object)
  | OnUpdate (old new : Object)
  | OnDelete (obj : Object).

Section Worker.

Variable ReleaseReplicasAnnotation : string.
Variable calculatePercentageFromAmount : Z → Z → Z.
Variable env : Env.

(** The sync of a key, from the point of view of the worker. Every sync
    works on a copy of its own of the capacity target. *)
Definition runSync (key : string) : Run (option error) :=
  match capacityTargetSyncHandler ReleaseReplicasAnnotation
          calculatePercentageFromAmount env key initialWorld with
  | Ok err w => Returns err (WSync <$> trace w)
  | Panic w => Panics (WSync <$> trace w)
  end.

(** [processNextCapacityTargetWorkItem], lines 163-212; [got] is what
    [Get] answers: an item, or [None] when the queue is shut down. *)
Definition processNextCapacityTargetWorkItem (got : option QueueItem) : Run bool :=
  act WGet ;;
  match got with
  | None => mret false
  | Some obj =>
      err ← defer [WDone obj]
              (match obj with
               | ItemString key =>
                   err ← runSync key ;
                   match err with
                   | Some err => mret (Some (SyncError key err))
                   | None => act (WForget obj) ;; mret None
                   end
               | ItemOther _ =>
                   act (WForget obj) ;;
                   act (WHandleError (NotAStringError obj)) ;;
                   mret None
               end) ;
      match err with
      | Some err => act (WHandleError err) ;; mret true
      | None => mret true
      end
  end.

(** [runCapacityTargetWorker], lines 156-159, over the answers [Get]
    gives one after the other; at the end of the list the worker is
    waiting in [Get]. *)
Fixpoint runCapacityTargetWorker (queue : list (option QueueItem)) : Run unit :=
  match queue with
  | [] => mret ()
  | got :: rest =>
      continue ← processNextCapacityTargetWorkItem got ;
      if continue : bool then runCapacityTargetWorker rest else mret ()
  end.

End Worker.

(** [enqueueCapacityTarget], lines 355-363. *)
Definition enqueueCapacityTarget (obj : Object) : Run unit :=
  match MetaNamespaceKeyFunc obj with
  | inl err => act (WHandleError err)
  | inr key => act (WAddRateLimited key)
  end.

(** The event handlers [NewController] registers for capacity targets,
    lines 111-116: additions and updates are enqueued, and there is no
    handler for deletions. *)
Definition capacityTargetEventHandler (event : InformerEvent) : Run unit :=
  match event with
  | OnAdd obj => enqueueCapacityTarget obj
  | OnUpdate _ new => enqueueCapacityTarget new
  | OnDelete _ => mret ()
  end.

(** * The vocabulary of the properties *)

(** ** Conditions, worlds and traces *)

Definition hasCondition (status : ClusterCapacityStatus)
    (condType : ClusterConditionType) (st : ConditionStatus)
    (reason : ConditionReason) : Prop :=
  ∃ c, GetClusterCapacityCondition status condType = Some c
       ∧ cond_Status c = st ∧ cond_Reason c = reason.

Definition world_of {A} (o : Outcome A) : World :=
  match o with Ok _ w | Panic w => w end.

Definition names (l : list ClusterCapacityStatus) : list string := ccs_Name <$> l.

Definition entriesNamed (n : string) (l : list ClusterCapacityStatus)
    : list ClusterCapacityStatus :=
  filter (λ cs, ccs_Name cs = n) l.

Definition nameLe (a b : ClusterCapacityStatus) : Prop :=
  String.le (ccs_Name a) (ccs_Name b).

Definition isUpdate (a : Action) : Prop :=
  match a with ActUpdate _ => True | _ => False end.


Definition setsTrue (a : Action) : Prop :=
  match a with
  | ActSetCondition _ condition => cond_Status condition = ConditionTrue
  | _ => False
  end.

Definition updatesOf (tr : list Action) : list CapacityTarget :=
  omap (λ a, match a with ActUpdate ct => Some ct | _ => None end) tr.

Definition noUpdates : relation World := λ w w',
  ∃ tr, trace w' = trace w ++ tr ∧ Forall (λ a, ¬ isUpdate a) tr.

(** ** What a reconciliation may change *)

(** [sameExcept c l l']: the lists agree but for the entries named [c],
    which keep their name. *)
Definition sameExcept (c : string) : relation (list ClusterCapacityStatus) :=
  Forall2 (λ a b, ccs_Name a = ccs_Name b ∧ (ccs_Name a ≠ c → a = b)).

(** What a reconciliation through [p] may do to the slice. *)
Definition frame (p : StatusPtr) (c : string)
    : relation (list ClusterCapacityStatus) :=
  match p with
  | PElem _ => sameExcept c
  | PLocal => eq
  end.

Definition pointsTo (p : StatusPtr) (c : string) (w : World) : Prop :=
  ∃ cs, read p w = Some cs ∧ ccs_Name cs = c.

Definition step (p : StatusPtr) (c : string) : relation World := λ w w',
  frame p c (Clusters w) (Clusters w')
  ∧ ∃ tr, trace w' = trace w ++ tr ∧ Forall (λ a, ¬ isUpdate a) tr.

(** [preserves I R m]: from a world in [I], [m] ends, by return or by
    panic, in a world in [I] that is [R]-related to the first. *)
Definition preserves {A} (I : World → Prop) (R : relation World) (m : M A) : Prop :=
  ∀ w, I w → I (world_of (m w)) ∧ R w (world_of (m w)).

(** What one pass of the loop body does to the slice. *)
Definition syncStep (c : string) : relation World := λ w w',
  noUpdates w w'
  ∧ if decide (c ∈ names (Clusters w))
    then sameExcept c (Clusters w) (Clusters w')
    else Clusters w' = Clusters w ++ [newClusterCapacityStatus c].

(** ** The course of a sync *)

(** The world after [ct.DeepCopy()]. *)
Definition afterCopy (ct : CapacityTarget) (w : World) : World :=
  {| Clusters := ct_Status_Clusters ct; local := local w; trace := trace w |}.

(** The sync of [key] finds the capacity target [ct] and passes the
    validation of its owner and of the replica annotation, which reads
    [totalReplicaCount]. *)
Definition validated (ReleaseReplicasAnnotation : string) (env : Env)
    (key : string) (ct : CapacityTarget) (totalReplicaCount : Z) : Prop :=
  ∃ namespace name release,
    SplitMetaNamespaceKey key = Some (namespace, name)
    ∧ capacityTargetsLister_Get env namespace name = inr ct
    ∧ getReleaseForCapacityTarget env ct = inr release
    ∧ Atoi (default EmptyString
              (release_Annotations release !! ReleaseReplicasAnnotation))
      = Some totalReplicaCount.

Definition persistedTarget (ct : CapacityTarget) (w : World) : CapacityTarget :=
  set_Status_Clusters (sort_Sort byClusterName_Less (Clusters w)) ct.

Definition updateWarning (env : Env) (ct' : CapacityTarget) : list Action :=
  match CapacityTargets_Update env ct' with
  | Some err => [ActEvent EventTypeWarning "FailedCapacityTargetChange" (EvError err)]
  | None => []
  end.

Definition finalEvent (ct : CapacityTarget) (w : World) : Action :=
  ActEvent EventTypeNormal "CapacityTargetChanged"
    (EvStatus (MetaKey (ct_Namespace ct) (ct_Name ct))
       (sort_Sort byClusterName_Less (Clusters w))).

(** The crash: one matching deployment without [Spec.Replicas], a patch
    that succeeds and a pod inspection that succeeds. *)
Definition crashes (calculatePercentageFromAmount : Z → Z → Z) (env : Env)
    (ct : CapacityTarget) (totalReplicaCount : Z)
    (clusterSpec : ClusterCapacityTarget) : Prop :=
  ∃ targetDeployment updatedDeployment pods,
    GetInformerFactory env (cct_Name clusterSpec) = None
    ∧ Deployments_List env (cct_Name clusterSpec) (ct_Namespace ct) (ct_Labels ct)
      = inr [targetDeployment]
    ∧ dep_Spec_Replicas targetDeployment = None
    ∧ GetClient env (cct_Name clusterSpec) = None
    ∧ Deployments_Patch env (cct_Name clusterSpec) (dep_Namespace targetDeployment)
        (dep_Name targetDeployment)
        (calculateReplicaCountFromPercentage (int32 totalReplicaCount)
           (cct_Percent clusterSpec))
      = inr updatedDeployment
    ∧ getSadPodsForDeploymentOnCluster env targetDeployment (cct_Name clusterSpec)
      = inr pods.

(** ** The outcome of one cluster *)

(** How the reconciliation of one cluster ends. *)
Inductive Verdict :=
  | VServerError
  | VMissingDeployment
  | VWrongPodCount
  | VSadPods
  | VHealthy
  | VCrash.

(** Step 6 of section 4.4 of the specification: the health check, with
    the crash of the code on a nil replica count as one more outcome. *)
Definition inspectVerdict (env : Env) (targetDeployment : Deployment)
    (clusterName : string) : Verdict :=
  match getSadPodsForDeploymentOnCluster env targetDeployment clusterName with
  | inl _ => VServerError
  | inr (podCount, _, sadPods) =>
      match dep_Spec_Replicas targetDeployment with
      | None => VCrash
      | Some replicas =>
          if negb (replicas =? podCount) then VWrongPodCount
          else match sadPods with [] => VHealthy | _ => VSadPods end
      end
  end.

(** Steps 1 to 6 of section 4.4 of the specification: the outcome of the
    per-cluster reconciler, read off the answers of the environment. *)
Definition verdict (env : Env) (ct : CapacityTarget) (totalReplicaCount : Z)
    (clusterSpec : ClusterCapacityTarget) : Verdict :=
  let clusterName := cct_Name clusterSpec in
  match GetInformerFactory env clusterName with
  | Some _ => VServerError
  | None =>
      match Deployments_List env clusterName (ct_Namespace ct) (ct_Labels ct) with
      | inl _ => VServerError
      | inr [targetDeployment] =>
          let replicaCount :=
            calculateReplicaCountFromPercentage (int32 totalReplicaCount)
              (cct_Percent clusterSpec) in
          if match dep_Spec_Replicas targetDeployment with
             | None => true
             | Some replicas => negb (replicaCount =? replicas)
             end
          then
            match GetClient env clusterName with
            | Some _ => VServerError
            | None =>
                match Deployments_Patch env clusterName
                        (dep_Namespace targetDeployment) (dep_Name targetDeployment)
                        replicaCount with
                | inl _ => VServerError
                | inr _ => inspectVerdict env targetDeployment clusterName
                end
            end
          else inspectVerdict env targetDeployment clusterName
      | inr _ => VMissingDeployment
      end
  end.

(** What the status of the cluster shows after each outcome. *)
Definition outcomeHolds (v : Verdict) (status : ClusterCapacityStatus) : Prop :=
  match v with
  | VServerError =>
      hasCondition status ClusterConditionTypeOperational ConditionFalse ServerError
  | VMissingDeployment =>
      hasCondition status ClusterConditionTypeReady ConditionFalse MissingDeployment
  | VWrongPodCount =>
      hasCondition status ClusterConditionTypeReady ConditionFalse WrongPodCount
  | VSadPods => ccs_SadPods status ≠ []
  | VHealthy =>
      hasCondition status ClusterConditionTypeReady ConditionTrue NoReason
      ∧ hasCondition status ClusterConditionTypeOperational ConditionTrue NoReason
  | VCrash => False
  end.

(** ** The sign of a float *)

(** The sign of a float: not a positive number, not a negative number. *)
Definition notPositive (x : Float64.t) : Prop :=
  match x with S754_finite s _ _ => s = true | _ => True end.

Definition notNegative (x : Float64.t) : Prop :=
  match x with S754_finite s _ _ => s = false | _ => True end.

(** ** Rounding *)

(** [shr_exact M j mrs]: [mrs] is [M] shifted right by [j] bits, with the
    round and sticky bits of what was shifted out. *)
Definition shr_exact (M j : Z) (mrs : shr_record) : Prop :=
  ∃ rem,
    M = shr_m mrs * 2 ^ j + rem ∧ 0 <= rem < 2 ^ j ∧ 0 <= shr_m mrs
    ∧ match shr_r mrs, shr_s mrs with
      | false, false => rem = 0
      | false, true => 0 < 2 * rem < 2 ^ j
      | true, false => 2 * rem = 2 ^ j
      | true, true => 2 ^ j < 2 * rem
      end.

(** [percentage / 100] as the code computes it: a positive normal float
    [A * 2^-a] within half a unit of the last place of the quotient, and
    the quotient itself with 31 zero bits at the end of [A] when
    [percentage] is a multiple of 25. *)
Definition div_100_ok (percentage : Z) : bool :=
  match Float64.div (Float64.of_int percentage) (Float64.of_int 100) with
  | S754_finite false A e =>
      (52 <=? - e) && (- e <=? 59)
      && (2 ^ 52 <=? Z.pos A) && (Z.pos A <? 2 ^ 53)
      && (Z.abs (100 * Z.pos A - percentage * 2 ^ (- e)) <=? 50)
      && ((0 <? percentage `mod` 25)
          || ((100 * Z.pos A =? percentage * 2 ^ (- e))
              && (Z.pos A `mod` 2 ^ 31 =? 0)))
  | _ => false
  end.

(** ** Patches and events *)

(** [justified env ct total spec a]: if [a] is a patch, it is the patch
    of the one deployment listed for a cluster of [spec], to the replica
    count computed for that cluster, which the deployment does not have
    yet. *)
Definition justified (env : Env) (ct : CapacityTarget) (totalReplicaCount : Z)
    (spec : list ClusterCapacityTarget) (a : Action) : Prop :=
  match a with
  | ActPatch cluster namespace name replicas =>
      ∃ clusterSpec targetDeployment,
        clusterSpec ∈ spec
        ∧ cluster = cct_Name clusterSpec
        ∧ replicas = calculateReplicaCountFromPercentage (int32 totalReplicaCount)
                       (cct_Percent clusterSpec)
        ∧ Deployments_List env cluster (ct_Namespace ct) (ct_Labels ct)
          = inr [targetDeployment]
        ∧ namespace = dep_Namespace targetDeployment
        ∧ name = dep_Name targetDeployment
        ∧ dep_Spec_Replicas targetDeployment ≠ Some replicas
  | _ => True
  end.

(** [emits P w w']: from [w] to [w'] the trace grows by actions in [P]. *)
Definition emits (P : Action → Prop) : relation World := λ w w',
  ∃ tr, trace w' = trace w ++ tr ∧ Forall P tr.

Definition isEvent (a : Action) : Prop :=
  match a with ActEvent _ _ _ => True | _ => False end.

#[global] Instance isEvent_dec a : Decision (isEvent a).
Proof. destruct a; cbn; apply _. Defined.

(** The events among the actions. *)
Definition eventsOf (tr : list Action) : list Action := filter isEvent tr.

(** How the events of one reconciliation agree with the conditions of
    the status behind [clusterStatus]: no event; or one Warning event
    with the error of a failed discovery or patch, and a condition that
    is False; or one Normal event with the deployment and its replica
    count, and both conditions True. *)
Definition eventsAgree (env : Env) (ct : CapacityTarget) (totalReplicaCount : Z)
    (clusterSpec : ClusterCapacityTarget) (events : list Action)
    (status : option ClusterCapacityStatus) : Prop :=
  events = []
  ∨ (∃ err cs,
       events = [ActEvent EventTypeWarning "FailedCapacityChange" (EvError err)]
       ∧ status = Some cs
       ∧ (hasCondition cs ClusterConditionTypeOperational ConditionFalse ServerError
          ∨ hasCondition cs ClusterConditionTypeReady ConditionFalse MissingDeployment))
  ∨ (∃ targetDeployment cs,
       events = [ActEvent EventTypeNormal "CapacityChanged"
                   (EvScaled (MetaKey (dep_Namespace targetDeployment)
                                (dep_Name targetDeployment))
                      (calculateReplicaCountFromPercentage (int32 totalReplicaCount)
                         (cct_Percent clusterSpec)))]
       ∧ Deployments_List env (cct_Name clusterSpec) (ct_Namespace ct) (ct_Labels ct)
         = inr [targetDeployment]
       ∧ status = Some cs
       ∧ hasCondition cs ClusterConditionTypeReady ConditionTrue NoReason
       ∧ hasCondition cs ClusterConditionTypeOperational ConditionTrue NoReason).

(** ** The calls of a worker *)

#[global] Instance QueueItem_eq_dec : EqDecision QueueItem.
Proof. solve_decision. Defined.
#[global] Instance WorkerError_eq_dec : EqDecision WorkerError.
Proof. solve_decision. Defined.

Definition isQueueCall (a : WorkerAction) : Prop :=
  match a with
  | WGet | WDone _ | WForget _ | WAddRateLimited _ => True
  | _ => False
  end.

#[global] Instance isQueueCall_dec a : Decision (isQueueCall a).
Proof. destruct a; cbn; apply _. Defined.

(** The calls on the work queue among the actions. *)
Definition queueCalls (actions : list WorkerAction) : list WorkerAction :=
  filter isQueueCall actions.

(** The errors handed to [runtime.HandleError] by the worker itself. *)
Definition handledErrors (actions : list WorkerAction) : list WorkerError :=
  omap (λ a, match a with WHandleError err => Some err | _ => None end) actions.

(** The actions of the syncs. *)
Definition syncActions (actions : list WorkerAction) : list Action :=
  omap (λ a, match a with WSync a => Some a | _ => None end) actions.

(** The string holds a slash. *)
Fixpoint hasSlash (s : string) : bool :=
  match s with
  | EmptyString => false
  | String c rest => Ascii.eqb c "/"%char || hasSlash rest
  end.

(** The sync of [key] returns [nil]. *)
Definition syncSucceeds (ReleaseReplicasAnnotation : string)
    (calculatePercentageFromAmount : Z → Z → Z) (env : Env) (key : string) : Prop :=
  ∃ w, capacityTargetSyncHandler ReleaseReplicasAnnotation
         calculatePercentageFromAmount env key initialWorld = Ok None w.

(** The sync of [key] returns, with an error or without. *)
Definition syncReturns (ReleaseReplicasAnnotation : string)
    (calculatePercentageFromAmount : Z → Z → Z) (env : Env) (key : string) : Prop :=
  ∃ err w, capacityTargetSyncHandler ReleaseReplicasAnnotation
             calculatePercentageFromAmount env key initialWorld = Ok err w.

(** The worker forgets the item: it is not a string, or its sync
    returns [nil]. *)
Definition forgotten (ReleaseReplicasAnnotation : string)
    (calculatePercentageFromAmount : Z → Z → Z) (env : Env) (obj : QueueItem) : Prop :=
  match obj with
  | ItemString key =>
      syncSucceeds ReleaseReplicasAnnotation calculatePercentageFromAmount env key
  | ItemOther _ => True
  end.

(** The items marked done, in order. *)
Definition doneItems (actions : list WorkerAction) : list QueueItem :=
  omap (λ a, match a with WDone obj => Some obj | _ => None end) actions.

(** The number of calls of [Get]. *)
Definition getCount (actions : list WorkerAction) : nat :=
  length (omap (λ a, match a with WGet => Some () | _ => None end) actions).

(** ** Concrete syncs *)

Module Scenario.

Definition annotation : string := "release.replicas".

Definition percentage (total amount : Z) : Z := amount * 100 `div` total.

Definition owner : OwnerReference := {| owner_Name := "rel"; owner_UID := "uid-1" |}.

Definition release (uid total : string) : Release :=
  {| release_Name := "rel"; release_UID := uid;
     release_Annotations := {[ annotation := total ]} |}.

Definition target (owners : list OwnerReference) (spec : list ClusterCapacityTarget)
    (status : list ClusterCapacityStatus) : CapacityTarget :=
  {| ct_Namespace := "ns"; ct_Name := "ct"; ct_Labels := [("app", "web")];
     ct_OwnerReferences := owners; ct_Spec_Clusters := spec;
     ct_Status_Clusters := status |}.

Definition deployment (replicas : option Z) (available : Z) : Deployment :=
  {| dep_Namespace := "ns"; dep_Name := "web"; dep_Spec_Replicas := replicas;
     dep_Status_AvailableReplicas := available |}.

Definition cluster (name : string) (percent : Z) : ClusterCapacityTarget :=
  {| cct_Name := name; cct_Percent := percent |}.

(** An environment in which the clients are there, and the patches and
    the update succeed. *)
Definition world (ct : CapacityTarget) (rel : Release)
    (factory : string → option error)
    (deployments : string → Result (list Deployment))
    (pods : string → Result (Z * Z * list PodStatus)) : Env :=
  {| now := 1518000000;
     capacityTargetsLister_Get := λ namespace name,
       if decide (namespace = "ns"%string ∧ name = "ct"%string) then inr ct
       else inl (ApiError true "not found");
     releasesLister_Get := λ namespace name,
       if decide (namespace = "ns"%string ∧ name = "rel"%string) then inr rel
       else inl (ApiError true "not found");
     GetInformerFactory := factory;
     Deployments_List := λ clusterName _ _, deployments clusterName;
     GetClient := λ _, None;
     Deployments_Patch := λ _ _ _ replicas, inr (deployment (Some replicas) 0);
     getSadPodsForDeploymentOnCluster := λ _ clusterName, pods clusterName;
     CapacityTargets_Update := λ _, None |}.

Definition sync (e : Env) : Outcome (option error) :=
  capacityTargetSyncHandler annotation percentage e "ns/ct" initialWorld.

End Scenario.

(** * Properties *)

(** ** The condition model *)

Lemma find_type_fmap (t : ClusterConditionType)
    (f : ClusterCapacityCondition → ClusterCapacityCondition)
    (l : list ClusterCapacityCondition) :
  (∀ c, cond_Type (f c) = cond_Type c) →
  List.find (λ c, bool_decide (cond_Type c = t)) (f <$> l)
  = f <$> List.find (λ c, bool_decide (cond_Type c = t)) l.
Proof.
  intros Hf. induction l as [|c l IH]; [done|].
  cbn. rewrite Hf. destruct (bool_decide _); [done|apply IH].
Qed.

Lemma find_type_snoc_None (t : ClusterConditionType)
    (l : list ClusterCapacityCondition) (c : ClusterCapacityCondition) :
  List.find (λ c, bool_decide (cond_Type c = t)) l = None →
  List.find (λ c, bool_decide (cond_Type c = t)) (l ++ [c])
  = if bool_decide (cond_Type c = t) then Some c else None.
Proof.
  induction l as [|d l IH]; cbn; [done|].
  destruct (bool_decide (cond_Type d = t)); [done|apply IH].
Qed.

Lemma find_type_snoc_Some (t : ClusterConditionType)
    (l : list ClusterCapacityCondition) (c d : ClusterCapacityCondition) :
  List.find (λ c, bool_decide (cond_Type c = t)) l = Some d →
  List.find (λ c, bool_decide (cond_Type c = t)) (l ++ [c]) = Some d.
Proof.
  induction l as [|e l IH]; cbn; [done|].
  destruct (bool_decide (cond_Type e = t)); [done|apply IH].
Qed.

Lemma find_type_Some (t : ClusterConditionType)
    (l : list ClusterCapacityCondition) (c : ClusterCapacityCondition) :
  List.find (λ c, bool_decide (cond_Type c = t)) l = Some c → cond_Type c = t.
Proof.
  intros [_ H]%List.find_some. by apply bool_decide_eq_true in H.
Qed.

Lemma SetClusterCapacityCondition_Name status condition :
  ccs_Name (SetClusterCapacityCondition status condition) = ccs_Name status.
Proof.
  unfold SetClusterCapacityCondition.
  destruct (GetClusterCapacityCondition _ _); [|done].
  by destruct (decide _).
Qed.


(** After [Set], the condition of that type has the status, reason and
    message that were set. *)
Lemma Get_Set_eq status condition :
  ∃ c, GetClusterCapacityCondition (SetClusterCapacityCondition status condition)
         (cond_Type condition) = Some c
       ∧ cond_Status c = cond_Status condition
       ∧ cond_Reason c = cond_Reason condition
       ∧ cond_Message c = cond_Message condition.
Proof.
  unfold SetClusterCapacityCondition.
  destruct (GetClusterCapacityCondition status (cond_Type condition))
    as [current|] eqn:Hget.
  - destruct (decide _) as [(? & ? & ?)|_]; [by exists current|].
    unfold GetClusterCapacityCondition in *. cbn.
    rewrite find_type_fmap, Hget.
    + cbn. rewrite decide_True by by eapply find_type_Some.
      eexists; split; [done|]. by destruct (decide _).
    + intros c. destruct (decide (cond_Type c = _)) as [->|]; [|done].
      by destruct (decide (cond_Status _ = _)).
  - unfold GetClusterCapacityCondition in *. cbn.
    rewrite find_type_snoc_None by done.
    rewrite bool_decide_eq_true_2 by done. by exists condition.
Qed.

(** [Set] leaves the condition of the other type as it was. *)
Lemma Get_Set_ne status condition condType :
  condType ≠ cond_Type condition →
  GetClusterCapacityCondition (SetClusterCapacityCondition status condition) condType
  = GetClusterCapacityCondition status condType.
Proof.
  intros Hne. unfold SetClusterCapacityCondition.
  destruct (GetClusterCapacityCondition status (cond_Type condition))
    as [current|] eqn:Hget.
  - destruct (decide _) as [|_]; [done|].
    unfold GetClusterCapacityCondition in *. cbn.
    rewrite find_type_fmap.
    + destruct (List.find (λ c, bool_decide (cond_Type c = condType))
                  (ccs_Conditions status)) as [d|] eqn:Hd; [|done].
      cbn. apply find_type_Some in Hd. by rewrite decide_False by congruence.
    + intros c. destruct (decide (cond_Type c = _)) as [->|]; [|done].
      by destruct (decide (cond_Status _ = _)).
  - unfold GetClusterCapacityCondition in *. cbn.
    destruct (List.find (λ c, bool_decide (cond_Type c = condType))
                (ccs_Conditions status)) as [d|] eqn:Hd.
    + by erewrite find_type_snoc_Some.
    + rewrite find_type_snoc_None by done.
      by rewrite bool_decide_eq_false_2 by congruence.
Qed.

Lemma hasCondition_Set status condition :
  hasCondition (SetClusterCapacityCondition status condition)
    (cond_Type condition) (cond_Status condition) (cond_Reason condition).
Proof.
  destruct (Get_Set_eq status condition) as (c & ? & ? & ? & ?). by exists c.
Qed.

Lemma hasCondition_Set_ne status condition condType st reason :
  condType ≠ cond_Type condition →
  hasCondition (SetClusterCapacityCondition status condition) condType st reason
  ↔ hasCondition status condType st reason.
Proof. intros. unfold hasCondition. by rewrite Get_Set_ne. Qed.

(** ** Worlds, pointers and runs *)

Lemma read_addLog p a w : read p (addLog a w) = read p w.
Proof. by destruct p. Qed.

Lemma read_write p cs w : is_Some (read p w) → read p (write p cs w) = Some cs.
Proof.
  destruct p as [i|]; cbn; [|done].
  intros ?%lookup_lt_is_Some. by apply list_lookup_insert_eq.
Qed.

Lemma trace_write p cs w : trace (write p cs w) = trace w.
Proof. by destruct p. Qed.

Lemma trace_addLog a w : trace (addLog a w) = trace w ++ [a].
Proof. done. Qed.

Lemma Clusters_addLog a w : Clusters (addLog a w) = Clusters w.
Proof. done. Qed.

Lemma write_write p cs cs' w : write p cs (write p cs' w) = write p cs w.
Proof. destruct p; cbn; [|done]. by rewrite list_insert_insert_eq. Qed.

Lemma write_addLog p cs a w : write p cs (addLog a w) = addLog a (write p cs w).
Proof. by destruct p. Qed.

Lemma modify_run p f w cs :
  read p w = Some cs → modify p f w = Ok () (write p (f cs) w).
Proof. unfold modify. by intros ->. Qed.

Lemma load_run p w cs : read p w = Some cs → load p w = Ok cs w.
Proof. unfold load. by intros ->. Qed.

Lemma bind_run {A B} (m : M A) (k : A → M B) w :
  (m ≫= k) w = match m w with Ok a w' => k a w' | Panic w' => Panic w' end.
Proof. done. Qed.

Section Frame.

#[global] Instance sameExcept_refl c : Reflexive (sameExcept c).
Proof. intros l. apply Forall_Forall2_diag, Forall_forall. done. Qed.

#[global] Instance sameExcept_trans c : Transitive (sameExcept c).
Proof.
  intros l1 l2 l3 H12 H23. eapply Forall2_trans; [|done..].
  intros a b d [Hab1 Hab2] [Hbd1 Hbd2]. split; [congruence|].
  intros Hne. rewrite Hab2 by done. apply Hbd2. congruence.
Qed.

Lemma sameExcept_names c l l' : sameExcept c l l' → names l' = names l.
Proof.
  unfold names. induction 1 as [|a b l l' [Hn _] _ IH]; [done|].
  cbn. by rewrite Hn, IH.
Qed.

Lemma sameExcept_insert c l i cs cs' :
  l !! i = Some cs → ccs_Name cs = c → ccs_Name cs' = c →
  sameExcept c l (<[i := cs']> l).
Proof.
  intros Hi Hcs Hcs'. apply Forall2_same_length_lookup.
  split; [by rewrite length_insert|].
  intros j a b Ha Hb. destruct (decide (i = j)) as [->|Hne].
  - rewrite list_lookup_insert_eq in Hb by by eapply lookup_lt_Some.
    simplify_eq. split; [congruence|done].
  - rewrite list_lookup_insert_ne in Hb by done. by simplify_eq.
Qed.

#[global] Instance frame_refl p c : Reflexive (frame p c).
Proof. destruct p; cbn; apply _. Qed.

#[global] Instance frame_trans p c : Transitive (frame p c).
Proof. destruct p; cbn; apply _. Qed.

#[global] Instance step_refl p c : Reflexive (step p c).
Proof. intros w. split; [done|]. exists []. by rewrite app_nil_r. Qed.

#[global] Instance step_trans p c : Transitive (step p c).
Proof.
  intros w1 w2 w3 [Hf1 (tr1 & Ht1 & Hu1)] [Hf2 (tr2 & Ht2 & Hu2)].
  split; [by etrans|]. exists (tr1 ++ tr2).
  rewrite Ht2, Ht1, (assoc_L (++)). split; [done|]. by apply Forall_app.
Qed.

Lemma preserves_ret {A} I R `{!Reflexive R} (a : A) : preserves I R (mret a).
Proof. intros w ?. done. Qed.

Lemma preserves_panic {A} I R `{!Reflexive R} : preserves I R (@panic A).
Proof. intros w ?. done. Qed.

Lemma preserves_bind {A B} I R `{!Transitive R} (m : M A) (k : A → M B) :
  preserves I R m → (∀ a, preserves I R (k a)) → preserves I R (m ≫= k).
Proof.
  intros Hm Hk w HI. rewrite bind_run.
  destruct (Hm w HI) as [HI' HR']. destruct (m w) as [a w'|w']; [|done].
  destruct (Hk a w' HI') as [HI'' HR'']. split; [done|by etrans].
Qed.

Lemma preserves_log p c a :
  ¬ isUpdate a → preserves (pointsTo p c) (step p c) (log a).
Proof.
  intros Ha w (cs & Hr & Hn). cbn. split.
  - exists cs. by rewrite read_addLog.
  - split; [done|]. exists [a]. split; [done|]. by constructor.
Qed.

Lemma preserves_load p c : preserves (pointsTo p c) (step p c) (load p).
Proof. intros w HI. unfold load. destruct (read p w); done. Qed.

Lemma preserves_deref {A} p c (o : option A) :
  preserves (pointsTo p c) (step p c) (deref o).
Proof. destruct o; [apply preserves_ret|apply preserves_panic]; apply _. Qed.

Lemma preserves_modify p c f :
  (∀ cs, ccs_Name (f cs) = ccs_Name cs) →
  preserves (pointsTo p c) (step p c) (modify p f).
Proof.
  intros Hf w (cs & Hr & Hn). rewrite (modify_run _ _ _ _ Hr). cbn. split.
  - exists (f cs). rewrite read_write by done. by rewrite Hf.
  - split; [|exists []; by rewrite trace_write, app_nil_r].
    destruct p as [i|]; cbn in *; [|done].
    eapply sameExcept_insert; [done..|]. by rewrite Hf.
Qed.

End Frame.

(** ** What one reconciliation may change *)

Section ReconcileFrame.

Variable calculatePercentageFromAmount : Z → Z → Z.
Variable env : Env.

Ltac preserves_step :=
  first
    [ apply preserves_ret; apply _
    | apply preserves_panic; apply _
    | apply preserves_log; cbn; tauto
    | apply preserves_load
    | apply preserves_deref
    | apply preserves_modify; intros ?; done
    | apply preserves_bind; [apply _| |intros ?] ].

Lemma setCondition_preserves p c condition :
  preserves (pointsTo p c) (step p c) (setCondition p condition).
Proof.
  unfold setCondition. apply preserves_bind; [apply _|preserves_step|intros _].
  apply preserves_modify. intros cs. apply SetClusterCapacityCondition_Name.
Qed.

Ltac preserves_tac :=
  repeat first [ apply setCondition_preserves | preserves_step | case_match ].

Lemma recordErrorEvent_preserves p c err :
  preserves (pointsTo p c) (step p c) (recordErrorEvent err).
Proof. unfold recordErrorEvent. preserves_tac. Qed.

Lemma findTargetDeploymentForClusterSpec_preserves p c clusterSpec ns selector :
  preserves (pointsTo p c) (step p c)
    (findTargetDeploymentForClusterSpec env clusterSpec ns selector p).
Proof. unfold findTargetDeploymentForClusterSpec. preserves_tac. Qed.

Lemma patchDeploymentWithReplicaCount_preserves p c d clusterName replicaCount :
  preserves (pointsTo p c) (step p c)
    (patchDeploymentWithReplicaCount env d clusterName replicaCount p).
Proof. unfold patchDeploymentWithReplicaCount. preserves_tac. Qed.

Lemma getSadPods_preserves p c d :
  preserves (pointsTo p c) (step p c) (getSadPods env d p).
Proof. unfold getSadPods. preserves_tac. Qed.

(** A reconciliation through [clusterStatus], whether it returns or
    panics, changes no entry of the slice under another name, keeps
    every name, and attempts no update of the capacity target. *)
Lemma reconcileCluster_preserves p ct totalReplicaCount clusterSpec :
  preserves (pointsTo p (cct_Name clusterSpec)) (step p (cct_Name clusterSpec))
    (reconcileCluster calculatePercentageFromAmount env ct totalReplicaCount
       clusterSpec p).
Proof.
  unfold reconcileCluster.
  repeat first
    [ apply findTargetDeploymentForClusterSpec_preserves
    | apply patchDeploymentWithReplicaCount_preserves
    | apply getSadPods_preserves
    | apply recordErrorEvent_preserves
    | apply setCondition_preserves
    | preserves_step
    | case_match ].
Qed.

End ReconcileFrame.

(** ** Sorting by cluster name *)

#[global] Instance nameLe_trans : Transitive nameLe.
Proof. intros a b c. unfold nameLe. apply transitivity. Qed.

Lemma Less_nameLe a b : byClusterName_Less a b = true → nameLe a b.
Proof.
  unfold byClusterName_Less, nameLe, String.le, String.ltb, String.leb.
  by destruct (ccs_Name a ?= ccs_Name b)%string.
Qed.

Lemma not_Less_nameLe a b : byClusterName_Less a b = false → nameLe b a.
Proof.
  unfold byClusterName_Less, nameLe, String.le, String.ltb, String.leb.
  rewrite (String.compare_antisym (ccs_Name a) (ccs_Name b)).
  by destruct (ccs_Name b ?= ccs_Name a)%string.
Qed.

Lemma sort_insert_Permutation {A} (less : A → A → bool) x l :
  sort_insert less x l ≡ₚ x :: l.
Proof.
  induction l as [|y l IH]; cbn; [done|].
  destruct (less x y); [done|]. by rewrite IH, Permutation_swap.
Qed.

Lemma sort_Sort_Permutation {A} (less : A → A → bool) l :
  sort_Sort less l ≡ₚ l.
Proof.
  unfold sort_Sort. rewrite <-(app_nil_l l) at 2.
  generalize (@nil A) as acc. induction l as [|x l IH]; intros acc; cbn.
  - by rewrite app_nil_r.
  - rewrite IH, sort_insert_Permutation. cbn. by rewrite Permutation_middle.
Qed.

Lemma sort_insert_sorted x l :
  StronglySorted nameLe l → StronglySorted nameLe (sort_insert byClusterName_Less x l).
Proof.
  induction 1 as [|y l Hl IH Hy]; cbn; [by repeat constructor|].
  destruct (byClusterName_Less x y) eqn:Hless.
  - apply Less_nameLe in Hless. constructor; [by constructor|].
    constructor; [done|]. eapply Forall_impl; [done|].
    intros z ?. by etrans.
  - apply not_Less_nameLe in Hless. constructor; [done|].
    rewrite sort_insert_Permutation. by constructor.
Qed.

Lemma sort_Sort_sorted l : StronglySorted nameLe (sort_Sort byClusterName_Less l).
Proof.
  unfold sort_Sort. assert (StronglySorted nameLe []) as Hacc by constructor.
  revert Hacc. generalize (@nil ClusterCapacityStatus) as acc.
  induction l as [|x l IH]; intros acc Hacc; cbn; [done|].
  apply IH. by apply sort_insert_sorted.
Qed.

(** ** The loop over the clusters of the spec *)

#[global] Instance noUpdates_refl : Reflexive noUpdates.
Proof. intros w. exists []. by rewrite app_nil_r. Qed.

#[global] Instance noUpdates_trans : Transitive noUpdates.
Proof.
  intros w1 w2 w3 (tr1 & Ht1 & Hu1) (tr2 & Ht2 & Hu2). exists (tr1 ++ tr2).
  rewrite Ht2, Ht1, (assoc_L (++)). split; [done|]. by apply Forall_app.
Qed.

Lemma updatesOf_app tr1 tr2 : updatesOf (tr1 ++ tr2) = updatesOf tr1 ++ updatesOf tr2.
Proof. apply omap_app. Qed.

Lemma updatesOf_noUpdates tr : Forall (λ a, ¬ isUpdate a) tr → updatesOf tr = [].
Proof.
  induction 1 as [|a tr Ha _ IH]; [done|].
  unfold updatesOf in *. cbn. rewrite IH. by destruct a; cbn in *.
Qed.

Lemma noUpdates_updatesOf w w' :
  noUpdates w w' → updatesOf (trace w') = updatesOf (trace w).
Proof.
  intros (tr & -> & Hu).
  by rewrite updatesOf_app, (updatesOf_noUpdates tr), app_nil_r.
Qed.

Lemma forEach_app {A} (l1 l2 : list A) body w :
  forEach (l1 ++ l2) body w
  = match forEach l1 body w with
    | Ok _ w1 => forEach l2 body w1
    | Panic w1 => Panic w1
    end.
Proof.
  revert w. induction l1 as [|x l1 IH]; intros w; cbn; [done|].
  rewrite !bind_run. destruct (body x w); [apply IH|done].
Qed.

Section Loop.

Variable calculatePercentageFromAmount : Z → Z → Z.
Variable env : Env.
Variable ct : CapacityTarget.
Variable totalReplicaCount : Z.

Lemma findClusterStatus_spec name l i acc :
  (findClusterStatus name i l acc = acc ∧ name ∉ names l)
  ∨ ∃ j cs, findClusterStatus name i l acc = Some (PElem (i + j))
            ∧ l !! j = Some cs ∧ ccs_Name cs = name.
Proof.
  revert i acc. induction l as [|cs l IH]; intros i acc; cbn.
  { left. split; [done|]. apply not_elem_of_nil. }
  destruct (decide (ccs_Name cs = name)) as [Heq|Hne].
  - right. destruct (IH (S i) (Some (PElem i))) as [[-> _]|(j & cs' & -> & ? & ?)].
    + exists 0%nat, cs. by rewrite Nat.add_0_r.
    + exists (S j), cs'. by rewrite Nat.add_succ_r.
  - destruct (IH (S i) acc) as [[-> Hnot]|(j & cs' & -> & ? & ?)].
    + left. split; [done|]. unfold names in *. cbn. rewrite not_elem_of_cons. done.
    + right. exists (S j), cs'. by rewrite Nat.add_succ_r.
Qed.

Lemma syncCluster_step clusterSpec w :
  syncStep (cct_Name clusterSpec) w
    (world_of (syncCluster calculatePercentageFromAmount env ct totalReplicaCount
                 clusterSpec w)).
Proof.
  unfold syncCluster, resolveClusterStatus.
  rewrite !bind_run. cbn -[reconcileCluster].
  destruct (findClusterStatus_spec (cct_Name clusterSpec) (Clusters w) 0 None)
    as [[-> Hnot]|(j & cs & -> & Hj & Hcs)];
    unfold mbind, M_bind, mret, M_ret; cbn -[reconcileCluster].
  - match goal with |- context [reconcileCluster _ _ _ _ _ _ ?w1] =>
      destruct (reconcileCluster_preserves calculatePercentageFromAmount env
                  PLocal ct totalReplicaCount clusterSpec w1) as [_ [Hf Htr]]
    end.
    { by eexists. }
    cbn in Hf, Htr. split; [done|]. by rewrite decide_False.
  - destruct (reconcileCluster_preserves calculatePercentageFromAmount env
                (PElem j) ct totalReplicaCount clusterSpec w) as [_ [Hf Htr]].
    { by exists cs. }
    split; [done|]. rewrite decide_True; [done|].
    unfold names. apply list_elem_of_fmap. exists cs. split; [done|].
    by eapply list_elem_of_lookup_2.
Qed.

Lemma forEach_noUpdates spec w :
  noUpdates w
    (world_of (forEach spec
                 (syncCluster calculatePercentageFromAmount env ct totalReplicaCount) w)).
Proof.
  revert w. induction spec as [|c spec IH]; intros w; cbn; [done|].
  rewrite bind_run. pose proof (syncCluster_step c w) as [Hc _].
  destruct (syncCluster calculatePercentageFromAmount env ct totalReplicaCount c w)
    as [[] w1|w1]; [|done].
  by etrans.
Qed.

End Loop.

(** ** Running the controller step by step *)

Arguments calculateReplicaCountFromPercentage : simpl never.
Arguments int32 : simpl never.
Arguments SetClusterCapacityCondition : simpl never.
Arguments NewClusterCapacityCondition : simpl never.
Arguments read : simpl never.
Arguments write : simpl never.
Arguments addLog : simpl never.
Arguments sort_Sort : simpl never.
Arguments Atoi : simpl never.
Arguments SplitMetaNamespaceKey : simpl never.
Arguments MetaKey : simpl never.

Lemma is_Some_read_addLog p a w : is_Some (read p w) → is_Some (read p (addLog a w)).
Proof. by rewrite read_addLog. Qed.

Lemma is_Some_read_write p cs w : is_Some (read p w) → is_Some (read p (write p cs w)).
Proof. intros. by rewrite read_write. Qed.

Lemma is_Some_read p w cs : read p w = Some cs → is_Some (read p w).
Proof. by intros ->. Qed.

Create HintDb world.
#[global] Hint Resolve is_Some_read_addLog is_Some_read_write is_Some_read : world.

Ltac exec_step :=
  first
    [ rewrite read_addLog
    | rewrite read_write by eauto 20 with world
    | match goal with
      | H : read ?p ?w = Some _ |- context [read ?p ?w] => rewrite H
      | H : ?x = inr _ |- context [?x] => rewrite H
      | H : ?x = inl _ |- context [?x] => rewrite H
      | H : ?x = Some _ |- context [?x] => rewrite H
      | H : ?x = None |- context [?x] => rewrite H
      | H : ?x = true |- context [?x] => rewrite H
      | H : ?x = false |- context [?x] => rewrite H
      end ].

Ltac trace_norm :=
  repeat first [ rewrite trace_write | rewrite trace_addLog ];
  rewrite <-?(assoc_L (++)).

Ltac solve_Forall_actions :=
  cbn; repeat constructor; unfold NewClusterCapacityCondition; cbn;
  first [ tauto | discriminate | done ].

Ltac exec :=
  repeat first
    [ progress unfold mbind, M_bind, mret, M_ret, log, panic, modify, load, deref,
        setCondition, recordErrorEvent, getClusters, setClusters, alloc
    | progress cbn
    | exec_step ].

Section Handler.

Variable ReleaseReplicasAnnotation : string.
Variable calculatePercentageFromAmount : Z → Z → Z.
Variable env : Env.

Lemma resolveClusterStatus_run clusterSpec w :
  ∃ p w1 cs,
    resolveClusterStatus clusterSpec w = Ok p w1
    ∧ read p w1 = Some cs
    ∧ ccs_Name cs = cct_Name clusterSpec
    ∧ trace w1 = trace w
    ∧ ((∃ j, p = PElem j ∧ w1 = w)
       ∨ (p = PLocal ∧ cs = newClusterCapacityStatus (cct_Name clusterSpec)
          ∧ (cct_Name clusterSpec ∉ names (Clusters w))
          ∧ Clusters w1 = Clusters w ++ [cs])).
Proof.
  unfold resolveClusterStatus. exec.
  destruct (findClusterStatus_spec (cct_Name clusterSpec) (Clusters w) 0 None)
    as [[-> Hnot]|(j & cs & -> & Hj & Hcs)]; exec.
  - eexists PLocal, _, _. split; [done|]. split; [done|].
    repeat split; try done. right. done.
  - exists (PElem j), w, cs. repeat split; try done. left. by exists j.
Qed.

Lemma persistStatus_run ct w :
  persistStatus env ct w
  = Ok None
      {| Clusters := sort_Sort byClusterName_Less (Clusters w);
         local := local w;
         trace := trace w ++ [ActUpdate (persistedTarget ct w)]
                    ++ updateWarning env (persistedTarget ct w) ++ [finalEvent ct w] |}.
Proof.
  unfold persistStatus, updateWarning, persistedTarget, finalEvent. exec.
  destruct (CapacityTargets_Update env _); exec; unfold addLog; cbn;
    by rewrite <-?(assoc_L (++)).
Qed.

Lemma handler_run key w :
  capacityTargetSyncHandler ReleaseReplicasAnnotation
    calculatePercentageFromAmount env key w
  = match SplitMetaNamespaceKey key with
    | None => Ok None (addLog (ActHandleError key) w)
    | Some (namespace, name) =>
        match capacityTargetsLister_Get env namespace name with
        | inl err =>
            if IsNotFound err then Ok None (addLog (ActHandleError key) w)
            else Ok (Some err) w
        | inr ct =>
            match getReleaseForCapacityTarget env ct with
            | inl err => Ok (Some err) (afterCopy ct w)
            | inr release =>
                let annotation :=
                  default EmptyString
                    (release_Annotations release !! ReleaseReplicasAnnotation) in
                match Atoi annotation with
                | None => Ok (Some (ParseReplicasError annotation)) (afterCopy ct w)
                | Some totalReplicaCount =>
                    match forEach (ct_Spec_Clusters ct)
                            (syncCluster calculatePercentageFromAmount env ct
                               totalReplicaCount) (afterCopy ct w) with
                    | Ok _ w1 => persistStatus env ct w1
                    | Panic w1 => Panic w1
                    end
                end
            end
        end
    end.
Proof.
  unfold capacityTargetSyncHandler.
  destruct (SplitMetaNamespaceKey key) as [[namespace name]|]; [|done].
  destruct (capacityTargetsLister_Get env namespace name) as [err|ct].
  { by destruct (IsNotFound err). }
  unfold mbind, M_bind at 1. cbn -[getReleaseForCapacityTarget].
  destruct (getReleaseForCapacityTarget env ct) as [err|release]; [done|].
  cbn zeta. destruct (Atoi _); done.
Qed.

Lemma handler_validated key ct totalReplicaCount w :
  validated ReleaseReplicasAnnotation env key ct totalReplicaCount →
  capacityTargetSyncHandler ReleaseReplicasAnnotation
    calculatePercentageFromAmount env key w
  = match forEach (ct_Spec_Clusters ct)
            (syncCluster calculatePercentageFromAmount env ct totalReplicaCount)
            (afterCopy ct w) with
    | Ok _ w1 => persistStatus env ct w1
    | Panic w1 => Panic w1
    end.
Proof.
  intros (namespace & name & release & Hkey & Hct & Hrel & Hatoi).
  rewrite handler_run, Hkey, Hct, Hrel. cbn zeta. by rewrite Hatoi.
Qed.

(** Either the sync ends before the loop, or it is validated and panics
    in the loop, or it is validated and persists the status. *)
Lemma handler_cases key w :
  (∃ r w', capacityTargetSyncHandler ReleaseReplicasAnnotation
             calculatePercentageFromAmount env key w = Ok r w'
           ∧ updatesOf (trace w') = updatesOf (trace w)
           ∧ ¬ ∃ ct total, validated ReleaseReplicasAnnotation env key ct total)
  ∨ ∃ ct total, validated ReleaseReplicasAnnotation env key ct total
      ∧ ((∃ w1, forEach (ct_Spec_Clusters ct)
                  (syncCluster calculatePercentageFromAmount env ct total)
                  (afterCopy ct w) = Panic w1
                ∧ updatesOf (trace w1) = updatesOf (trace w))
         ∨ (∃ w1, forEach (ct_Spec_Clusters ct)
                    (syncCluster calculatePercentageFromAmount env ct total)
                    (afterCopy ct w) = Ok () w1
                  ∧ updatesOf (trace w1) = updatesOf (trace w))).
Proof.
  destruct (SplitMetaNamespaceKey key) as [[namespace name]|] eqn:Hkey.
  2:{ left. rewrite handler_run, Hkey. eexists _, _. split; [done|].
      split; [by rewrite trace_addLog, updatesOf_app, app_nil_r|].
      intros (? & ? & ? & ? & ? & ? & _). congruence. }
  destruct (capacityTargetsLister_Get env namespace name) as [err|ct] eqn:Hct.
  { left. rewrite handler_run, Hkey, Hct.
    destruct (IsNotFound err); eexists _, _; (split; [done|]);
      (split; [by rewrite ?trace_addLog, ?updatesOf_app, ?app_nil_r|]);
      intros (? & ? & ? & ? & ? & ? & ? & _); congruence. }
  destruct (getReleaseForCapacityTarget env ct) as [err|release] eqn:Hrel.
  { left. rewrite handler_run, Hkey, Hct, Hrel. eexists _, _.
    split; [done|]. split; [done|].
    intros (? & ? & ? & ? & ? & ? & ? & ? & _). congruence. }
  destruct (Atoi (default EmptyString
              (release_Annotations release !! ReleaseReplicasAnnotation)))
    as [total|] eqn:Hatoi.
  2:{ left. rewrite handler_run, Hkey, Hct, Hrel. cbn zeta. rewrite Hatoi.
      eexists _, _. split; [done|]. split; [done|].
      intros (? & ? & ? & ? & ? & ? & ? & ? & ?). congruence. }
  right. exists ct, total. split; [by exists namespace, name, release|].
  pose proof (forEach_noUpdates calculatePercentageFromAmount env ct total
                (ct_Spec_Clusters ct) (afterCopy ct w)) as Hno.
  apply noUpdates_updatesOf in Hno.
  destruct (forEach _ _ _) as [[] w1|w1]; [right|left]; by exists w1.
Qed.

Lemma updatesOf_updateWarning ct' : updatesOf (updateWarning env ct') = [].
Proof. unfold updateWarning. by destruct (CapacityTargets_Update env ct'). Qed.

(** A sync attempts no update, or it is validated, its loop returns, and
    it attempts the one update of [persistStatus]. *)
Lemma handler_updates key w :
  updatesOf (trace (world_of (capacityTargetSyncHandler ReleaseReplicasAnnotation
                                calculatePercentageFromAmount env key w)))
  = updatesOf (trace w)
  ∨ ∃ ct total w1,
      validated ReleaseReplicasAnnotation env key ct total
      ∧ forEach (ct_Spec_Clusters ct)
          (syncCluster calculatePercentageFromAmount env ct total)
          (afterCopy ct w) = Ok () w1
      ∧ capacityTargetSyncHandler ReleaseReplicasAnnotation
          calculatePercentageFromAmount env key w = persistStatus env ct w1
      ∧ updatesOf (trace (world_of (persistStatus env ct w1)))
        = updatesOf (trace w) ++ [persistedTarget ct w1].
Proof.
  destruct (handler_cases key w)
    as [(r & w' & -> & Hu & _)|(ct & total & Hv & [(w1 & Hloop & Hu)|(w1 & Hloop & Hu)])].
  - by left.
  - left. by rewrite (handler_validated _ _ _ _ Hv), Hloop.
  - right. exists ct, total, w1. split; [done|]. split; [done|].
    split; [by rewrite (handler_validated _ _ _ _ Hv), Hloop|].
    rewrite persistStatus_run. cbn [world_of trace].
    rewrite !updatesOf_app, updatesOf_updateWarning, Hu. done.
Qed.

End Handler.

Lemma elem_of_updatesOf ct tr : ct ∈ updatesOf tr ↔ ActUpdate ct ∈ tr.
Proof.
  unfold updatesOf. rewrite list_elem_of_omap. split.
  - intros (a & Ha & Hct). destruct a; by simplify_eq.
  - intros Ha. by exists (ActUpdate ct).
Qed.

(** ** Capacity math *)

(** The three instances of the specification for a total of 10. *)
Lemma replica_count_total_10 :
  calculateReplicaCountFromPercentage 10 33 = 4
  ∧ calculateReplicaCountFromPercentage 10 100 = 10
  ∧ calculateReplicaCountFromPercentage 10 0 = 0.
Proof. by vm_compute. Qed.

(** C1 (the code departs from the claim).  The claim: for every total >= 0
    and every percent in [0,100], [calculateReplicaCountFromPercentage]
    equals ceil(percent/100 * total).  At total = 100 and percent = 7 the
    quotient 7/100 is rounded up to the next [float64], the product is
    7.000000000000001, and the function returns 8 where the ceiling of
    7/100 * 100 is 7. *)
Theorem C1_replica_count_overshoots :
  calculateReplicaCountFromPercentage 100 7 = 8 ∧ exact_ceil 100 7 = 7.
Proof. by vm_compute. Qed.

(** ** Validation of the owner *)

(** C2.  When the capacity target has not exactly one owner reference, or
    its single owner reference names a live Release with another UID, the
    sync returns an error and has done nothing: no cluster was asked, no
    patch issued, no condition set, no update attempted, no event
    recorded. *)
Theorem C2_invalid_owner_fails_first
    (ReleaseReplicasAnnotation : string)
    (calculatePercentageFromAmount : Z → Z → Z) (env : Env)
    (key namespace name : string) (ct : CapacityTarget) (w : World) :
  SplitMetaNamespaceKey key = Some (namespace, name) →
  capacityTargetsLister_Get env namespace name = inr ct →
  (length (ct_OwnerReferences ct) ≠ 1%nat
   ∨ ∃ owner release,
       ct_OwnerReferences ct = [owner]
       ∧ releasesLister_Get env (ct_Namespace ct) (owner_Name owner) = inr release
       ∧ release_UID release ≠ owner_UID owner) →
  ∃ err w',
    capacityTargetSyncHandler ReleaseReplicasAnnotation
      calculatePercentageFromAmount env key w = Ok (Some err) w'
    ∧ trace w' = trace w.
Proof.
  intros Hkey Hct Howner. rewrite handler_run, Hkey, Hct.
  assert (∃ err, getReleaseForCapacityTarget env ct = inl err) as [err ->].
  { unfold getReleaseForCapacityTarget.
    destruct Howner as [Hlen|(owner & release & -> & -> & Huid)].
    - destruct (ct_OwnerReferences ct) as [|owner [|owner' refs]]; [|done|];
        by eexists.
    - rewrite decide_True by done. by eexists. }
  by eexists _, _.
Qed.

Lemma C2_witness :
  ∃ err w',
    capacityTargetSyncHandler Scenario.annotation Scenario.percentage
      (Scenario.world
         (Scenario.target [Scenario.owner; Scenario.owner]
            [Scenario.cluster "a" 50] [])
         (Scenario.release "uid-1" "10") (λ _, None)
         (λ _, inr [Scenario.deployment (Some 5) 5]) (λ _, inr (5, 0, [])))
      "ns/ct" initialWorld = Ok (Some err) w'
    ∧ trace w' = trace initialWorld.
Proof.
  apply (C2_invalid_owner_fails_first _ _ _ "ns/ct" "ns" "ct"
           (Scenario.target [Scenario.owner; Scenario.owner]
              [Scenario.cluster "a" 50] [])).
  - reflexivity.
  - reflexivity.
  - left. cbn. lia.
Defined.

(** ** The persisted status is sorted *)

(** C3.  Whatever the order of [Spec.Clusters] and of the prior status,
    the capacity target passed to the update call has its
    [Status.Clusters] sorted by cluster name. *)
Theorem C3_persisted_status_sorted
    (ReleaseReplicasAnnotation : string)
    (calculatePercentageFromAmount : Z → Z → Z) (env : Env)
    (key : string) (ct' : CapacityTarget) :
  ActUpdate ct' ∈ trace (world_of (capacityTargetSyncHandler ReleaseReplicasAnnotation
                                     calculatePercentageFromAmount env key
                                     initialWorld)) →
  StronglySorted nameLe (ct_Status_Clusters ct').
Proof.
  intros Hin%elem_of_updatesOf.
  destruct (handler_updates ReleaseReplicasAnnotation calculatePercentageFromAmount
              env key initialWorld) as [Hu|(ct & total & w1 & _ & _ & Hrun & Hu)].
  - rewrite Hu in Hin. by apply elem_of_nil in Hin.
  - rewrite Hrun, Hu in Hin. cbn in Hin. apply list_elem_of_singleton in Hin as ->.
    apply sort_Sort_sorted.
Qed.

(** ** One cluster: failures of discovery and of the pod count *)





(** ** The nil replica count *)

Lemma getSadPods_nil_panics env targetDeployment p w status pods :
  read p w = Some status →
  dep_Spec_Replicas targetDeployment = None →
  getSadPodsForDeploymentOnCluster env targetDeployment (ccs_Name status) = inr pods →
  getSadPods env targetDeployment p w
  = Panic (addLog (ActInspectPods (ccs_Name status) targetDeployment) w).
Proof.
  intros Hread Hnil Hpods. unfold getSadPods. exec.
  destruct pods as [[podCount sadPodsCount] sadPods]. by exec.
Qed.

Lemma syncCluster_crashes calculatePercentageFromAmount env ct totalReplicaCount
    clusterSpec w :
  crashes calculatePercentageFromAmount env ct totalReplicaCount clusterSpec →
  ∃ w', syncCluster calculatePercentageFromAmount env ct totalReplicaCount
          clusterSpec w = Panic w'.
Proof.
  intros (d & d' & pods & Hfactory & Hlist & Hnil & Hclient & Hpatch & Hpods).
  destruct (resolveClusterStatus_run clusterSpec w)
    as (p & w1 & cs & Hres & Hread & Hname & Htrace & _).
  unfold syncCluster. rewrite bind_run, Hres.
  unfold reconcileCluster, findTargetDeploymentForClusterSpec,
    patchDeploymentWithReplicaCount.
  rewrite <-Hname in Hpods. exec.
  erewrite getSadPods_nil_panics; [by eexists|by exec|done|done].
Qed.

(** C10.  When some cluster of the spec has exactly one matching
    deployment whose [Spec.Replicas] is nil, the patch succeeds and the
    pod inspection succeeds, [getSadPods] dereferences the nil pointer
    while building the pod count error: it panics where it would set
    Ready=False with reason WrongPodCount, and so does the sync, which
    attempts no update. *)
Theorem C10_nil_replicas_crash
    (ReleaseReplicasAnnotation : string)
    (calculatePercentageFromAmount : Z → Z → Z) (env : Env)
    (key : string) (ct : CapacityTarget) (totalReplicaCount : Z)
    (clusterSpec : ClusterCapacityTarget) (w : World) :
  validated ReleaseReplicasAnnotation env key ct totalReplicaCount →
  clusterSpec ∈ ct_Spec_Clusters ct →
  crashes calculatePercentageFromAmount env ct totalReplicaCount clusterSpec →
  (∀ targetDeployment p w0 status pods,
     read p w0 = Some status →
     dep_Spec_Replicas targetDeployment = None →
     getSadPodsForDeploymentOnCluster env targetDeployment (ccs_Name status)
     = inr pods →
     ∃ w', getSadPods env targetDeployment p w0 = Panic w')
  ∧ ∃ w', capacityTargetSyncHandler ReleaseReplicasAnnotation
            calculatePercentageFromAmount env key w = Panic w'
          ∧ updatesOf (trace w') = updatesOf (trace w).
Proof.
  intros Hv Hin Hcrash. split.
  { intros d p w0 status pods ? ? ?. erewrite getSadPods_nil_panics by done.
    by eexists. }
  rewrite (handler_validated _ _ _ _ _ _ _ Hv).
  apply list_elem_of_split in Hin as (l1 & l2 & Hspec).
  pose proof (forEach_noUpdates calculatePercentageFromAmount env ct
                totalReplicaCount (ct_Spec_Clusters ct) (afterCopy ct w)) as Hno.
  apply noUpdates_updatesOf in Hno. cbn in Hno.
  rewrite Hspec in Hno |- *. rewrite forEach_app in Hno |- *.
  destruct (forEach l1 _ _) as [[] w1|w1]; [|by eexists].
  cbn [forEach] in Hno |- *. rewrite bind_run in Hno |- *.
  destruct (syncCluster_crashes calculatePercentageFromAmount env ct
              totalReplicaCount clusterSpec w1 Hcrash) as [w' Hw'].
  rewrite Hw' in Hno |- *. by exists w'.
Qed.

Lemma C10_witness :
  let ct := Scenario.target [Scenario.owner] [Scenario.cluster "a" 30] [] in
  let env := Scenario.world ct (Scenario.release "uid-1" "10") (λ _, None)
               (λ _, inr [Scenario.deployment None 0]) (λ _, inr (3, 0, [])) in
  (∀ targetDeployment p w0 status pods,
     read p w0 = Some status →
     dep_Spec_Replicas targetDeployment = None →
     getSadPodsForDeploymentOnCluster env targetDeployment (ccs_Name status)
     = inr pods →
     ∃ w', getSadPods env targetDeployment p w0 = Panic w')
  ∧ ∃ w', capacityTargetSyncHandler Scenario.annotation Scenario.percentage env
            "ns/ct" initialWorld = Panic w'
          ∧ updatesOf (trace w') = updatesOf (trace initialWorld).
Proof.
  intros ct env.
  apply (C10_nil_replicas_crash Scenario.annotation Scenario.percentage env "ns/ct"
           ct 10 (Scenario.cluster "a" 30) initialWorld).
  - exists "ns"%string, "ct"%string, (Scenario.release "uid-1" "10").
    repeat split; reflexivity.
  - apply list_elem_of_here.
  - exists (Scenario.deployment None 0), (Scenario.deployment (Some 3) 0), (3, 0, []).
    repeat split; reflexivity.
Defined.

(** ** The end of a sync *)

(** A validated sync either crashes in the loop, before any update, or
    returns nil after exactly one update; a failed update adds a Warning
    event, and the last action is the Normal event with the status. *)
Lemma validated_sync_outcome
    (ReleaseReplicasAnnotation : string)
    (calculatePercentageFromAmount : Z → Z → Z) (env : Env)
    (key : string) (ct : CapacityTarget) (totalReplicaCount : Z) (w : World) :
  validated ReleaseReplicasAnnotation env key ct totalReplicaCount →
  (∃ w', capacityTargetSyncHandler ReleaseReplicasAnnotation
           calculatePercentageFromAmount env key w = Panic w'
         ∧ updatesOf (trace w') = updatesOf (trace w))
  ∨ ∃ w1 w',
      forEach (ct_Spec_Clusters ct)
        (syncCluster calculatePercentageFromAmount env ct totalReplicaCount)
        (afterCopy ct w) = Ok () w1
      ∧ capacityTargetSyncHandler ReleaseReplicasAnnotation
          calculatePercentageFromAmount env key w = Ok None w'
      ∧ updatesOf (trace w') = updatesOf (trace w) ++ [persistedTarget ct w1]
      ∧ (∀ err, CapacityTargets_Update env (persistedTarget ct w1) = Some err →
           ActEvent EventTypeWarning "FailedCapacityTargetChange" (EvError err)
           ∈ trace w')
      ∧ last (trace w') = Some (finalEvent ct w1).
Proof.
  intros Hv. rewrite (handler_validated _ _ _ _ _ _ _ Hv).
  pose proof (forEach_noUpdates calculatePercentageFromAmount env ct
                totalReplicaCount (ct_Spec_Clusters ct) (afterCopy ct w)) as Hno.
  apply noUpdates_updatesOf in Hno.
  destruct (forEach _ _ _) as [[] w1|w1]; [right|left; by eexists].
  cbn in Hno. rewrite persistStatus_run. eexists w1, _. split; [done|]. split; [done|].
  cbn [trace]. split; [|split].
  - by rewrite !updatesOf_app, updatesOf_updateWarning, Hno.
  - intros err Herr. unfold updateWarning. rewrite Herr.
    rewrite !elem_of_app, !list_elem_of_singleton. tauto.
  - by rewrite !(assoc_L (++)), last_snoc.
Qed.

(** C7 (the code departs from the claim).  The claim: every sync that
    passes the validation of owner and annotation attempts exactly one
    status update and returns nil.  The sync below passes validation; its
    second cluster has a deployment without [Spec.Replicas], the patch and
    the pod inspection succeed, and the sync panics in [getSadPods]: no
    update is attempted and nothing is returned. *)
Theorem C7_crash_before_update :
  let ct := Scenario.target [Scenario.owner]
              [Scenario.cluster "a" 50; Scenario.cluster "b" 50] [] in
  let env := Scenario.world ct (Scenario.release "uid-1" "10") (λ _, None)
               (λ clusterName,
                  if decide (clusterName = "b"%string)
                  then inr [Scenario.deployment None 0]
                  else inr [Scenario.deployment (Some 5) 5])
               (λ _, inr (5, 0, [])) in
  validated Scenario.annotation env "ns/ct" ct 10
  ∧ ∃ w', Scenario.sync env = Panic w'
          ∧ updatesOf (trace w') = []
          ∧ last (trace w') = Some (ActInspectPods "b" (Scenario.deployment None 0)).
Proof.
  intros ct env. split.
  - exists "ns"%string, "ct"%string, (Scenario.release "uid-1" "10").
    repeat split; reflexivity.
  - eexists. split; [vm_compute; reflexivity|]. split; reflexivity.
Qed.

(** ** Entries of clusters without a prior status *)

Lemma sameExcept_entriesNamed c n l l' :
  sameExcept c l l' → c ≠ n → entriesNamed n l' = entriesNamed n l.
Proof.
  intros Hsame Hne. unfold entriesNamed.
  induction Hsame as [|a b l l' [Hab Heq] _ IH]; [done|].
  rewrite !filter_cons, IH, <-Hab.
  destruct (decide (ccs_Name a = n)) as [Ha|Ha]; [|done].
  by rewrite Heq by congruence.
Qed.

Lemma entriesNamed_nil_names n l : entriesNamed n l = [] ↔ n ∉ names l.
Proof.
  unfold entriesNamed, names. induction l as [|cs l IH].
  { split; [intros _; apply not_elem_of_nil|done]. }
  rewrite filter_cons, fmap_cons, not_elem_of_cons, <-IH.
  destruct (decide (ccs_Name cs = n)) as [Hn|Hn].
  - split; [done|]. by intros [? _].
  - split; [|by intros [_ ?]]. intros ?. split; [congruence|done].
Qed.

Lemma validated_inj ann env key ct1 total1 ct2 total2 :
  validated ann env key ct1 total1 → validated ann env key ct2 total2 →
  ct1 = ct2 ∧ total1 = total2.
Proof.
  intros (ns1 & n1 & r1 & Hk1 & Hc1 & Hr1 & Ha1) (ns2 & n2 & r2 & Hk2 & Hc2 & Hr2 & Ha2).
  rewrite Hk1 in Hk2. injection Hk2 as <- <-.
  rewrite Hc1 in Hc2. injection Hc2 as <-.
  rewrite Hr1 in Hr2. injection Hr2 as <-.
  rewrite Ha1 in Ha2. by injection Ha2 as <-.
Qed.

Section FreshEntries.

Variable calculatePercentageFromAmount : Z → Z → Z.
Variable env : Env.
Variable ct : CapacityTarget.
Variable totalReplicaCount : Z.

Lemma syncCluster_entries_other clusterSpec n w :
  cct_Name clusterSpec ≠ n →
  entriesNamed n
    (Clusters (world_of (syncCluster calculatePercentageFromAmount env ct totalReplicaCount
                           clusterSpec w)))
  = entriesNamed n (Clusters w).
Proof.
  intros Hne.
  destruct (syncCluster_step calculatePercentageFromAmount env ct
              totalReplicaCount clusterSpec w) as [_ Hstep].
  destruct (decide _).
  - by eapply sameExcept_entriesNamed.
  - rewrite Hstep. unfold entriesNamed. rewrite filter_app, filter_cons.
    rewrite decide_False by done. by rewrite filter_nil, app_nil_r.
Qed.

Lemma forEach_entries_other spec n w :
  n ∉ cct_Name <$> spec →
  entriesNamed n
    (Clusters (world_of (forEach spec
                           (syncCluster calculatePercentageFromAmount env ct totalReplicaCount)
                           w)))
  = entriesNamed n (Clusters w).
Proof.
  revert w. induction spec as [|c spec IH]; intros w Hnot; [done|].
  cbn in Hnot. apply not_elem_of_cons in Hnot as [Hc Hnot].
  cbn [forEach]. rewrite bind_run.
  pose proof (syncCluster_entries_other c n w (not_eq_sym Hc)) as Hstep.
  destruct (syncCluster calculatePercentageFromAmount env ct totalReplicaCount c w)
    as [[] w1|w1]; [|done].
  cbn in Hstep. by rewrite IH, Hstep.
Qed.

Lemma syncCluster_entries_fresh clusterSpec w :
  entriesNamed (cct_Name clusterSpec) (Clusters w) = [] →
  entriesNamed (cct_Name clusterSpec)
    (Clusters (world_of (syncCluster calculatePercentageFromAmount env ct totalReplicaCount
                           clusterSpec w)))
  = [newClusterCapacityStatus (cct_Name clusterSpec)].
Proof.
  intros Hnone.
  destruct (syncCluster_step calculatePercentageFromAmount env ct
              totalReplicaCount clusterSpec w) as [_ Hstep].
  apply entriesNamed_nil_names in Hnone as Hnot.
  rewrite decide_False in Hstep by done. rewrite Hstep.
  unfold entriesNamed in *. rewrite filter_app, Hnone, filter_cons.
  by rewrite decide_True.
Qed.

(** A cluster named once in the spec and absent from the status ends the
    loop with the entry that [append] copied into the slice. *)
Lemma forEach_entries_fresh spec n w w' :
  length (filter (λ c, cct_Name c = n) spec) = 1%nat →
  entriesNamed n (Clusters w) = [] →
  forEach spec (syncCluster calculatePercentageFromAmount env ct totalReplicaCount) w
  = Ok () w' →
  entriesNamed n (Clusters w') = [newClusterCapacityStatus n].
Proof.
  revert w. induction spec as [|c spec IH]; intros w Hone Hnone Hrun; [done|].
  rewrite filter_cons in Hone. cbn [forEach] in Hrun. rewrite bind_run in Hrun.
  destruct (decide (cct_Name c = n)) as [<-|Hne].
  - pose proof (syncCluster_entries_fresh c w Hnone) as Hc.
    destruct (syncCluster calculatePercentageFromAmount env ct totalReplicaCount c w)
      as [[] w1|w1]; [|done].
    cbn in Hc, Hone.
    assert (cct_Name c ∉ cct_Name <$> spec) as Hnot.
    { intros (c' & Hc' & Hin)%list_elem_of_fmap.
      assert (c' ∈ filter (λ c0, cct_Name c0 = cct_Name c) spec) as Hf
        by by apply list_elem_of_filter.
      destruct (filter _ spec); [by apply elem_of_nil in Hf|done]. }
    pose proof (forEach_entries_other spec (cct_Name c) w1 Hnot) as Hrest.
    rewrite Hrun in Hrest. cbn in Hrest. by rewrite Hrest.
  - pose proof (syncCluster_entries_other c n w Hne) as Hc.
    destruct (syncCluster calculatePercentageFromAmount env ct totalReplicaCount c w)
      as [[] w1|w1]; [|done].
    cbn in Hc.
    apply (IH w1); [done|by rewrite Hc|done].
Qed.

End FreshEntries.

(** C9 (amended).  For a cluster that [Spec.Clusters] names exactly once
    and that has no entry in [Status.Clusters] when the sync starts, the
    entry of that name in the capacity target passed to the update call is
    the zero-valued entry with only the name: what the reconciliation set
    through [clusterStatus] went to the struct of which [append] had copied
    the value. *)
Theorem C9_fresh_entry_persisted_empty
    (ReleaseReplicasAnnotation : string)
    (calculatePercentageFromAmount : Z → Z → Z) (env : Env)
    (key : string) (ct : CapacityTarget) (totalReplicaCount : Z)
    (n : string) (ct' : CapacityTarget) :
  validated ReleaseReplicasAnnotation env key ct totalReplicaCount →
  length (filter (λ c, cct_Name c = n) (ct_Spec_Clusters ct)) = 1%nat →
  n ∉ names (ct_Status_Clusters ct) →
  ActUpdate ct' ∈ trace (world_of (capacityTargetSyncHandler ReleaseReplicasAnnotation
                                     calculatePercentageFromAmount env key
                                     initialWorld)) →
  entriesNamed n (ct_Status_Clusters ct') = [newClusterCapacityStatus n].
Proof.
  intros Hv Hone Hnot Hin%elem_of_updatesOf.
  destruct (handler_updates ReleaseReplicasAnnotation calculatePercentageFromAmount
              env key initialWorld) as [Hu|(ct0 & total & w1 & Hv0 & Hloop & Hrun & Hu)].
  { rewrite Hu in Hin. by apply elem_of_nil in Hin. }
  destruct (validated_inj _ _ _ _ _ _ _ Hv Hv0) as [<- <-].
  rewrite Hrun, Hu in Hin. cbn in Hin. apply list_elem_of_singleton in Hin as ->.
  apply entriesNamed_nil_names in Hnot.
  pose proof (forEach_entries_fresh calculatePercentageFromAmount env ct
                totalReplicaCount _ n (afterCopy ct initialWorld) w1 Hone Hnot
                Hloop) as Hfresh.
  unfold persistedTarget, entriesNamed in *. cbn.
  apply Permutation_singleton_r. rewrite <-Hfresh.
  by rewrite sort_Sort_Permutation.
Qed.

Lemma C9_witness :
  let ct := Scenario.target [Scenario.owner]
              [Scenario.cluster "c" 30; Scenario.cluster "a" 30]
              [newClusterCapacityStatus "b"] in
  let env := Scenario.world ct (Scenario.release "uid-1" "10") (λ _, None)
               (λ _, inr [Scenario.deployment (Some 3) 3]) (λ _, inr (3, 0, [])) in
  let ct' := Scenario.target [Scenario.owner]
               [Scenario.cluster "c" 30; Scenario.cluster "a" 30]
               [newClusterCapacityStatus "a"; newClusterCapacityStatus "b";
                newClusterCapacityStatus "c"] in
  ActUpdate ct' ∈ trace (world_of (capacityTargetSyncHandler Scenario.annotation
                                     Scenario.percentage env "ns/ct" initialWorld))
  ∧ entriesNamed "a" (ct_Status_Clusters ct') = [newClusterCapacityStatus "a"].
Proof.
  intros ct env ct'.
  assert (ActUpdate ct' ∈ trace (world_of (capacityTargetSyncHandler
            Scenario.annotation Scenario.percentage env "ns/ct" initialWorld)))
    as Hin.
  { apply elem_of_updatesOf.
    assert (updatesOf (trace (world_of (capacityTargetSyncHandler
              Scenario.annotation Scenario.percentage env "ns/ct" initialWorld)))
            = [ct']) as -> by (vm_compute; reflexivity).
    apply list_elem_of_here. }
  split; [exact Hin|].
  apply (C9_fresh_entry_persisted_empty Scenario.annotation Scenario.percentage env
           "ns/ct" ct 10 "a" ct').
  - exists "ns"%string, "ct"%string, (Scenario.release "uid-1" "10").
    repeat split; reflexivity.
  - reflexivity.
  - cbn. rewrite not_elem_of_cons. split; [discriminate|apply not_elem_of_nil].
  - exact Hin.
Defined.

(** C9 (as stated) fails when the spec names the cluster twice: the second
    pass of the loop finds the entry the first pass appended and writes
    through a pointer to it. *)
Lemma C9_counterexample :
  let ct := Scenario.target [Scenario.owner]
              [Scenario.cluster "a" 30; Scenario.cluster "a" 30] [] in
  let env := Scenario.world ct (Scenario.release "uid-1" "10") (λ _, None)
               (λ _, inr [Scenario.deployment (Some 3) 3]) (λ _, inr (3, 0, [])) in
  validated Scenario.annotation env "ns/ct" ct 10
  ∧ ("a"%string ∈ cct_Name <$> ct_Spec_Clusters ct)
  ∧ ("a"%string ∉ names (ct_Status_Clusters ct))
  ∧ ∃ ct' status,
      updatesOf (trace (world_of (Scenario.sync env))) = [ct']
      ∧ entriesNamed "a" (ct_Status_Clusters ct') = [status]
      ∧ ccs_AvailableReplicas status = 3
      ∧ hasCondition status ClusterConditionTypeReady ConditionTrue NoReason
      ∧ status ≠ newClusterCapacityStatus "a".
Proof.
  intros ct env. split; [|split; [|split]].
  - exists "ns"%string, "ct"%string, (Scenario.release "uid-1" "10").
    repeat split; reflexivity.
  - apply list_elem_of_here.
  - apply not_elem_of_nil.
  - eexists _, _. split; [vm_compute; reflexivity|].
    split; [vm_compute; reflexivity|]. split; [reflexivity|].
    split; [|discriminate]. eexists. split; [reflexivity|]. done.
Qed.

Lemma C3_witness :
  let ct := Scenario.target [Scenario.owner]
              [Scenario.cluster "c" 30; Scenario.cluster "a" 30]
              [newClusterCapacityStatus "b"] in
  let env := Scenario.world ct (Scenario.release "uid-1" "10") (λ _, None)
               (λ _, inr [Scenario.deployment (Some 3) 3]) (λ _, inr (3, 0, [])) in
  let ct' := Scenario.target [Scenario.owner]
               [Scenario.cluster "c" 30; Scenario.cluster "a" 30]
               [newClusterCapacityStatus "a"; newClusterCapacityStatus "b";
                newClusterCapacityStatus "c"] in
  ActUpdate ct' ∈ trace (world_of (capacityTargetSyncHandler Scenario.annotation
                                     Scenario.percentage env "ns/ct" initialWorld))
  ∧ StronglySorted nameLe (ct_Status_Clusters ct').
Proof.
  intros ct env ct'.
  assert (ActUpdate ct' ∈ trace (world_of (capacityTargetSyncHandler
            Scenario.annotation Scenario.percentage env "ns/ct" initialWorld)))
    as Hin.
  { apply elem_of_updatesOf.
    assert (updatesOf (trace (world_of (capacityTargetSyncHandler
              Scenario.annotation Scenario.percentage env "ns/ct" initialWorld)))
            = [ct']) as -> by (vm_compute; reflexivity).
    apply list_elem_of_here. }
  split; [exact Hin|].
  exact (C3_persisted_status_sorted Scenario.annotation Scenario.percentage env
           "ns/ct" ct' Hin).
Defined.

Lemma hasCondition_New_Set status now condType st reason message :
  hasCondition
    (SetClusterCapacityCondition status
       (NewClusterCapacityCondition now condType st reason message))
    condType st reason.
Proof.
  apply (hasCondition_Set status
           (NewClusterCapacityCondition now condType st reason message)).
Qed.

Ltac finish_verdict :=
  intros _; eexists _, _; split; [reflexivity|]; split; [by exec|];
  cbn; eauto using hasCondition_New_Set.

Ltac healthy_verdict :=
  finish_verdict; split; [|apply hasCondition_New_Set];
  apply hasCondition_Set_ne; [done|apply hasCondition_New_Set].

(** The cases of the health check, in a goal that has run up to it. *)
Ltac inspect_cases env d cs :=
  let Hpods := fresh "Hpods" in
  let Hreplicas := fresh "Hreplicas" in
  let Hcount := fresh "Hcount" in
  let Hsad := fresh "Hsad" in
  destruct (getSadPodsForDeploymentOnCluster env d (ccs_Name cs))
    as [?|[[? ?] [|? ?]]] eqn:Hpods; exec; [finish_verdict|..];
  (destruct (dep_Spec_Replicas d) eqn:Hreplicas; exec; [|done]);
  match goal with
  | |- context [negb (?r =? ?n)] => destruct (r =? n) eqn:Hcount
  end; exec; try finish_verdict;
  match goal with
  | |- context [0 <? ?n] => destruct (0 <? n) eqn:Hsad
  end; exec;
  first [ rewrite decide_False by (cbn; lia); exec; healthy_verdict
        | rewrite decide_True by (cbn; lia); exec; by finish_verdict ].

(** A reconciliation that does not crash returns, and the status behind
    [clusterStatus] shows its outcome. *)
Lemma reconcileCluster_verdict calculatePercentageFromAmount env ct totalReplicaCount
    clusterSpec p w cs :
  read p w = Some cs →
  ccs_Name cs = cct_Name clusterSpec →
  verdict env ct totalReplicaCount clusterSpec ≠ VCrash →
  ∃ w' cs',
    reconcileCluster calculatePercentageFromAmount env ct totalReplicaCount
      clusterSpec p w = Ok () w'
    ∧ read p w' = Some cs'
    ∧ outcomeHolds (verdict env ct totalReplicaCount clusterSpec) cs'.
Proof.
  intros Hread Hname. unfold verdict, inspectVerdict.
  unfold reconcileCluster, findTargetDeploymentForClusterSpec,
    patchDeploymentWithReplicaCount, getSadPods.
  rewrite <-!Hname.
  destruct (GetInformerFactory env (ccs_Name cs)) eqn:Hf; exec; [finish_verdict|].
  destruct (Deployments_List env _ _ _) as [e|[|d [|d' l]]] eqn:Hl; exec;
    try finish_verdict.
  destruct (match dep_Spec_Replicas d with
            | None => true
            | Some replicas => negb (_ =? replicas)
            end) eqn:Hneed; exec.
  - destruct (GetClient env (ccs_Name cs)) eqn:Hclient; exec; [finish_verdict|].
    destruct (Deployments_Patch env _ _ _ _) as [e|d'] eqn:Hpatch; exec;
      [finish_verdict|]. inspect_cases env d cs.
  - inspect_cases env d cs.
Qed.




Section Verdicts.

Variable calculatePercentageFromAmount : Z → Z → Z.
Variable env : Env.
Variable ct : CapacityTarget.
Variable totalReplicaCount : Z.

(** A pass of the loop that does not crash returns. *)
Lemma syncCluster_returns clusterSpec w :
verdict env ct totalReplicaCount clusterSpec ≠ VCrash →
∃ w', syncCluster calculatePercentageFromAmount env ct totalReplicaCount
        clusterSpec w = Ok () w'.
Proof.
intros Hv.
destruct (resolveClusterStatus_run clusterSpec w)
  as (p & w1 & cs & Hres & Hread & Hname & _).
destruct (reconcileCluster_verdict calculatePercentageFromAmount env ct
            totalReplicaCount clusterSpec p w1 cs Hread Hname Hv)
  as (w' & cs' & Hrun & _).
exists w'. unfold syncCluster. by rewrite bind_run, Hres.
Qed.



End Verdicts.




(** ** A total that is not positive *)

Lemma binary_round_aux_sign s m e l :
  match binary_round_aux Float64.prec Float64.emax s m e l with
  | S754_finite s' _ _ => s' = s
  | _ => True
  end.
Proof.
  unfold binary_round_aux.
  destruct (shr_fexp _ _ m e l) as [mrs' e'].
  destruct (shr_fexp _ _ _ e' loc_Exact) as [mrs'' e''].
  destruct (shr_m mrs''); [done| |done]. by destruct (_ <=? _).
Qed.

Lemma of_int_notNegative n : 0 <= n → notNegative (Float64.of_int n).
Proof.
  intros Hn. unfold Float64.of_int, binary_normalize, binary_round.
  destruct n as [|m|m]; [done| |lia].
  destruct (shl_align _ _ _) as [mz ez].
  pose proof (binary_round_aux_sign false (Z.pos mz) ez loc_Exact) as Hs.
  unfold notNegative. by destruct (binary_round_aux _ _ _ _ _ _).
Qed.

Lemma normalize_notPositive n szero :
  n <= 0 → notPositive (binary_normalize Float64.prec Float64.emax n 0 szero).
Proof.
  intros Hn. unfold binary_normalize, binary_round.
  destruct n as [|m|m]; [done|lia|].
  destruct (shl_align _ _ _) as [mz ez].
  pose proof (binary_round_aux_sign true (Z.pos mz) ez loc_Exact) as Hs.
  unfold notPositive. by destruct (binary_round_aux _ _ _ _ _ _).
Qed.

Lemma div_100_notNegative x :
  notNegative x → notNegative (Float64.div x (Float64.of_int 100)).
Proof.
  intros Hx. change (Float64.of_int 100) with (S754_finite false 7036874417766400 (-46)).
  unfold Float64.div, SFdiv. destruct x as [s|s| |s m e]; try done.
  cbn in Hx. subst s. destruct (SFdiv_core_binary _ _ _ _ _ _) as [[mz ez] lz].
  pose proof (binary_round_aux_sign (xorb false false) mz ez lz) as Hs.
  unfold notNegative. by destruct (binary_round_aux _ _ _ _ _ _).
Qed.

Lemma mul_notPositive x y :
  notNegative x → notPositive y → notPositive (Float64.mul x y).
Proof.
  intros Hx Hy. unfold Float64.mul, SFmul.
  destruct x as [sx|sx| |sx mx ex], y as [sy|sy| |sy my ey]; try done.
  cbn in Hx, Hy. subst sx sy.
  pose proof (binary_round_aux_sign (xorb false true) (Z.pos (mx * my)) (ex + ey)
                loc_Exact) as Hs.
  unfold notPositive. by destruct (binary_round_aux _ _ _ _ _ _).
Qed.

Lemma Ceil_notPositive x : notPositive x → notPositive (Float64.Ceil x).
Proof.
  intros Hx. unfold Float64.Ceil. destruct x as [s|s| |s m e]; try done.
  destruct (0 <=? e); [done|]. cbn in Hx. subst s. cbn [cond_Zopp].
  rewrite Z.opp_involutive.
  pose proof (proj2 (Z.shiftl_nonneg (Z.pos m) e) ltac:(lia)) as Hn.
  apply normalize_notPositive. lia.
Qed.

Lemma to_int32_notPositive x : notPositive x → Float64.to_int32 x <= 0.
Proof.
  intros Hx. unfold Float64.to_int32. destruct x as [s|s| |s m e]; try done.
  cbn in Hx. subst s. cbn [cond_Zopp].
  pose proof (proj2 (Z.shiftl_nonneg (Z.pos m) e) ltac:(lia)) as Hn.
  destruct (_ && _); [lia|done].
Qed.

(** For a total that is not positive and a percentage that is not
    negative, the replica count is computed, and is not positive. *)
Lemma replica_count_notPositive total percentage :
  total <= 0 → 0 <= percentage →
  calculateReplicaCountFromPercentage total percentage <= 0.
Proof.
  intros Ht Hp. unfold calculateReplicaCountFromPercentage.
  apply to_int32_notPositive, Ceil_notPositive, mul_notPositive.
  - by apply div_100_notNegative, of_int_notNegative.
  - by apply normalize_notPositive.
Qed.

(** For a total of 0 the replica count is 0. *)
Lemma replica_count_total_0 percentage :
  0 <= percentage <= 100 → calculateReplicaCountFromPercentage 0 percentage = 0.
Proof.
  intros Hp.
  assert (Forall (λ p, calculateReplicaCountFromPercentage 0 p = 0) (seqZ 0 101))
    as Hall by compute_done.
  rewrite Forall_forall in Hall. apply Hall, elem_of_seqZ. lia.
Qed.

(** C8 (amended).  A total that is not positive is not rejected: for a
    percent in [0,100], [calculateReplicaCountFromPercentage] returns the
    count it computes, which is at most 0, and 0 for a total of 0; and the
    sync whose replica annotation reads such a total goes on with it and
    returns no error. *)
Theorem C8_nonpositive_total_is_computed
    (ReleaseReplicasAnnotation : string)
    (calculatePercentageFromAmount : Z → Z → Z) (env : Env)
    (key : string) (ct : CapacityTarget) (totalReplicaCount percent : Z)
    (w : World) :
  validated ReleaseReplicasAnnotation env key ct totalReplicaCount →
  int32 totalReplicaCount <= 0 →
  0 <= percent <= 100 →
  calculateReplicaCountFromPercentage (int32 totalReplicaCount) percent <= 0
  ∧ (int32 totalReplicaCount = 0 →
     calculateReplicaCountFromPercentage (int32 totalReplicaCount) percent = 0)
  ∧ ∀ err w',
      capacityTargetSyncHandler ReleaseReplicasAnnotation
        calculatePercentageFromAmount env key w ≠ Ok (Some err) w'.
Proof.
  intros Hv Ht Hp. split; [apply replica_count_notPositive; lia|].
  split; [intros ->; by apply replica_count_total_0|].
  intros err w' Hrun.
  destruct (validated_sync_outcome ReleaseReplicasAnnotation
              calculatePercentageFromAmount env key ct totalReplicaCount w Hv)
    as [(w1 & Hpanic & _)|(w1 & w2 & _ & Hok & _)]; congruence.
Qed.

Lemma C8_witness :
  let ct := Scenario.target [Scenario.owner] [Scenario.cluster "a" 50] [] in
  let env := Scenario.world ct (Scenario.release "uid-1" "-4") (λ _, None)
               (λ _, inr [Scenario.deployment (Some 5) 5]) (λ _, inr (5, 0, [])) in
  calculateReplicaCountFromPercentage (int32 (-4)) 50 <= 0
  ∧ (int32 (-4) = 0 → calculateReplicaCountFromPercentage (int32 (-4)) 50 = 0)
  ∧ ∀ err w',
      capacityTargetSyncHandler Scenario.annotation Scenario.percentage env
        "ns/ct" initialWorld ≠ Ok (Some err) w'.
Proof.
  intros ct env.
  apply (C8_nonpositive_total_is_computed Scenario.annotation Scenario.percentage env
           "ns/ct" ct (-4) 50 initialWorld).
  - exists "ns"%string, "ct"%string, (Scenario.release "uid-1" "-4").
    repeat split; reflexivity.
  - vm_compute. discriminate.
  - lia.
Defined.

(** C8 (as stated) fails for a total of 0: the annotation "0" is read,
    the replica count computed for 50 percent is 0, the deployment of the
    cluster is patched to 0 replicas, and the sync returns nil. *)
Lemma C8_counterexample :
  let ct := Scenario.target [Scenario.owner] [Scenario.cluster "a" 50] [] in
  let env := Scenario.world ct (Scenario.release "uid-1" "0") (λ _, None)
               (λ _, inr [Scenario.deployment (Some 5) 5]) (λ _, inr (5, 0, [])) in
  validated Scenario.annotation env "ns/ct" ct 0
  ∧ calculateReplicaCountFromPercentage (int32 0) 50 = 0
  ∧ ∃ w', Scenario.sync env = Ok None w'
          ∧ ActPatch "a" "ns" "web" 0 ∈ trace w'.
Proof.
  intros ct env. split; [|split].
  - exists "ns"%string, "ct"%string, (Scenario.release "uid-1" "0").
    repeat split; reflexivity.
  - by vm_compute.
  - eexists. split; [vm_compute; reflexivity|].
    repeat first [apply list_elem_of_here | apply list_elem_of_further].
Qed.

(** * Further properties of the code *)

(** ** The replica count against the exact ceiling *)

Lemma digits2_pos_bounds m :
  2 ^ (Z.pos (digits2_pos m) - 1) <= Z.pos m < 2 ^ Z.pos (digits2_pos m).
Proof.
  induction m as [m IH|m IH|]; cbn [digits2_pos]; [| |done].
  - rewrite Pos2Z.inj_succ, Pos2Z.inj_xI.
    replace (Z.succ (Z.pos (digits2_pos m)) - 1) with (Z.succ (Z.pos (digits2_pos m) - 1))
      by lia.
    rewrite !Z.pow_succ_r by lia. lia.
  - rewrite Pos2Z.inj_succ. change (Z.pos m~0) with (2 * Z.pos m).
    replace (Z.succ (Z.pos (digits2_pos m)) - 1) with (Z.succ (Z.pos (digits2_pos m) - 1))
      by lia.
    rewrite !Z.pow_succ_r by lia. lia.
Qed.

Lemma digits2_pos_unique m d :
  2 ^ (d - 1) <= Z.pos m < 2 ^ d → Z.pos (digits2_pos m) = d.
Proof.
  intros [Hlo Hhi]. pose proof (digits2_pos_bounds m) as [Hlo' Hhi'].
  destruct (Z.lt_trichotomy (Z.pos (digits2_pos m)) d) as [Hlt|[Heq|Hgt]]; [|done|].
  - assert (2 ^ Z.pos (digits2_pos m) <= 2 ^ (d - 1)) by (apply Z.pow_le_mono_r; lia).
    lia.
  - assert (0 <= d) as Hd.
    { destruct (Z.le_gt_cases 0 d); [done|]. rewrite (Z.pow_neg_r 2 d) in Hhi by lia. lia. }
    assert (2 ^ d <= 2 ^ (Z.pos (digits2_pos m) - 1)) by (apply Z.pow_le_mono_r; lia).
    lia.
Qed.

Lemma iter_pos_invariant {A} (f : A → A) (P : Z → A → Prop) :
  (∀ j x, 0 <= j → P j x → P (j + 1) (f x)) →
  ∀ p j x, 0 <= j → P j x → P (j + Z.pos p) (SpecFloat.iter_pos f p x).
Proof.
  intros Hstep. induction p as [p IH|p IH|]; intros j x Hj HP; cbn [SpecFloat.iter_pos].
  - replace (j + Z.pos p~1) with (j + 1 + Z.pos p + Z.pos p) by lia.
    apply IH; [lia|]. apply IH; [lia|]. by apply Hstep.
  - replace (j + Z.pos p~0) with (j + Z.pos p + Z.pos p) by lia.
    apply IH; [lia|]. by apply IH.
  - by apply Hstep.
Qed.

Lemma shr_1_exact M j mrs : 0 <= j → shr_exact M j mrs → shr_exact M (j + 1) (shr_1 mrs).
Proof.
  intros Hj (rem & HM & Hrem & Hm & Hloc). unfold shr_exact.
  rewrite Z.pow_add_r, Z.pow_1_r by lia.
  destruct mrs as [m r s]. cbn [shr_m shr_r shr_s] in *.
  assert (0 < 2 ^ j) as Hpow by (apply Z.pow_pos_nonneg; lia).
  destruct m as [|[p|p|]|p]; [| | | |lia]; cbn [shr_1 shr_m shr_r shr_s orb].
  - exists rem. destruct r, s; cbn; lia.
  - exists (rem + 2 ^ j). rewrite Pos2Z.inj_xI in HM. destruct r, s; cbn; lia.
  - exists rem. change (Z.pos p~0) with (2 * Z.pos p) in HM. destruct r, s; cbn; lia.
  - exists (rem + 2 ^ j). destruct r, s; cbn; lia.
Qed.

Lemma shr_exact_shift M e n :
  0 <= n → 0 <= M →
  ∃ mrs, shr (shr_record_of_loc M loc_Exact) e n = (mrs, e + n) ∧ shr_exact M n mrs.
Proof.
  intros Hn HM.
  assert (shr_exact M 0 (shr_record_of_loc M loc_Exact)) as H0.
  { exists 0. cbn. lia. }
  destruct n as [|p|p]; [| |lia]; cbn [shr].
  - eexists. split; [by rewrite Z.add_0_r|done].
  - eexists. split; [done|].
    apply (iter_pos_invariant shr_1 (shr_exact M) (λ j x, shr_1_exact M j x) p 0); [lia|done].
Qed.

Lemma pow2_52 : 2 ^ 52 = 4503599627370496.
Proof. reflexivity. Qed.

Lemma pow2_53 : 2 ^ 53 = 9007199254740992.
Proof. reflexivity. Qed.

(** Rounding a positive integer of [D >= 53] bits to 53 bits, in the
    range of the normal numbers: the result is within half a unit of the
    bit that is kept last, and is the integer itself when the bits that
    are dropped are zero. *)
Lemma binary_round_aux_spec s M e D :
  2 ^ (D - 1) <= Z.pos M < 2 ^ D →
  53 <= D →
  - 1074 <= D + e - 53 →
  D + e <= 1023 →
  ∃ m k,
    binary_round_aux Float64.prec Float64.emax s (Z.pos M) e loc_Exact
    = S754_finite s m (e + k)
    ∧ D - 53 <= k <= D - 52
    ∧ 2 ^ 52 <= Z.pos m < 2 ^ 53
    ∧ 2 * Z.abs (Z.pos m * 2 ^ k - Z.pos M) <= 2 ^ (D - 53)
    ∧ (Z.pos M `mod` 2 ^ (D - 53) = 0 → k = D - 53 ∧ Z.pos m * 2 ^ k = Z.pos M).
Proof.
  intros HM HD Hlo Hhi.
  unfold binary_round_aux, shr_fexp, Float64.prec, Float64.emax.
  cbn [Zdigits2]. rewrite (digits2_pos_unique M D HM).
  assert (fexp 53 1024 (D + e) - e = D - 53) as -> by (unfold fexp, emin; lia).
  destruct (shr_exact_shift (Z.pos M) e (D - 53))
    as (mrs & -> & rem & HMeq & Hrem & Hm & Hloc); [lia|lia|].
  set (n := D - 53) in *. set (m1 := shr_m mrs) in *.
  assert (0 < 2 ^ n) as Hpow by (apply Z.pow_pos_nonneg; lia).
  assert (2 ^ (D - 1) = 2 ^ 52 * 2 ^ n) as HD1.
  { rewrite <-Z.pow_add_r by lia. f_equal. lia. }
  assert (2 ^ D = 2 ^ 53 * 2 ^ n) as HD2.
  { rewrite <-Z.pow_add_r by lia. f_equal. lia. }
  rewrite HD1, HD2 in HM. rewrite pow2_52, pow2_53 in *.
  assert (4503599627370496 <= m1 < 9007199254740992) as Hm1 by nia.
  assert (rem = Z.pos M `mod` 2 ^ n) as Hmod.
  { apply (Z.mod_unique_pos _ _ m1); lia. }
  set (m2 := round_nearest_even m1 (loc_of_shr_record mrs)).
  assert ((m2 = m1 ∨ m2 = m1 + 1)
          ∧ 2 * Z.abs (m2 * 2 ^ n - Z.pos M) <= 2 ^ n
          ∧ (rem = 0 → m2 = m1)) as (Hm2 & Herr & Hexact).
  { subst m2 m1. destruct mrs as [m r s']. cbn [shr_m shr_r shr_s] in *.
    destruct r, s'; cbn [loc_of_shr_record round_nearest_even];
      try destruct (Z.even m); split; try split; try lia; auto. }
  clearbody m2.
  destruct (decide (m2 = 9007199254740992)) as [->|Hne].
  - exists 4503599627370496%positive, (n + 1).
    split; [|split; [lia|split; [lia|split]]].
    + cbn [Zdigits2]. change (Z.pos (digits2_pos 9007199254740992)) with 54.
      assert (fexp 53 1024 (54 + (e + n)) - (e + n) = 1) as ->
        by (unfold fexp, emin; lia).
      cbn. rewrite Z.add_assoc.
      destruct (e + n + 1 <=? 1024 - 53) eqn:Hle; [done|]. apply Z.leb_gt in Hle. lia.
    + rewrite Z.pow_add_r, Z.pow_1_r by lia. lia.
    + intros Hz. lia.
  - destruct m2 as [|m2|m2]; [lia| |lia]. exists m2, n.
    split; [|split; [lia|split; [lia|split; [done|]]]].
    + cbn [Zdigits2]. rewrite (digits2_pos_unique m2 53) by (rewrite pow2_53; cbn; lia).
      assert (fexp 53 1024 (53 + (e + n)) - (e + n) = 0) as ->
        by (unfold fexp, emin; lia).
      cbn. destruct (e + n <=? 1024 - 53) eqn:Hle; [done|]. apply Z.leb_gt in Hle. lia.
    + intros Hz. split; [done|]. lia.
Qed.

(** [float64(n)] is exact for an integer below 2^53. *)
Lemma of_int_spec n :
  0 < n < 2 ^ 53 →
  ∃ m t,
    Float64.of_int n = S754_finite false m (- t)
    ∧ 0 <= t <= 52
    ∧ Z.pos m = n * 2 ^ t
    ∧ 2 ^ 52 <= Z.pos m < 2 ^ 53.
Proof.
  intros Hn. destruct n as [|np|np]; [lia| |lia].
  unfold Float64.of_int, binary_normalize, binary_round.
  pose proof (digits2_pos_bounds np) as Hd.
  set (d := Z.pos (digits2_pos np)) in *.
  assert (1 <= d <= 53) as Hd53.
  { split; [subst d; lia|]. destruct (Z.le_gt_cases d 53) as [|Hgt]; [done|].
    assert (2 ^ 53 <= 2 ^ (d - 1)) by (apply Z.pow_le_mono_r; lia). lia. }
  assert (fexp Float64.prec Float64.emax (d + 0) = d - 53) as ->
    by (unfold fexp, emin, Float64.prec, Float64.emax; lia).
  assert (2 ^ 52 = 2 ^ (d - 1) * 2 ^ (53 - d)) as H52.
  { rewrite <-Z.pow_add_r by lia. f_equal. lia. }
  assert (2 ^ 53 = 2 ^ d * 2 ^ (53 - d)) as H53.
  { rewrite <-Z.pow_add_r by lia. f_equal. lia. }
  assert (0 < 2 ^ (53 - d)) as Hpow by (apply Z.pow_pos_nonneg; lia).
  assert (∃ M, shl_align np 0 (d - 53) = (M, d - 53)
               ∧ Z.pos M = Z.pos np * 2 ^ (53 - d)) as (M & -> & HM).
  { unfold shl_align. destruct (d - 53 - 0) as [|q|q] eqn:Hq; [|lia|].
    - exists np. replace (d - 53) with 0 by lia. split; [done|].
      replace (53 - d) with 0 by lia. rewrite Z.pow_0_r. lia.
    - exists (shift_pos q np). split; [done|].
      rewrite shift_pos_correct. change (Z.pow_pos 2 q) with (2 ^ Z.pos q).
      replace (Z.pos q) with (53 - d) by lia. lia. }
  destruct (binary_round_aux_spec false M (d - 53) 53)
    as (m & k & -> & Hk & Hm & _ & Hexact); [|lia|lia|lia|].
  { change (53 - 1) with 52. rewrite HM, H52, H53. nia. }
  destruct Hexact as [-> Hmk].
  { change (53 - 53) with 0. rewrite Z.pow_0_r. apply Z.mod_1_r. }
  change (53 - 53) with 0 in Hmk. rewrite Z.pow_0_r, Z.mul_1_r in Hmk.
  exists m, (53 - d). split; [f_equal; lia|]. split; [lia|]. split; [congruence|done].
Qed.

Lemma of_int_0 : Float64.of_int 0 = S754_zero false.
Proof. reflexivity. Qed.

(** [int32(float64(n)) = n] for an [int32] that is not negative. *)
Lemma to_int32_of_int n :
  0 <= n <= Float64.int32_max → Float64.to_int32 (Float64.of_int n) = n.
Proof.
  unfold Float64.int32_max. intros Hn.
  destruct (decide (n = 0)) as [->|Hne]; [done|].
  destruct (of_int_spec n) as (m & t & -> & Ht & Hm & _); [lia|].
  unfold Float64.to_int32. cbn [cond_Zopp].
  rewrite Z.shiftl_div_pow2 by lia. rewrite Z.opp_involutive, Hm.
  rewrite Z.div_mul by (apply Z.pow_nonzero; lia).
  unfold Float64.int32_min, Float64.int32_max.
  destruct (_ <=? _) eqn:H1; [|apply Z.leb_gt in H1; lia].
  destruct (n <=? _) eqn:H2; [done|apply Z.leb_gt in H2; lia].
Qed.

(** [math.Ceil] of a positive float with a fraction. *)
Lemma Ceil_spec m N :
  0 < N →
  Float64.Ceil (S754_finite false m (- N))
  = Float64.of_int (- ((- Z.pos m) `div` 2 ^ N)).
Proof.
  intros HN. unfold Float64.Ceil.
  destruct (0 <=? - N) eqn:Hle; [apply Z.leb_le in Hle; lia|].
  cbn [cond_Zopp]. rewrite Z.shiftl_div_pow2 by lia. by rewrite Z.opp_involutive.
Qed.

Lemma div_100_spec p :
  1 <= p <= 100 →
  ∃ A a,
    Float64.div (Float64.of_int p) (Float64.of_int 100) = S754_finite false A (- a)
    ∧ 52 <= a <= 59
    ∧ 2 ^ 52 <= Z.pos A < 2 ^ 53
    ∧ Z.abs (100 * Z.pos A - p * 2 ^ a) <= 50
    ∧ (p `mod` 25 = 0 → 100 * Z.pos A = p * 2 ^ a ∧ Z.pos A `mod` 2 ^ 31 = 0).
Proof.
  intros Hp.
  assert (Forall (λ p, div_100_ok p = true) (seqZ 1 100)) as Hall by compute_done.
  rewrite Forall_forall in Hall.
  assert (div_100_ok p = true) as Hok by (apply Hall, elem_of_seqZ; lia).
  clear Hall. rename Hok into Hall. unfold div_100_ok in Hall.
  destruct (Float64.div _ _) as [| | |[] A e]; try discriminate Hall.
  exists A, (- e). rewrite Z.opp_involutive.
  apply andb_prop in Hall as [Hall Hexact].
  apply andb_prop in Hall as [Hall Herr].
  apply andb_prop in Hall as [Hall Hhi].
  apply andb_prop in Hall as [Hall Hlo].
  apply andb_prop in Hall as [Ha1 Ha2].
  apply Z.leb_le in Ha1, Ha2, Hlo, Herr. apply Z.ltb_lt in Hhi.
  split; [done|]. split; [done|]. split; [done|]. split; [done|].
  intros Hmod. apply orb_prop in Hexact as [Hpos|Hexact].
  { apply Z.ltb_lt in Hpos. lia. }
  apply andb_prop in Hexact as [H1 H2]. apply Z.eqb_eq in H1, H2. done.
Qed.

(** The float [percentage / 100 * total] of the code is within 1/100 of
    the rational it stands for, and is that rational when [percentage]
    is a multiple of 25. *)
Lemma product_spec total p :
  0 < total < 2 ^ 31 → 1 <= p <= 100 →
  ∃ m N,
    Float64.mul (Float64.div (Float64.of_int p) (Float64.of_int 100))
      (Float64.of_int total)
    = S754_finite false m (- N)
    ∧ 0 < N
    ∧ Z.abs (100 * Z.pos m - p * total * 2 ^ N) < 2 ^ N
    ∧ (p `mod` 25 = 0 → 100 * Z.pos m = p * total * 2 ^ N).
Proof.
  intros Htotal Hp.
  destruct (div_100_spec p Hp) as (A & a & -> & Ha & HA & Herr & Hexact).
  destruct (of_int_spec total) as (T & t & -> & Ht & HT & HT53); [lia|].
  assert (22 <= t) as Ht22.
  { destruct (Z.le_gt_cases 22 t) as [|Hlt]; [done|].
    assert (2 ^ t <= 2 ^ 21) by (apply Z.pow_le_mono_r; lia).
    change (2 ^ 52) with (2 ^ 31 * 2 ^ 21) in HT53.
    assert (0 < 2 ^ t) by (apply Z.pow_pos_nonneg; lia). nia. }
  unfold Float64.mul, SFmul. cbn [xorb].
  pose proof (digits2_pos_bounds (A * T)) as HD.
  set (D := Z.pos (digits2_pos (A * T))) in *.
  rewrite Pos2Z.inj_mul in HD.
  assert (2 ^ 104 <= Z.pos A * Z.pos T < 2 ^ 106) as HM.
  { change (2 ^ 104) with (2 ^ 52 * 2 ^ 52). change (2 ^ 106) with (2 ^ 53 * 2 ^ 53).
    nia. }
  assert (105 <= D <= 106) as HD'.
  { split.
    - destruct (Z.le_gt_cases 105 D) as [|Hlt]; [done|].
      assert (2 ^ D <= 2 ^ 104) by (apply Z.pow_le_mono_r; lia). lia.
    - destruct (Z.le_gt_cases D 106) as [|Hgt]; [done|].
      assert (2 ^ 106 <= 2 ^ (D - 1)) by (apply Z.pow_le_mono_r; lia). lia. }
  destruct (binary_round_aux_spec false (A * T) (- a + - t) D)
    as (m & k & -> & Hk & Hm & Hround & Hrexact); [by rewrite Pos2Z.inj_mul|lia..|].
  rewrite Pos2Z.inj_mul in Hround, Hrexact.
  exists m, (a + t - k). split; [f_equal; lia|]. split; [lia|].
  set (N := a + t - k) in *.
  assert (0 < 2 ^ k) as HK by (apply Z.pow_pos_nonneg; lia).
  assert (0 < 2 ^ N) as HN by (apply Z.pow_pos_nonneg; lia).
  assert (2 ^ a * 2 ^ t = 2 ^ N * 2 ^ k) as HQ.
  { rewrite <-!Z.pow_add_r by lia. f_equal. lia. }
  assert (2 ^ (D - 53) <= 2 ^ k) as HDk by (apply Z.pow_le_mono_r; lia).
  assert (2 ^ k <= 2 ^ 54) as Hk54 by (apply Z.pow_le_mono_r; lia).
  assert (2 ^ 74 <= 2 ^ N * 2 ^ k) as HQ74.
  { rewrite <-HQ, <-Z.pow_add_r by lia. apply Z.pow_le_mono_r; lia. }
  assert (Z.pos A * Z.pos T * 100 - p * total * (2 ^ N * 2 ^ k)
          = (100 * Z.pos A - p * 2 ^ a) * Z.pos T) as Hdiv.
  { rewrite <-HQ, HT. ring. }
  split.
  - assert (Z.abs (100 * Z.pos m - p * total * 2 ^ N) * 2 ^ k < 2 ^ N * 2 ^ k);
      [|nia].
    assert (Z.abs ((100 * Z.pos A - p * 2 ^ a) * Z.pos T) <= 50 * Z.pos T) as Hdiv'.
    { rewrite Z.abs_mul, (Z.abs_eq (Z.pos T)) by lia.
      apply Z.mul_le_mono_nonneg_r; lia. }
    rewrite <-Hdiv in Hdiv'.
    rewrite <-(Z.abs_eq (2 ^ k)) at 1 by lia. rewrite <-Z.abs_mul.
    replace ((100 * Z.pos m - p * total * 2 ^ N) * 2 ^ k)
      with (100 * (Z.pos m * 2 ^ k - Z.pos A * Z.pos T)
            + (Z.pos A * Z.pos T * 100 - p * total * (2 ^ N * 2 ^ k))) by ring.
    change (2 ^ 74) with 18889465931478580854784 in HQ74.
    change (2 ^ 54) with 18014398509481984 in Hk54.
    change (2 ^ 53) with 9007199254740992 in HT53.
    lia.
  - intros Hmod. destruct (Hexact Hmod) as [HAexact HA31].
    destruct Hrexact as [-> Hmk].
    { apply Z.mod_divide; [apply Z.pow_nonzero; lia|].
      apply Z.mod_divide in HA31 as [A' HA']; [|done].
      rewrite HA', HT. exists (A' * total * 2 ^ (31 + t - (D - 53))).
      replace (A' * 2 ^ 31 * (total * 2 ^ t)) with (A' * total * (2 ^ 31 * 2 ^ t)) by ring.
      rewrite <-(Z.mul_assoc (A' * total)). f_equal.
      rewrite <-!Z.pow_add_r by lia. f_equal. lia. }
    rewrite HAexact, Z.sub_diag, Z.mul_0_l in Hdiv.
    apply (Z.mul_cancel_r _ _ (2 ^ (D - 53))); lia.
Qed.

Lemma replica_count_percent_0 total :
  0 < total < 2 ^ 31 → calculateReplicaCountFromPercentage total 0 = 0.
Proof.
  intros Htotal. unfold calculateReplicaCountFromPercentage.
  destruct (of_int_spec total) as (T & t & -> & _); [lia|]. reflexivity.
Qed.

(** The replica count is the ceiling of [percentage / 100 * total], or
    one more; one more only when [percentage / 100 * total] is an integer
    and [percentage / 100] is not a float. *)
Lemma replica_count_cases total p :
  0 <= total < 2 ^ 31 → 0 <= p <= 100 →
  calculateReplicaCountFromPercentage total p = exact_ceil total p
  ∨ (calculateReplicaCountFromPercentage total p = exact_ceil total p + 1
     ∧ p * total = 100 * exact_ceil total p
     ∧ 0 < total ∧ p `mod` 25 ≠ 0).
Proof.
  intros Htotal Hp.
  destruct (decide (total = 0)) as [->|Htotal0].
  { left. rewrite replica_count_total_0 by done. unfold exact_ceil.
    by rewrite Z.mul_0_r. }
  destruct (decide (p = 0)) as [->|Hp0].
  { left. rewrite replica_count_percent_0 by lia. done. }
  destruct (product_spec total p) as (m & N & Hmul & HN & Herr & Hexact); [lia..|].
  unfold calculateReplicaCountFromPercentage. rewrite Hmul, Ceil_spec by done.
  assert (0 < 2 ^ N) as HPN by (apply Z.pow_pos_nonneg; lia).
  pose proof (Z.mul_div_le (- Z.pos m) (2 ^ N) HPN) as Hq1.
  pose proof (Z.mul_succ_div_gt (- Z.pos m) (2 ^ N) HPN) as Hq2.
  set (C := - ((- Z.pos m) `div` 2 ^ N)) in *.
  replace ((- Z.pos m) `div` 2 ^ N) with (- C) in Hq1, Hq2 by (subst C; lia).
  unfold exact_ceil.
  assert (0 <= p * total <= 100 * total) as HPT by nia.
  assert (p <= 99 → p * total <= 99 * total) as HPT99 by nia.
  set (PT := p * total) in *. set (PN := 2 ^ N) in *.
  set (E := - ((- PT) `div` 100)).
  assert (100 * (E - 1) < PT <= 100 * E) as HE.
  { pose proof (Z.div_mod (- PT) 100 ltac:(done)).
    pose proof (Z.mod_pos_bound (- PT) 100 ltac:(done)). subst E. lia. }
  clearbody C E PT PN.
  assert (E <= C) as HEC.
  { destruct (Z.le_gt_cases E C) as [|Hlt]; [done|].
    assert (C * PN <= (E - 1) * PN) by (apply Z.mul_le_mono_nonneg_r; lia).
    assert ((100 * (E - 1)) * PN <= (PT - 1) * PN)
      by (apply Z.mul_le_mono_nonneg_r; lia).
    lia. }
  assert (C <= E + 1) as HCE.
  { destruct (Z.le_gt_cases C (E + 1)) as [|Hgt]; [done|].
    assert ((E + 1) * PN <= (C - 1) * PN) by (apply Z.mul_le_mono_nonneg_r; lia).
    assert (PT * PN <= (100 * E) * PN) by (apply Z.mul_le_mono_nonneg_r; lia).
    lia. }
  assert (C = E + 1 → PT = 100 * E ∧ p `mod` 25 ≠ 0) as Hover.
  { intros ->. split.
    - destruct (Z.le_gt_cases (100 * E) PT) as [|Hlt]; [lia|].
      assert ((PT + 1) * PN <= (100 * E) * PN) by (apply Z.mul_le_mono_nonneg_r; lia).
      lia.
    - intros Hmod. specialize (Hexact Hmod).
      assert (PT * PN <= (100 * E) * PN) by (apply Z.mul_le_mono_nonneg_r; lia).
      lia. }
  assert (0 <= C <= Float64.int32_max) as HC.
  { unfold Float64.int32_max. split; [lia|].
    destruct (decide (C = E + 1)) as [HCeq|]; [|lia].
    destruct (Hover HCeq) as [HPTE Hmod].
    assert (p ≠ 100) by (intros ->; by apply Hmod).
    lia. }
  rewrite to_int32_of_int by done.
  destruct (decide (C = E)) as [->|]; [by left|].
  right. assert (C = E + 1) as HCeq by lia. destruct (Hover HCeq).
  split; [done|]. split; [done|]. split; [lia|done].
Qed.

(** X1.  For a total that is an [int32] and not negative and a percentage
    in [0,100], [calculateReplicaCountFromPercentage] never returns less
    than the ceiling of percentage / 100 * total, and never more than one
    above it. *)
Theorem replica_count_within_one (total percentage : Z) :
  0 <= total < 2 ^ 31 → 0 <= percentage <= 100 →
  exact_ceil total percentage
  <= calculateReplicaCountFromPercentage total percentage
  <= exact_ceil total percentage + 1.
Proof.
  intros Htotal Hp.
  destruct (replica_count_cases total percentage Htotal Hp) as [->|[-> _]]; lia.
Qed.

Lemma replica_count_within_one_witness :
  exact_ceil 100 7 <= calculateReplicaCountFromPercentage 100 7 <= exact_ceil 100 7 + 1.
Proof. apply (replica_count_within_one 100 7); lia. Defined.

(** X2.  For such a total and percentage, when percentage * total is not a
    multiple of 100, that is when percentage / 100 * total is not an
    integer, [calculateReplicaCountFromPercentage] returns exactly its
    ceiling. *)
Theorem replica_count_exact_off_integers (total percentage : Z) :
  0 <= total < 2 ^ 31 → 0 <= percentage <= 100 →
  (percentage * total) `mod` 100 ≠ 0 →
  calculateReplicaCountFromPercentage total percentage = exact_ceil total percentage.
Proof.
  intros Htotal Hp Hmod.
  destruct (replica_count_cases total percentage Htotal Hp) as [->|(_ & Heq & _)];
    [done|].
  exfalso. apply Hmod. rewrite Heq, Z.mul_comm. apply Z.mod_mul. done.
Qed.

Lemma replica_count_exact_off_integers_witness :
  calculateReplicaCountFromPercentage 10 33 = exact_ceil 10 33.
Proof. apply (replica_count_exact_off_integers 10 33); [lia|lia|done]. Defined.

(** X3.  For a percentage of 0, 25, 50, 75 or 100, which divided by 100 is
    a [float64], [calculateReplicaCountFromPercentage] returns exactly the
    ceiling of percentage / 100 * total: in particular the whole total at
    100 percent, up to the largest [int32], and 0 at 0 percent. *)
Theorem replica_count_exact_quarters (total percentage : Z) :
  0 <= total < 2 ^ 31 → 0 <= percentage <= 100 →
  percentage `mod` 25 = 0 →
  calculateReplicaCountFromPercentage total percentage = exact_ceil total percentage
  ∧ (percentage = 100 → calculateReplicaCountFromPercentage total percentage = total)
  ∧ (percentage = 0 → calculateReplicaCountFromPercentage total percentage = 0).
Proof.
  intros Htotal Hp Hmod.
  assert (calculateReplicaCountFromPercentage total percentage
          = exact_ceil total percentage) as ->.
  { by destruct (replica_count_cases total percentage Htotal Hp) as [->|(_ & _ & _ & ?)]. }
  split; [done|]. unfold exact_ceil. split; intros ->.
  - rewrite <-Z.mul_opp_r, Z.mul_comm, Z.div_mul by done. lia.
  - done.
Qed.

Lemma replica_count_exact_quarters_witness :
  calculateReplicaCountFromPercentage 2147483647 100 = exact_ceil 2147483647 100
  ∧ (100 = 100 → calculateReplicaCountFromPercentage 2147483647 100 = 2147483647)
  ∧ (100 = 0 → calculateReplicaCountFromPercentage 2147483647 100 = 0).
Proof. apply (replica_count_exact_quarters 2147483647 100); [lia|lia|done]. Defined.

(** The replica count lies between 0 and the total. *)
Lemma replica_count_le_total total percentage :
  0 <= total < 2 ^ 31 → 0 <= percentage <= 100 →
  0 <= calculateReplicaCountFromPercentage total percentage <= total.
Proof.
  intros Htotal Hp.
  assert (0 <= percentage * total <= 100 * total) as HPT by nia.
  pose proof (Z.div_mod (- (percentage * total)) 100 ltac:(done)) as Hdiv.
  pose proof (Z.mod_pos_bound (- (percentage * total)) 100 ltac:(done)) as Hmod.
  destruct (replica_count_cases total percentage Htotal Hp)
    as [->|(-> & Heq & Hpos' & Hp25)]; unfold exact_ceil in *.
  - lia.
  - assert (percentage ≠ 100) by (intros ->; by apply Hp25).
    assert (percentage * total <= 99 * total) by nia. lia.
Qed.

(** X4.  For such a total and percentage the replica count lies between 0
    and the total, and is at least 1 when the total and the percentage are
    positive: a cluster with a share is never scaled to nothing, and never
    beyond the total of its release. *)
Theorem replica_count_in_range (total percentage : Z) :
  0 <= total < 2 ^ 31 → 0 <= percentage <= 100 →
  0 <= calculateReplicaCountFromPercentage total percentage <= total
  ∧ (0 < total → 0 < percentage →
     1 <= calculateReplicaCountFromPercentage total percentage).
Proof.
  intros Htotal Hp. split; [by apply replica_count_le_total|].
  intros Htotal0 Hp0.
  assert (0 < percentage * total) as Hpos by nia.
  pose proof (Z.div_mod (- (percentage * total)) 100 ltac:(done)) as Hdiv.
  pose proof (Z.mod_pos_bound (- (percentage * total)) 100 ltac:(done)) as Hmod.
  destruct (replica_count_cases total percentage Htotal Hp) as [->|[-> _]];
    unfold exact_ceil; lia.
Qed.

Lemma replica_count_in_range_witness :
  0 <= calculateReplicaCountFromPercentage 100 7 <= 100
  ∧ (0 < 100 → 0 < 7 → 1 <= calculateReplicaCountFromPercentage 100 7).
Proof. apply (replica_count_in_range 100 7); lia. Defined.

(** X5.  [calculateReplicaCountFromPercentage] is monotone: a total and a
    percentage that are not smaller never give a smaller replica count. *)
Theorem replica_count_monotone (total1 total2 percentage1 percentage2 : Z) :
  0 <= total1 <= total2 → total2 < 2 ^ 31 →
  0 <= percentage1 <= percentage2 → percentage2 <= 100 →
  calculateReplicaCountFromPercentage total1 percentage1
  <= calculateReplicaCountFromPercentage total2 percentage2.
Proof.
  intros Htotal Htotal2 Hp Hp2.
  destruct (decide (total1 = total2 ∧ percentage1 = percentage2)) as [[-> ->]|Hne];
    [done|].
  assert (percentage1 * total1 <= percentage2 * total2) as Hle by nia.
  assert (0 < total1 → 0 < percentage1 →
          percentage1 * total1 < percentage2 * total2) as Hlt by nia.
  pose proof (Z.div_mod (- (percentage1 * total1)) 100 ltac:(done)) as Hdiv1.
  pose proof (Z.mod_pos_bound (- (percentage1 * total1)) 100 ltac:(done)) as Hmod1.
  pose proof (Z.div_mod (- (percentage2 * total2)) 100 ltac:(done)) as Hdiv2.
  pose proof (Z.mod_pos_bound (- (percentage2 * total2)) 100 ltac:(done)) as Hmod2.
  assert (exact_ceil total2 percentage2
          <= calculateReplicaCountFromPercentage total2 percentage2) as Hlow.
  { destruct (replica_count_cases total2 percentage2) as [->|[-> _]]; lia. }
  destruct (replica_count_cases total1 percentage1)
    as [->|(-> & Heq & Hpos & Hp25)]; [lia|lia| |]; unfold exact_ceil in *.
  - lia.
  - assert (0 < percentage1).
    { destruct (decide (percentage1 = 0)) as [->|]; [by exfalso; apply Hp25|lia]. }
    lia.
Qed.

Lemma replica_count_monotone_witness :
  calculateReplicaCountFromPercentage 100 7 <= calculateReplicaCountFromPercentage 100 8.
Proof. apply (replica_count_monotone 100 100 7 8); lia. Defined.

(** ** The sync handler *)

Lemma reconcileCluster_int32 calculatePercentageFromAmount env ct total1 total2
    clusterSpec p :
  int32 total1 = int32 total2 →
  reconcileCluster calculatePercentageFromAmount env ct total1 clusterSpec p
  = reconcileCluster calculatePercentageFromAmount env ct total2 clusterSpec p.
Proof. intros Heq. unfold reconcileCluster. by rewrite Heq. Qed.

Lemma forEach_ext {A} (l : list A) (f g : A → M unit) w :
  (∀ x w, f x w = g x w) → forEach l f w = forEach l g w.
Proof.
  intros Hfg. revert w. induction l as [|x l IH]; intros w; [done|].
  cbn [forEach]. rewrite !bind_run, Hfg. destruct (g x w); [apply IH|done].
Qed.

(** X6.  The loop uses the replica annotation only through
    [int32(totalReplicaCount)]: a validated sync whose annotation reads
    [total1] is the sync of any [total2] with the same low 32 bits, so a
    total beyond the [int32] range is wrapped without an error. *)
Theorem total_wraps_to_int32
    (ReleaseReplicasAnnotation : string)
    (calculatePercentageFromAmount : Z → Z → Z) (env : Env)
    (key : string) (ct : CapacityTarget) (total1 total2 : Z) (w : World) :
  validated ReleaseReplicasAnnotation env key ct total1 →
  int32 total1 = int32 total2 →
  capacityTargetSyncHandler ReleaseReplicasAnnotation calculatePercentageFromAmount
    env key w
  = match forEach (ct_Spec_Clusters ct)
            (syncCluster calculatePercentageFromAmount env ct total2)
            (afterCopy ct w) with
    | Ok _ w1 => persistStatus env ct w1
    | Panic w1 => Panic w1
    end.
Proof.
  intros Hv Heq. rewrite (handler_validated _ _ _ _ _ _ _ Hv).
  rewrite (forEach_ext _ _ (syncCluster calculatePercentageFromAmount env ct total2));
    [done|].
  intros c w0. unfold syncCluster. rewrite !bind_run.
  destruct (resolveClusterStatus c w0); [|done].
  by rewrite (reconcileCluster_int32 _ _ _ total1 total2).
Qed.

Lemma total_wraps_to_int32_witness :
  let ct := Scenario.target [Scenario.owner] [Scenario.cluster "a" 50] [] in
  let env := Scenario.world ct (Scenario.release "uid-1" "4294967306") (λ _, None)
               (λ _, inr [Scenario.deployment (Some 5) 5]) (λ _, inr (5, 0, [])) in
  capacityTargetSyncHandler Scenario.annotation Scenario.percentage env "ns/ct"
    initialWorld
  = match forEach (ct_Spec_Clusters ct) (syncCluster Scenario.percentage env ct 10)
            (afterCopy ct initialWorld) with
    | Ok _ w1 => persistStatus env ct w1
    | Panic w1 => Panic w1
    end.
Proof.
  intros ct env.
  apply (total_wraps_to_int32 Scenario.annotation Scenario.percentage env "ns/ct" ct
           4294967306 10 initialWorld).
  - exists "ns"%string, "ct"%string, (Scenario.release "uid-1" "4294967306").
    repeat split; reflexivity.
  - reflexivity.
Defined.

Lemma Atoi_empty : Atoi EmptyString = None.
Proof. reflexivity. Qed.

(** X7.  When the owning Release has no replica annotation, or one that
    [strconv.Atoi] does not parse, the sync returns the parse error and
    has done nothing: no cluster was asked, no patch issued, no update
    attempted, no event recorded. *)
Theorem unparsable_annotation_fails_first
    (ReleaseReplicasAnnotation : string)
    (calculatePercentageFromAmount : Z → Z → Z) (env : Env)
    (key namespace name : string) (ct : CapacityTarget) (release : Release)
    (w : World) :
  SplitMetaNamespaceKey key = Some (namespace, name) →
  capacityTargetsLister_Get env namespace name = inr ct →
  getReleaseForCapacityTarget env ct = inr release →
  (release_Annotations release !! ReleaseReplicasAnnotation = None
   ∨ ∃ annotation,
       release_Annotations release !! ReleaseReplicasAnnotation = Some annotation
       ∧ Atoi annotation = None) →
  ∃ annotation w',
    capacityTargetSyncHandler ReleaseReplicasAnnotation
      calculatePercentageFromAmount env key w
    = Ok (Some (ParseReplicasError annotation)) w'
    ∧ trace w' = trace w.
Proof.
  intros Hkey Hct Hrel Hann. rewrite handler_run, Hkey, Hct, Hrel. cbn zeta.
  destruct Hann as [->|(annotation & -> & Hatoi)]; cbn [default from_option id].
  - rewrite Atoi_empty. by eexists _, _.
  - rewrite Hatoi. by eexists _, _.
Qed.

Lemma unparsable_annotation_fails_first_witness :
  let ct := Scenario.target [Scenario.owner] [Scenario.cluster "a" 50] [] in
  let env := Scenario.world ct (Scenario.release "uid-1" "ten") (λ _, None)
               (λ _, inr [Scenario.deployment (Some 5) 5]) (λ _, inr (5, 0, [])) in
  ∃ annotation w',
    capacityTargetSyncHandler Scenario.annotation Scenario.percentage env "ns/ct"
      initialWorld
    = Ok (Some (ParseReplicasError annotation)) w'
    ∧ trace w' = trace initialWorld.
Proof.
  intros ct env.
  apply (unparsable_annotation_fails_first Scenario.annotation Scenario.percentage env
           "ns/ct" "ns" "ct" ct (Scenario.release "uid-1" "ten")).
  - reflexivity.
  - reflexivity.
  - reflexivity.
  - right. exists "ten"%string. split; reflexivity.
Defined.

Lemma verdict_not_crash env ct totalReplicaCount clusterSpec :
  (∀ targetDeployment,
     Deployments_List env (cct_Name clusterSpec) (ct_Namespace ct) (ct_Labels ct)
     = inr [targetDeployment] →
     dep_Spec_Replicas targetDeployment ≠ None) →
  verdict env ct totalReplicaCount clusterSpec ≠ VCrash.
Proof.
  intros Hset. unfold verdict.
  destruct (GetInformerFactory env _); [done|].
  destruct (Deployments_List env _ _ _) as [err|[|d [|d' l]]]; [done|done| |done].
  specialize (Hset d eq_refl).
  assert (inspectVerdict env d (cct_Name clusterSpec) ≠ VCrash) as Hinspect.
  { unfold inspectVerdict.
    destruct (getSadPodsForDeploymentOnCluster env d _) as [err|[[podCount ?] sadPods]];
      [done|].
    destruct (dep_Spec_Replicas d); [|done].
    destruct (negb _); [done|]. by destruct sadPods. }
  destruct (match dep_Spec_Replicas d with None => true | Some _ => _ end); [|done].
  destruct (GetClient env _); [done|]. by destruct (Deployments_Patch env _ _ _ _).
Qed.

Lemma forEach_returns calculatePercentageFromAmount env ct totalReplicaCount spec w :
  (∀ c, c ∈ spec → verdict env ct totalReplicaCount c ≠ VCrash) →
  ∃ w', forEach spec (syncCluster calculatePercentageFromAmount env ct totalReplicaCount)
          w = Ok () w'.
Proof.
  revert w. induction spec as [|c spec IH]; intros w Hv; [by eexists|].
  destruct (syncCluster_returns calculatePercentageFromAmount env ct totalReplicaCount
              c w) as [w1 Hrun]; [apply Hv, list_elem_of_here|].
  destruct (IH w1) as [w' Hloop].
  { intros c' Hc'. by apply Hv, list_elem_of_further. }
  exists w'. cbn [forEach]. by rewrite bind_run, Hrun.
Qed.

(** X8.  A validated sync in which every cluster that lists exactly one
    deployment lists one with [Spec.Replicas] set does not panic: the loop
    returns, the sync attempts exactly one update and returns nil, and its
    last action is the Normal event with the status. *)
Theorem sync_completes_when_replicas_set
    (ReleaseReplicasAnnotation : string)
    (calculatePercentageFromAmount : Z → Z → Z) (env : Env)
    (key : string) (ct : CapacityTarget) (totalReplicaCount : Z) (w : World) :
  validated ReleaseReplicasAnnotation env key ct totalReplicaCount →
  (∀ clusterSpec targetDeployment,
     clusterSpec ∈ ct_Spec_Clusters ct →
     Deployments_List env (cct_Name clusterSpec) (ct_Namespace ct) (ct_Labels ct)
     = inr [targetDeployment] →
     dep_Spec_Replicas targetDeployment ≠ None) →
  ∃ w1 w',
    forEach (ct_Spec_Clusters ct)
      (syncCluster calculatePercentageFromAmount env ct totalReplicaCount)
      (afterCopy ct w) = Ok () w1
    ∧ capacityTargetSyncHandler ReleaseReplicasAnnotation
        calculatePercentageFromAmount env key w = Ok None w'
    ∧ updatesOf (trace w') = updatesOf (trace w) ++ [persistedTarget ct w1]
    ∧ last (trace w') = Some (finalEvent ct w1).
Proof.
  intros Hv Hset.
  destruct (forEach_returns calculatePercentageFromAmount env ct totalReplicaCount
              (ct_Spec_Clusters ct) (afterCopy ct w)) as [w1 Hloop].
  { intros c Hc. apply verdict_not_crash. intros d. by apply Hset. }
  destruct (validated_sync_outcome ReleaseReplicasAnnotation
              calculatePercentageFromAmount env key ct totalReplicaCount w Hv)
    as [(w' & Hpanic & _)|(w1' & w' & Hloop' & Hrun & Hu & _ & Hlast)].
  { rewrite (handler_validated _ _ _ _ _ _ _ Hv), Hloop in Hpanic.
    by rewrite persistStatus_run in Hpanic. }
  rewrite Hloop in Hloop'. injection Hloop' as <-. by exists w1, w'.
Qed.

Lemma sync_completes_when_replicas_set_witness :
  let ct := Scenario.target [Scenario.owner]
              [Scenario.cluster "a" 50; Scenario.cluster "b" 50] [] in
  let env := Scenario.world ct (Scenario.release "uid-1" "10")
               (λ clusterName,
                  if decide (clusterName = "b"%string)
                  then Some (ApiError false "cluster b is unreachable") else None)
               (λ _, inr [Scenario.deployment (Some 3) 3]) (λ _, inr (3, 0, [])) in
  ∃ w1 w',
    forEach (ct_Spec_Clusters ct) (syncCluster Scenario.percentage env ct 10)
      (afterCopy ct initialWorld) = Ok () w1
    ∧ capacityTargetSyncHandler Scenario.annotation Scenario.percentage env "ns/ct"
        initialWorld = Ok None w'
    ∧ updatesOf (trace w') = updatesOf (trace initialWorld) ++ [persistedTarget ct w1]
    ∧ last (trace w') = Some (finalEvent ct w1).
Proof.
  intros ct env.
  apply (sync_completes_when_replicas_set Scenario.annotation Scenario.percentage env
           "ns/ct" ct 10 initialWorld).
  - exists "ns"%string, "ct"%string, (Scenario.release "uid-1" "10").
    repeat split; reflexivity.
  - intros clusterSpec d _ Hd. cbn in Hd. injection Hd as <-. discriminate.
Defined.

Lemma syncCluster_names calculatePercentageFromAmount env ct totalReplicaCount
    clusterSpec w :
  names (Clusters (world_of (syncCluster calculatePercentageFromAmount env ct
                               totalReplicaCount clusterSpec w)))
  = if decide (cct_Name clusterSpec ∈ names (Clusters w))
    then names (Clusters w)
    else names (Clusters w) ++ [cct_Name clusterSpec].
Proof.
  destruct (syncCluster_step calculatePercentageFromAmount env ct totalReplicaCount
              clusterSpec w) as [_ Hstep].
  destruct (decide _).
  - by eapply sameExcept_names.
  - rewrite Hstep. unfold names. by rewrite fmap_app.
Qed.

Lemma forEach_names calculatePercentageFromAmount env ct totalReplicaCount spec w w' :
  forEach spec (syncCluster calculatePercentageFromAmount env ct totalReplicaCount) w
  = Ok () w' →
  (∀ n, n ∈ names (Clusters w')
        ↔ n ∈ names (Clusters w) ∨ n ∈ cct_Name <$> spec)
  ∧ (NoDup (names (Clusters w)) → NoDup (names (Clusters w')))
  ∧ (length (Clusters w) <= length (Clusters w'))%nat.
Proof.
  revert w. induction spec as [|c spec IH]; intros w Hrun.
  { injection Hrun as <-. split; [|done]. intros n. rewrite fmap_nil, elem_of_nil. tauto. }
  cbn [forEach] in Hrun. rewrite bind_run in Hrun.
  pose proof (syncCluster_names calculatePercentageFromAmount env ct totalReplicaCount
                c w) as Hnames.
  destruct (syncCluster calculatePercentageFromAmount env ct totalReplicaCount c w)
    as [[] w1|w1]; [|done].
  cbn [world_of] in Hnames.
  destruct (IH w1 Hrun) as (Hin & Hnd & Hlen).
  assert (length (names (Clusters w)) <= length (names (Clusters w1)))%nat as Hlen1.
  { rewrite Hnames. destruct (decide _); [done|]. rewrite length_app. lia. }
  unfold names in Hlen1. rewrite !length_fmap in Hlen1.
  split; [|split; [|lia]].
  - intros n. rewrite Hin, Hnames, fmap_cons, elem_of_cons.
    destruct (decide _) as [Hc|Hc].
    + split; [tauto|]. intros [?|[->|?]]; tauto.
    + rewrite elem_of_app, list_elem_of_singleton. tauto.
  - intros Hw. apply Hnd. rewrite Hnames. destruct (decide _) as [Hc|Hc]; [done|].
    apply NoDup_app. split; [done|]. split; [|apply NoDup_singleton].
    intros n Hn ->%list_elem_of_singleton. done.
Qed.

Lemma names_sort_Sort l : names (sort_Sort byClusterName_Less l) ≡ₚ names l.
Proof. unfold names. by rewrite sort_Sort_Permutation. Qed.

(** X9.  The status a validated sync passes to the update call names
    exactly the clusters of the prior status and of the spec; it holds no
    name twice when the prior status held none twice, and it never has
    fewer entries than the prior status. *)
Theorem persisted_status_names
    (ReleaseReplicasAnnotation : string)
    (calculatePercentageFromAmount : Z → Z → Z) (env : Env)
    (key : string) (ct : CapacityTarget) (totalReplicaCount : Z)
    (ct' : CapacityTarget) :
  validated ReleaseReplicasAnnotation env key ct totalReplicaCount →
  ActUpdate ct' ∈ trace (world_of (capacityTargetSyncHandler ReleaseReplicasAnnotation
                                     calculatePercentageFromAmount env key
                                     initialWorld)) →
  (∀ n, n ∈ names (ct_Status_Clusters ct')
        ↔ n ∈ names (ct_Status_Clusters ct) ∨ n ∈ cct_Name <$> ct_Spec_Clusters ct)
  ∧ (NoDup (names (ct_Status_Clusters ct)) → NoDup (names (ct_Status_Clusters ct')))
  ∧ (length (ct_Status_Clusters ct) <= length (ct_Status_Clusters ct'))%nat.
Proof.
  intros Hv Hin%elem_of_updatesOf.
  destruct (handler_updates ReleaseReplicasAnnotation calculatePercentageFromAmount
              env key initialWorld) as [Hu|(ct0 & total & w1 & Hv0 & Hloop & Hrun & Hu)].
  { rewrite Hu in Hin. by apply elem_of_nil in Hin. }
  destruct (validated_inj _ _ _ _ _ _ _ Hv Hv0) as [<- <-].
  rewrite Hrun, Hu in Hin. cbn in Hin. apply list_elem_of_singleton in Hin as ->.
  destruct (forEach_names _ _ _ _ _ _ _ Hloop) as (Hnames & Hnd & Hlen).
  cbn [afterCopy Clusters] in Hnames, Hnd, Hlen.
  unfold persistedTarget. cbn [set_Status_Clusters ct_Status_Clusters].
  split; [|split].
  - intros n. by rewrite names_sort_Sort.
  - intros Hprior. rewrite names_sort_Sort. by apply Hnd.
  - by rewrite sort_Sort_Permutation.
Qed.

Lemma persisted_status_names_witness :
  let ct := Scenario.target [Scenario.owner]
              [Scenario.cluster "c" 30; Scenario.cluster "a" 30]
              [newClusterCapacityStatus "b"] in
  let env := Scenario.world ct (Scenario.release "uid-1" "10") (λ _, None)
               (λ _, inr [Scenario.deployment (Some 3) 3]) (λ _, inr (3, 0, [])) in
  let ct' := Scenario.target [Scenario.owner]
               [Scenario.cluster "c" 30; Scenario.cluster "a" 30]
               [newClusterCapacityStatus "a"; newClusterCapacityStatus "b";
                newClusterCapacityStatus "c"] in
  ActUpdate ct' ∈ trace (world_of (capacityTargetSyncHandler Scenario.annotation
                                     Scenario.percentage env "ns/ct" initialWorld))
  ∧ (∀ n, n ∈ names (ct_Status_Clusters ct')
          ↔ n ∈ names (ct_Status_Clusters ct) ∨ n ∈ cct_Name <$> ct_Spec_Clusters ct)
  ∧ (NoDup (names (ct_Status_Clusters ct)) → NoDup (names (ct_Status_Clusters ct')))
  ∧ (length (ct_Status_Clusters ct) <= length (ct_Status_Clusters ct'))%nat.
Proof.
  intros ct env ct'.
  assert (ActUpdate ct' ∈ trace (world_of (capacityTargetSyncHandler
            Scenario.annotation Scenario.percentage env "ns/ct" initialWorld)))
    as Hin.
  { apply elem_of_updatesOf.
    assert (updatesOf (trace (world_of (capacityTargetSyncHandler
              Scenario.annotation Scenario.percentage env "ns/ct" initialWorld)))
            = [ct']) as -> by (vm_compute; reflexivity).
    apply list_elem_of_here. }
  split; [exact Hin|].
  apply (persisted_status_names Scenario.annotation Scenario.percentage env "ns/ct"
           ct 10 ct'); [|exact Hin].
  exists "ns"%string, "ct"%string, (Scenario.release "uid-1" "10").
  repeat split; reflexivity.
Defined.

(** X10.  Status entries are never removed: the entries of a cluster that
    the spec does not name are passed to the update call as they were in
    the prior status. *)
Theorem stale_entries_kept
    (ReleaseReplicasAnnotation : string)
    (calculatePercentageFromAmount : Z → Z → Z) (env : Env)
    (key : string) (ct : CapacityTarget) (totalReplicaCount : Z)
    (n : string) (ct' : CapacityTarget) :
  validated ReleaseReplicasAnnotation env key ct totalReplicaCount →
  n ∉ cct_Name <$> ct_Spec_Clusters ct →
  ActUpdate ct' ∈ trace (world_of (capacityTargetSyncHandler ReleaseReplicasAnnotation
                                     calculatePercentageFromAmount env key
                                     initialWorld)) →
  entriesNamed n (ct_Status_Clusters ct') ≡ₚ entriesNamed n (ct_Status_Clusters ct).
Proof.
  intros Hv Hnot Hin%elem_of_updatesOf.
  destruct (handler_updates ReleaseReplicasAnnotation calculatePercentageFromAmount
              env key initialWorld) as [Hu|(ct0 & total & w1 & Hv0 & Hloop & Hrun & Hu)].
  { rewrite Hu in Hin. by apply elem_of_nil in Hin. }
  destruct (validated_inj _ _ _ _ _ _ _ Hv Hv0) as [<- <-].
  rewrite Hrun, Hu in Hin. cbn in Hin. apply list_elem_of_singleton in Hin as ->.
  pose proof (forEach_entries_other calculatePercentageFromAmount env ct
                totalReplicaCount _ n (afterCopy ct initialWorld) Hnot) as Hother.
  rewrite Hloop in Hother. cbn [world_of afterCopy Clusters] in Hother.
  unfold persistedTarget. cbn [set_Status_Clusters ct_Status_Clusters].
  rewrite <-Hother. unfold entriesNamed. by rewrite sort_Sort_Permutation.
Qed.

Lemma stale_entries_kept_witness :
  let ct := Scenario.target [Scenario.owner]
              [Scenario.cluster "c" 30; Scenario.cluster "a" 30]
              [newClusterCapacityStatus "b"] in
  let env := Scenario.world ct (Scenario.release "uid-1" "10") (λ _, None)
               (λ _, inr [Scenario.deployment (Some 3) 3]) (λ _, inr (3, 0, [])) in
  let ct' := Scenario.target [Scenario.owner]
               [Scenario.cluster "c" 30; Scenario.cluster "a" 30]
               [newClusterCapacityStatus "a"; newClusterCapacityStatus "b";
                newClusterCapacityStatus "c"] in
  ActUpdate ct' ∈ trace (world_of (capacityTargetSyncHandler Scenario.annotation
                                     Scenario.percentage env "ns/ct" initialWorld))
  ∧ entriesNamed "b" (ct_Status_Clusters ct') ≡ₚ entriesNamed "b" (ct_Status_Clusters ct).
Proof.
  intros ct env ct'.
  assert (ActUpdate ct' ∈ trace (world_of (capacityTargetSyncHandler
            Scenario.annotation Scenario.percentage env "ns/ct" initialWorld)))
    as Hin.
  { apply elem_of_updatesOf.
    assert (updatesOf (trace (world_of (capacityTargetSyncHandler
              Scenario.annotation Scenario.percentage env "ns/ct" initialWorld)))
            = [ct']) as -> by (vm_compute; reflexivity).
    apply list_elem_of_here. }
  split; [exact Hin|].
  apply (stale_entries_kept Scenario.annotation Scenario.percentage env "ns/ct"
           ct 10 "b" ct'); [| |exact Hin].
  - exists "ns"%string, "ct"%string, (Scenario.release "uid-1" "10").
    repeat split; reflexivity.
  - cbn. rewrite !not_elem_of_cons. split; [discriminate|].
    split; [discriminate|apply not_elem_of_nil].
Defined.

#[global] Instance emits_refl P : Reflexive (emits P).
Proof. intros w. exists []. by rewrite app_nil_r. Qed.

#[global] Instance emits_trans P : Transitive (emits P).
Proof.
  intros w1 w2 w3 (tr1 & Ht1 & Hu1) (tr2 & Ht2 & Hu2). exists (tr1 ++ tr2).
  rewrite Ht2, Ht1, (assoc_L (++)). split; [done|]. by apply Forall_app.
Qed.

Lemma emits_mono (P Q : Action → Prop) w w' :
  (∀ a, P a → Q a) → emits P w w' → emits Q w w'.
Proof. intros HPQ (tr & Htr & HP). exists tr. split; [done|]. by eapply Forall_impl. Qed.

Lemma justified_mono env ct total spec spec' a :
  spec ⊆ spec' → justified env ct total spec a → justified env ct total spec' a.
Proof.
  intros Hsub. destruct a; try done. cbn.
  intros (c & d & Hc & H). exists c, d. split; [by apply Hsub|done].
Qed.

(** The end of a branch of a run: the trace has grown by the actions
    that were logged. *)
Ltac finish_emits :=
  eexists; split; [trace_norm; reflexivity|].

Ltac emits_cases env d cs tac :=
  let Hpods := fresh "Hpods" in
  let Hreplicas := fresh "Hreplicas" in
  let Hcount := fresh "Hcount" in
  let Hsad := fresh "Hsad" in
  destruct (getSadPodsForDeploymentOnCluster env d (ccs_Name cs))
    as [?|[[? ?] [|? ?]]] eqn:Hpods; exec; [tac|..];
  (destruct (dep_Spec_Replicas d) eqn:Hreplicas; exec; [|tac]);
  match goal with
  | |- context [negb (?r =? ?n)] => destruct (r =? n) eqn:Hcount
  end; exec; try tac;
  match goal with
  | |- context [0 <? ?n] => destruct (0 <? n) eqn:Hsad
  end; exec;
  first [ rewrite decide_False by (cbn; lia); exec; tac
        | rewrite decide_True by (cbn; lia); exec; tac ].

Lemma reconcileCluster_patches calculatePercentageFromAmount env ct totalReplicaCount
    clusterSpec p w cs :
  read p w = Some cs →
  emits (justified env ct totalReplicaCount [clusterSpec]) w
    (world_of (reconcileCluster calculatePercentageFromAmount env ct totalReplicaCount
                 clusterSpec p w)).
Proof.
  intros Hread. unfold emits.
  unfold reconcileCluster, findTargetDeploymentForClusterSpec,
    patchDeploymentWithReplicaCount, getSadPods.
  destruct (GetInformerFactory env (cct_Name clusterSpec)) eqn:Hf; exec;
    [finish_emits; solve_Forall_actions|].
  destruct (Deployments_List env _ _ _) as [e|[|d [|d' l]]] eqn:Hl; exec;
    try (finish_emits; solve_Forall_actions).
  destruct (match dep_Spec_Replicas d with
            | None => true
            | Some replicas => negb (_ =? replicas)
            end) eqn:Hneed; exec.
  - assert (justified env ct totalReplicaCount [clusterSpec]
              (ActPatch (cct_Name clusterSpec) (dep_Namespace d) (dep_Name d)
                 (calculateReplicaCountFromPercentage (int32 totalReplicaCount)
                    (cct_Percent clusterSpec)))) as Hpatch.
    { exists clusterSpec, d. split; [apply list_elem_of_here|].
      repeat (split; [done|]). intros Heq. rewrite Heq in Hneed.
      by rewrite Z.eqb_refl in Hneed. }
    destruct (GetClient env (cct_Name clusterSpec)) eqn:Hclient; exec;
      [finish_emits; solve_Forall_actions|].
    destruct (Deployments_Patch env _ _ _ _) as [e|d'] eqn:Hpatched; exec;
      [finish_emits; repeat constructor; done|].
    emits_cases env d cs ltac:(finish_emits; repeat constructor; done).
  - emits_cases env d cs ltac:(finish_emits; repeat constructor; done).
Qed.

Lemma syncCluster_patches calculatePercentageFromAmount env ct totalReplicaCount
    clusterSpec w :
  emits (justified env ct totalReplicaCount [clusterSpec]) w
    (world_of (syncCluster calculatePercentageFromAmount env ct totalReplicaCount
                 clusterSpec w)).
Proof.
  destruct (resolveClusterStatus_run clusterSpec w)
    as (p & w1 & cs & Hres & Hread & _ & Htrace & _).
  unfold syncCluster. rewrite bind_run, Hres.
  destruct (reconcileCluster_patches calculatePercentageFromAmount env ct
              totalReplicaCount clusterSpec p w1 cs Hread) as (tr & Htr & Hall).
  exists tr. by rewrite <-Htrace.
Qed.

Lemma forEach_patches calculatePercentageFromAmount env ct totalReplicaCount spec w :
  emits (justified env ct totalReplicaCount spec) w
    (world_of (forEach spec
                 (syncCluster calculatePercentageFromAmount env ct totalReplicaCount) w)).
Proof.
  revert w. induction spec as [|c spec IH]; intros w; [done|].
  cbn [forEach]. rewrite bind_run.
  pose proof (syncCluster_patches calculatePercentageFromAmount env ct
                totalReplicaCount c w) as Hc.
  apply (emits_mono _ (justified env ct totalReplicaCount (c :: spec))) in Hc.
  2:{ intros a. apply justified_mono. intros x ->%list_elem_of_singleton.
      apply list_elem_of_here. }
  destruct (syncCluster calculatePercentageFromAmount env ct totalReplicaCount c w)
    as [[] w1|w1]; [|done].
  etrans; [exact Hc|]. eapply emits_mono; [|apply IH].
  intros a. apply justified_mono. intros x Hx. by apply list_elem_of_further.
Qed.

Lemma int32_range n : - 2 ^ 31 <= int32 n < 2 ^ 31.
Proof.
  unfold int32. pose proof (Z.mod_pos_bound (n + 2 ^ 31) (2 ^ 32) ltac:(done)). lia.
Qed.

(** X11.  Every patch a validated sync issues is the patch of the one
    deployment that the cluster of some entry of the spec lists under the
    namespace and labels of the capacity target, to the replica count
    computed for that entry, which the deployment does not have yet; and
    when the total is not negative and the percentage is in [0,100] the
    patched count lies between 0 and the total. *)
Theorem patches_are_justified
    (ReleaseReplicasAnnotation : string)
    (calculatePercentageFromAmount : Z → Z → Z) (env : Env)
    (key : string) (ct : CapacityTarget) (totalReplicaCount : Z)
    (cluster namespace name : string) (replicas : Z) :
  validated ReleaseReplicasAnnotation env key ct totalReplicaCount →
  ActPatch cluster namespace name replicas
  ∈ trace (world_of (capacityTargetSyncHandler ReleaseReplicasAnnotation
                       calculatePercentageFromAmount env key initialWorld)) →
  ∃ clusterSpec targetDeployment,
    clusterSpec ∈ ct_Spec_Clusters ct
    ∧ cluster = cct_Name clusterSpec
    ∧ Deployments_List env cluster (ct_Namespace ct) (ct_Labels ct)
      = inr [targetDeployment]
    ∧ namespace = dep_Namespace targetDeployment
    ∧ name = dep_Name targetDeployment
    ∧ dep_Spec_Replicas targetDeployment ≠ Some replicas
    ∧ replicas = calculateReplicaCountFromPercentage (int32 totalReplicaCount)
                   (cct_Percent clusterSpec)
    ∧ (0 <= int32 totalReplicaCount → 0 <= cct_Percent clusterSpec <= 100 →
       0 <= replicas <= int32 totalReplicaCount).
Proof.
  intros Hv Hin. rewrite (handler_validated _ _ _ _ _ _ _ Hv) in Hin.
  destruct (forEach_patches calculatePercentageFromAmount env ct totalReplicaCount
              (ct_Spec_Clusters ct) (afterCopy ct initialWorld)) as (tr & Htr & Hall).
  cbn [afterCopy trace initialWorld app] in Htr.
  assert (ActPatch cluster namespace name replicas ∈ tr) as Hin'.
  { destruct (forEach _ _ _) as [[] w1|w1]; cbn [world_of] in Htr, Hin.
    - rewrite persistStatus_run in Hin. cbn [world_of trace] in Hin.
      rewrite Htr in Hin. unfold updateWarning, finalEvent in Hin.
      rewrite !elem_of_app, list_elem_of_singleton in Hin.
      destruct Hin as [?|[[=]|[Hin|Hin]]]; [done| |].
      + destruct (CapacityTargets_Update env _);
          [by apply list_elem_of_singleton in Hin|by apply elem_of_nil in Hin].
      + by apply list_elem_of_singleton in Hin.
    - by rewrite Htr in Hin. }
  rewrite Forall_forall in Hall.
  destruct (Hall _ Hin') as (c & d & Hc & -> & -> & Hl & -> & -> & Hne).
  exists c, d. repeat (split; [done|]). intros Htotal Hp.
  pose proof (int32_range totalReplicaCount).
  apply replica_count_le_total; lia.
Qed.

Lemma patches_are_justified_witness :
  let ct := Scenario.target [Scenario.owner] [Scenario.cluster "a" 50] [] in
  let env := Scenario.world ct (Scenario.release "uid-1" "10") (λ _, None)
               (λ _, inr [Scenario.deployment (Some 3) 3]) (λ _, inr (3, 0, [])) in
  ActPatch "a" "ns" "web" 5
  ∈ trace (world_of (capacityTargetSyncHandler Scenario.annotation
                       Scenario.percentage env "ns/ct" initialWorld))
  ∧ ∃ clusterSpec targetDeployment,
      clusterSpec ∈ ct_Spec_Clusters ct
      ∧ "a"%string = cct_Name clusterSpec
      ∧ Deployments_List env "a" (ct_Namespace ct) (ct_Labels ct)
        = inr [targetDeployment]
      ∧ "ns"%string = dep_Namespace targetDeployment
      ∧ "web"%string = dep_Name targetDeployment
      ∧ dep_Spec_Replicas targetDeployment ≠ Some 5
      ∧ 5 = calculateReplicaCountFromPercentage (int32 10) (cct_Percent clusterSpec)
      ∧ (0 <= int32 10 → 0 <= cct_Percent clusterSpec <= 100 → 0 <= 5 <= int32 10).
Proof.
  intros ct env.
  assert (ActPatch "a" "ns" "web" 5
          ∈ trace (world_of (capacityTargetSyncHandler Scenario.annotation
                               Scenario.percentage env "ns/ct" initialWorld)))
    as Hin.
  { assert (∃ tr, trace (world_of (capacityTargetSyncHandler Scenario.annotation
                                     Scenario.percentage env "ns/ct" initialWorld)) = tr
                  ∧ ActPatch "a" "ns" "web" 5 ∈ tr) as (tr & <- & Hin); [|exact Hin].
    eexists. split; [vm_compute; reflexivity|].
    repeat first [apply list_elem_of_here | apply list_elem_of_further]. }
  split; [exact Hin|].
  apply (patches_are_justified Scenario.annotation Scenario.percentage env "ns/ct"
           ct 10 "a" "ns" "web" 5); [|exact Hin].
  exists "ns"%string, "ct"%string, (Scenario.release "uid-1" "10").
  repeat split; reflexivity.
Defined.

Lemma SetClusterCapacityCondition_AvailableReplicas status condition :
  ccs_AvailableReplicas (SetClusterCapacityCondition status condition)
  = ccs_AvailableReplicas status.
Proof.
  unfold SetClusterCapacityCondition.
  destruct (GetClusterCapacityCondition _ _); [|done].
  by destruct (decide _).
Qed.

Lemma SetClusterCapacityCondition_AchievedPercent status condition :
  ccs_AchievedPercent (SetClusterCapacityCondition status condition)
  = ccs_AchievedPercent status.
Proof.
  unfold SetClusterCapacityCondition.
  destruct (GetClusterCapacityCondition _ _); [|done].
  by destruct (decide _).
Qed.

Ltac finish_status :=
  eexists; split; [by exec|];
  rewrite ?SetClusterCapacityCondition_Name, ?SetClusterCapacityCondition_AvailableReplicas,
    ?SetClusterCapacityCondition_AchievedPercent;
  cbn;
  rewrite ?SetClusterCapacityCondition_Name, ?SetClusterCapacityCondition_AvailableReplicas,
    ?SetClusterCapacityCondition_AchievedPercent;
  done.

(** X12.  When the discovery of the deployment succeeds and the patch is
    not needed or succeeds, the status behind [clusterStatus] gets the
    available replicas of the deployment as it was listed, not of the
    deployment the patch returned, and the achieved percentage computed
    from them, whatever the pod inspection does afterwards, a panic
    included. *)
Theorem status_records_listed_deployment
    (calculatePercentageFromAmount : Z → Z → Z) (env : Env)
    (ct : CapacityTarget) (totalReplicaCount : Z)
    (clusterSpec : ClusterCapacityTarget) (targetDeployment : Deployment) (w : World) :
  GetInformerFactory env (cct_Name clusterSpec) = None →
  Deployments_List env (cct_Name clusterSpec) (ct_Namespace ct) (ct_Labels ct)
  = inr [targetDeployment] →
  (dep_Spec_Replicas targetDeployment
   = Some (calculateReplicaCountFromPercentage (int32 totalReplicaCount)
             (cct_Percent clusterSpec))
   ∨ GetClient env (cct_Name clusterSpec) = None
     ∧ ∃ updatedDeployment,
         Deployments_Patch env (cct_Name clusterSpec)
           (dep_Namespace targetDeployment) (dep_Name targetDeployment)
           (calculateReplicaCountFromPercentage (int32 totalReplicaCount)
              (cct_Percent clusterSpec))
         = inr updatedDeployment) →
  ∃ clusterStatus w1 status,
    resolveClusterStatus clusterSpec w = Ok clusterStatus w1
    ∧ read clusterStatus
        (world_of (reconcileCluster calculatePercentageFromAmount env ct
                     totalReplicaCount clusterSpec clusterStatus w1))
      = Some status
    ∧ ccs_Name status = cct_Name clusterSpec
    ∧ ccs_AvailableReplicas status = dep_Status_AvailableReplicas targetDeployment
    ∧ ccs_AchievedPercent status
      = calculatePercentageFromAmount (int32 totalReplicaCount)
          (dep_Status_AvailableReplicas targetDeployment).
Proof.
  intros Hfactory Hlist Hpatch.
  destruct (resolveClusterStatus_run clusterSpec w)
    as (p & w1 & cs & Hres & Hread & Hname & _).
  exists p, w1. rewrite Hres.
  assert (∃ status,
            read p (world_of (reconcileCluster calculatePercentageFromAmount env ct
                                totalReplicaCount clusterSpec p w1)) = Some status
            ∧ ccs_Name status = ccs_Name cs
            ∧ ccs_AvailableReplicas status = dep_Status_AvailableReplicas targetDeployment
            ∧ ccs_AchievedPercent status
              = calculatePercentageFromAmount (int32 totalReplicaCount)
                  (dep_Status_AvailableReplicas targetDeployment))
    as (status & Hstatus & Hn & Havail & Hpct).
  { unfold reconcileCluster, findTargetDeploymentForClusterSpec,
      patchDeploymentWithReplicaCount, getSadPods.
    exec.
    destruct (match dep_Spec_Replicas targetDeployment with
              | None => true
              | Some replicas => negb (_ =? replicas)
              end) eqn:Hneed; exec.
    - destruct Hpatch as [Hsame|(Hclient & d' & Hpatched)].
      { rewrite Hsame in Hneed. by rewrite Z.eqb_refl in Hneed. }
      exec. emits_cases env targetDeployment cs finish_status.
    - emits_cases env targetDeployment cs finish_status. }
  exists status. split; [done|]. split; [done|]. split; [congruence|done].
Qed.

Lemma status_records_listed_deployment_witness :
  let ct := Scenario.target [Scenario.owner] [Scenario.cluster "a" 30]
              [newClusterCapacityStatus "a"] in
  let env := Scenario.world ct (Scenario.release "uid-1" "10") (λ _, None)
               (λ _, inr [Scenario.deployment (Some 5) 4])
               (λ _, inl (ApiError false "pods cannot be listed")) in
  ∃ clusterStatus w1 status,
    resolveClusterStatus (Scenario.cluster "a" 30) (afterCopy ct initialWorld)
    = Ok clusterStatus w1
    ∧ read clusterStatus
        (world_of (reconcileCluster Scenario.percentage env ct 10
                     (Scenario.cluster "a" 30) clusterStatus w1))
      = Some status
    ∧ ccs_Name status = "a"%string
    ∧ ccs_AvailableReplicas status = 4
    ∧ ccs_AchievedPercent status = Scenario.percentage (int32 10) 4.
Proof.
  intros ct env.
  apply (status_records_listed_deployment Scenario.percentage env ct 10
           (Scenario.cluster "a" 30) (Scenario.deployment (Some 5) 4)
           (afterCopy ct initialWorld)).
  - reflexivity.
  - reflexivity.
  - right. split; [reflexivity|]. eexists. reflexivity.
Defined.

Lemma hasCondition_set_SadPods status pods condType st reason :
  hasCondition status condType st reason →
  hasCondition (set_SadPods pods status) condType st reason.
Proof. done. Qed.

Ltac sad_pods_tail sadPodsCount :=
  let Hcount := fresh "Hcount" in
  destruct (0 <? sadPodsCount) eqn:Hcount; exec;
  rewrite decide_True by (cbn; lia); exec;
  eexists _, _, _; (split; [done|]); (split; [by exec|]); (split; [done|]);
  (split; [|split; [trace_norm; done|]]);
  [ intros _; apply hasCondition_set_SadPods, hasCondition_New_Set
  | cbn; repeat constructor; unfold NewClusterCapacityCondition; cbn;
    first [discriminate|tauto]
  | intros ?%Z.ltb_lt; congruence
  | cbn; repeat constructor; unfold NewClusterCapacityCondition; cbn;
    first [discriminate|tauto] ].

(** X13.  When the pod inspection reports the replica count of the spec
    of the deployment and a list of sad pods that is not empty, the
    reconciliation stores that list in the status behind [clusterStatus],
    sets Ready=False with reason PodsNotReady when the count of sad pods
    is positive, sets no condition to True, records no event, and the
    loop goes on with the next cluster. *)
Theorem sad_pods_recorded
    (calculatePercentageFromAmount : Z → Z → Z) (env : Env)
    (ct : CapacityTarget) (totalReplicaCount : Z)
    (clusterSpec : ClusterCapacityTarget) (rest : list ClusterCapacityTarget)
    (targetDeployment : Deployment) (replicas sadPodsCount : Z)
    (sadPods : list PodStatus) (w : World) :
  GetInformerFactory env (cct_Name clusterSpec) = None →
  Deployments_List env (cct_Name clusterSpec) (ct_Namespace ct) (ct_Labels ct)
  = inr [targetDeployment] →
  dep_Spec_Replicas targetDeployment = Some replicas →
  (calculateReplicaCountFromPercentage (int32 totalReplicaCount)
     (cct_Percent clusterSpec) = replicas
   ∨ GetClient env (cct_Name clusterSpec) = None
     ∧ ∃ updatedDeployment,
         Deployments_Patch env (cct_Name clusterSpec)
           (dep_Namespace targetDeployment) (dep_Name targetDeployment)
           (calculateReplicaCountFromPercentage (int32 totalReplicaCount)
              (cct_Percent clusterSpec))
         = inr updatedDeployment) →
  getSadPodsForDeploymentOnCluster env targetDeployment (cct_Name clusterSpec)
  = inr (replicas, sadPodsCount, sadPods) →
  sadPods ≠ [] →
  ∃ clusterStatus w1 w' status tr,
    resolveClusterStatus clusterSpec w = Ok clusterStatus w1
    ∧ reconcileCluster calculatePercentageFromAmount env ct totalReplicaCount
        clusterSpec clusterStatus w1 = Ok () w'
    ∧ read clusterStatus w' = Some status
    ∧ ccs_SadPods status = sadPods
    ∧ (0 < sadPodsCount →
       hasCondition status ClusterConditionTypeReady ConditionFalse PodsNotReady)
    ∧ trace w' = trace w ++ tr
    ∧ Forall (λ a, ¬ setsTrue a ∧ ¬ isEvent a) tr
    ∧ forEach (clusterSpec :: rest)
        (syncCluster calculatePercentageFromAmount env ct totalReplicaCount) w
      = forEach rest
          (syncCluster calculatePercentageFromAmount env ct totalReplicaCount) w'.
Proof.
  intros Hfactory Hlist Hreplicas Hpatch Hpods Hsad.
  destruct (resolveClusterStatus_run clusterSpec w)
    as (p & w1 & cs & Hres & Hread & Hname & Htrace & _).
  set (replicaCount := calculateReplicaCountFromPercentage (int32 totalReplicaCount)
                         (cct_Percent clusterSpec)) in *.
  rewrite <-Hname in Hpods.
  destruct sadPods as [|pod sadPods]; [done|].
  assert (∃ w' status tr0,
            reconcileCluster calculatePercentageFromAmount env ct totalReplicaCount
              clusterSpec p w1 = Ok () w'
            ∧ read p w' = Some status
            ∧ ccs_SadPods status = pod :: sadPods
            ∧ (0 < sadPodsCount →
               hasCondition status ClusterConditionTypeReady ConditionFalse PodsNotReady)
            ∧ trace w' = trace w1 ++ tr0
            ∧ Forall (λ a, ¬ setsTrue a ∧ ¬ isEvent a) tr0)
    as (w' & status & tr0 & Hrun & Hread' & Hpodsset & Hcond & Htr0 & Hno).
  { unfold reconcileCluster, findTargetDeploymentForClusterSpec, getSadPods.
    exec. fold replicaCount.
    destruct (replicaCount =? replicas) eqn:Heq; exec.
    - rewrite Z.eqb_refl. exec. sad_pods_tail sadPodsCount.
    - destruct Hpatch as [Hpatch|(Hclient & d' & Hpatch)].
      { by apply Z.eqb_neq in Heq. }
      unfold patchDeploymentWithReplicaCount. exec.
      rewrite Z.eqb_refl. exec. sad_pods_tail sadPodsCount. }
  exists p, w1, w', status, tr0.
  split; [done|]. split; [done|]. split; [done|]. split; [done|]. split; [done|].
  split; [by rewrite <-Htrace|]. split; [done|].
  cbn [forEach]. rewrite bind_run. unfold syncCluster. rewrite bind_run, Hres.
  by rewrite Hrun.
Qed.

Lemma sad_pods_recorded_witness :
  let pod := {| pod_Name := "web-1"; pod_Diagnostics := "crash loop" |} in
  let ct := Scenario.target [Scenario.owner] [Scenario.cluster "a" 30] [] in
  let env := Scenario.world ct (Scenario.release "uid-1" "10") (λ _, None)
               (λ _, inr [Scenario.deployment (Some 3) 2])
               (λ _, inr (3, 1, [pod])) in
  ∃ clusterStatus w1 w' status tr,
    resolveClusterStatus (Scenario.cluster "a" 30) initialWorld = Ok clusterStatus w1
    ∧ reconcileCluster Scenario.percentage env ct 10 (Scenario.cluster "a" 30)
        clusterStatus w1 = Ok () w'
    ∧ read clusterStatus w' = Some status
    ∧ ccs_SadPods status = [pod]
    ∧ (0 < 1 →
       hasCondition status ClusterConditionTypeReady ConditionFalse PodsNotReady)
    ∧ trace w' = trace initialWorld ++ tr
    ∧ Forall (λ a, ¬ setsTrue a ∧ ¬ isEvent a) tr
    ∧ forEach [Scenario.cluster "a" 30]
        (syncCluster Scenario.percentage env ct 10) initialWorld
      = forEach [] (syncCluster Scenario.percentage env ct 10) w'.
Proof.
  intros pod ct env.
  apply (sad_pods_recorded Scenario.percentage env ct 10 (Scenario.cluster "a" 30) []
           (Scenario.deployment (Some 3) 2) 3 1 [pod]).
  - reflexivity.
  - reflexivity.
  - reflexivity.
  - left. vm_compute. reflexivity.
  - reflexivity.
  - discriminate.
Defined.

Ltac finish_events :=
  eexists; split; [trace_norm; reflexivity|];
  first
    [ by left
    | right; left; eexists _, _; split; [reflexivity|]; split; [by exec|];
      first [ left; apply hasCondition_New_Set | right; apply hasCondition_New_Set ]
    | right; right; eexists _, _; split; [reflexivity|]; split; [done|];
      split; [by exec|];
      split; [apply hasCondition_Set_ne; [done|apply hasCondition_New_Set]
             |apply hasCondition_New_Set] ].

(** X14.  The events of one reconciliation agree with the conditions it
    leaves on the status behind [clusterStatus]: it records no event, as
    after every failure of the pod inspection; or one Warning event
    FailedCapacityChange with an error, and then Operational=False with
    reason ServerError or Ready=False with reason MissingDeployment; or
    one Normal event CapacityChanged with the key of the listed deployment
    and the computed replica count, and then Ready=True and
    Operational=True. *)
Theorem events_agree_with_conditions
    (calculatePercentageFromAmount : Z → Z → Z) (env : Env)
    (ct : CapacityTarget) (totalReplicaCount : Z)
    (clusterSpec : ClusterCapacityTarget) (w : World) :
  ∃ clusterStatus w1 tr,
    resolveClusterStatus clusterSpec w = Ok clusterStatus w1
    ∧ trace (world_of (reconcileCluster calculatePercentageFromAmount env ct
                         totalReplicaCount clusterSpec clusterStatus w1))
      = trace w ++ tr
    ∧ eventsAgree env ct totalReplicaCount clusterSpec (eventsOf tr)
        (read clusterStatus
           (world_of (reconcileCluster calculatePercentageFromAmount env ct
                        totalReplicaCount clusterSpec clusterStatus w1))).
Proof.
  destruct (resolveClusterStatus_run clusterSpec w)
    as (p & w1 & cs & Hres & Hread & Hname & Htrace & _).
  exists p, w1. rewrite Hres, <-Htrace.
  assert (∃ tr,
    trace (world_of (reconcileCluster calculatePercentageFromAmount env ct
                       totalReplicaCount clusterSpec p w1)) = trace w1 ++ tr
    ∧ eventsAgree env ct totalReplicaCount clusterSpec (eventsOf tr)
        (read p (world_of (reconcileCluster calculatePercentageFromAmount env ct
                             totalReplicaCount clusterSpec p w1))))
    as (tr & Htr & Hev); [|by exists tr].
  unfold eventsAgree.
  unfold reconcileCluster, findTargetDeploymentForClusterSpec,
    patchDeploymentWithReplicaCount, getSadPods.
  destruct (GetInformerFactory env (cct_Name clusterSpec)) eqn:Hf; exec;
    [finish_events|].
  destruct (Deployments_List env _ _ _) as [e|[|d [|d' l]]] eqn:Hl; exec;
    try finish_events.
  destruct (match dep_Spec_Replicas d with
            | None => true
            | Some replicas => negb (_ =? replicas)
            end) eqn:Hneed; exec.
  - destruct (GetClient env (cct_Name clusterSpec)) eqn:Hclient; exec;
      [finish_events|].
    destruct (Deployments_Patch env _ _ _ _) as [e|d'] eqn:Hpatched; exec;
      [finish_events|].
    emits_cases env d cs finish_events.
  - emits_cases env d cs finish_events.
Qed.

Lemma findClusterStatus_last name l i acc :
  name ∈ names l →
  ∃ j cs,
    findClusterStatus name i l acc = Some (PElem (i + j))
    ∧ l !! j = Some cs ∧ ccs_Name cs = name
    ∧ ∀ k cs', l !! k = Some cs' → ccs_Name cs' = name → (k <= j)%nat.
Proof.
  revert i acc. induction l as [|cs l IH]; intros i acc Hin.
  { by apply elem_of_nil in Hin. }
  cbn [findClusterStatus].
  destruct (decide (name ∈ names l)) as [Htail|Htail].
  - destruct (IH (S i) (if decide (ccs_Name cs = name) then Some (PElem i) else acc)
                Htail) as (j & cs0 & -> & Hj & Hname & Hlast).
    exists (S j), cs0. split; [by rewrite Nat.add_succ_r|]. split; [done|].
    split; [done|]. intros [|k] cs' Hk Hcs'; [lia|]. apply le_n_S. by eapply Hlast.
  - unfold names in Hin. rewrite fmap_cons in Hin.
    apply elem_of_cons in Hin as [->|Hin]; [|done].
    rewrite decide_True by done.
    destruct (findClusterStatus_spec (ccs_Name cs) l (S i) (Some (PElem i)))
      as [[-> _]|(j & cs0 & _ & Hj & Hname)].
    + exists 0%nat, cs. split; [by rewrite Nat.add_0_r|]. split; [done|].
      split; [done|]. intros [|k] cs' Hk Hcs'; [done|].
      exfalso. apply Htail. unfold names. apply list_elem_of_fmap. exists cs'.
      split; [done|]. by eapply list_elem_of_lookup_2.
    + exfalso. apply Htail. unfold names. apply list_elem_of_fmap. exists cs0.
      split; [done|]. by eapply list_elem_of_lookup_2.
Qed.

(** X15.  When the status holds one or several entries of the name of
    the cluster, the inner loop of lines 257-264, which does not stop at
    the first match, leaves [clusterStatus] pointing to the last of them,
    and the status is not changed by the search. *)
Theorem last_entry_of_name_is_used (clusterSpec : ClusterCapacityTarget) (w : World) :
  cct_Name clusterSpec ∈ names (Clusters w) →
  ∃ j status,
    resolveClusterStatus clusterSpec w = Ok (PElem j) w
    ∧ Clusters w !! j = Some status
    ∧ ccs_Name status = cct_Name clusterSpec
    ∧ ∀ k status', Clusters w !! k = Some status' →
        ccs_Name status' = cct_Name clusterSpec → (k <= j)%nat.
Proof.
  intros Hin.
  destruct (findClusterStatus_last (cct_Name clusterSpec) (Clusters w) 0 None Hin)
    as (j & cs & Hfind & Hj & Hname & Hlast).
  exists j, cs. split; [|done]. unfold resolveClusterStatus. by exec.
Qed.

Lemma last_entry_of_name_is_used_witness :
  let w := afterCopy
             (Scenario.target [Scenario.owner] [Scenario.cluster "a" 30]
                [newClusterCapacityStatus "a"; newClusterCapacityStatus "b";
                 set_AvailableReplicas 3 (newClusterCapacityStatus "a")])
             initialWorld in
  ∃ j status,
    resolveClusterStatus (Scenario.cluster "a" 30) w = Ok (PElem j) w
    ∧ Clusters w !! j = Some status
    ∧ ccs_Name status = "a"%string
    ∧ ∀ k status', Clusters w !! k = Some status' →
        ccs_Name status' = "a"%string → (k <= j)%nat.
Proof.
  intros w. apply (last_entry_of_name_is_used (Scenario.cluster "a" 30) w).
  apply list_elem_of_here.
Defined.

(** ** The worker and the event handlers *)

Lemma queueCalls_app l1 l2 : queueCalls (l1 ++ l2) = queueCalls l1 ++ queueCalls l2.
Proof. apply filter_app. Qed.

Lemma queueCalls_WSync tr : queueCalls (WSync <$> tr) = [].
Proof.
  unfold queueCalls. induction tr as [|a tr IH]; [done|].
  rewrite fmap_cons, filter_cons. by destruct (decide _) as [[]|].
Qed.

Lemma handledErrors_app l1 l2 :
  handledErrors (l1 ++ l2) = handledErrors l1 ++ handledErrors l2.
Proof. apply omap_app. Qed.

Lemma handledErrors_WSync tr : handledErrors (WSync <$> tr) = [].
Proof. by induction tr. Qed.

Lemma syncActions_app l1 l2 : syncActions (l1 ++ l2) = syncActions l1 ++ syncActions l2.
Proof. apply omap_app. Qed.

Lemma syncActions_WSync tr : syncActions (WSync <$> tr) = tr.
Proof.
  unfold syncActions. induction tr as [|a tr IH]; [done|].
  rewrite fmap_cons. cbn. by rewrite IH.
Qed.

Lemma queueCalls_Get l : queueCalls (WGet :: l) = WGet :: queueCalls l.
Proof. reflexivity. Qed.

Lemma handledErrors_Get l : handledErrors (WGet :: l) = handledErrors l.
Proof. reflexivity. Qed.

Lemma syncActions_Get l : syncActions (WGet :: l) = syncActions l.
Proof. reflexivity. Qed.

Lemma doneItems_Get l : doneItems (WGet :: l) = doneItems l.
Proof. reflexivity. Qed.

Lemma getCount_Get l : getCount (WGet :: l) = S (getCount l).
Proof. reflexivity. Qed.

Section WorkerProperties.

Variable ReleaseReplicasAnnotation : string.
Variable calculatePercentageFromAmount : Z → Z → Z.
Variable env : Env.

(** One pass of the worker over a key, by the outcome of the sync. *)
Lemma processNext_key key :
  processNextCapacityTargetWorkItem ReleaseReplicasAnnotation
    calculatePercentageFromAmount env (Some (ItemString key))
  = match capacityTargetSyncHandler ReleaseReplicasAnnotation
            calculatePercentageFromAmount env key initialWorld with
    | Ok None w =>
        Returns true
          (WGet :: (WSync <$> trace w)
                ++ [WForget (ItemString key); WDone (ItemString key)])
    | Ok (Some err) w =>
        Returns true
          (WGet :: (WSync <$> trace w)
                ++ [WDone (ItemString key); WHandleError (SyncError key err)])
    | Panic w => Panics (WGet :: (WSync <$> trace w) ++ [WDone (ItemString key)])
    end.
Proof.
  unfold processNextCapacityTargetWorkItem, runSync.
  destruct (capacityTargetSyncHandler _ _ _ _ _) as [[err|] w|w]; cbn;
    by rewrite ?app_nil_r, <-?(assoc_L (++)).
Qed.

Lemma processNext_other repr :
  processNextCapacityTargetWorkItem ReleaseReplicasAnnotation
    calculatePercentageFromAmount env (Some (ItemOther repr))
  = Returns true
      [WGet; WForget (ItemOther repr);
       WHandleError (NotAStringError (ItemOther repr)); WDone (ItemOther repr)].
Proof. reflexivity. Qed.

End WorkerProperties.

Lemma doneItems_app l1 l2 : doneItems (l1 ++ l2) = doneItems l1 ++ doneItems l2.
Proof. apply omap_app. Qed.

Lemma doneItems_WSync tr : doneItems (WSync <$> tr) = [].
Proof. by induction tr. Qed.

Lemma getCount_app l1 l2 : getCount (l1 ++ l2) = (getCount l1 + getCount l2)%nat.
Proof. unfold getCount. by rewrite omap_app, length_app. Qed.

Lemma getCount_WSync tr : getCount (WSync <$> tr) = 0%nat.
Proof. unfold getCount. by induction tr. Qed.

Lemma split_slash_no_slash s : hasSlash s = false → split_slash s = [s].
Proof.
  induction s as [|c s IH]; [done|]. cbn.
  destruct (Ascii.eqb c "/"); [done|]. cbn. intros Hs. by rewrite IH.
Qed.

Lemma split_slash_append s1 s2 :
  hasSlash s1 = false →
  split_slash (s1 +:+ String "/" s2) = s1 :: split_slash s2.
Proof.
  induction s1 as [|c s1 IH]; [done|].
  change (String c s1 +:+ String "/" s2)%string with (String c (s1 +:+ String "/" s2)).
  cbn [hasSlash split_slash].
  destruct (Ascii.eqb c "/"); [done|]. cbn [orb]. intros Hs. by rewrite IH.
Qed.

(** X16.  Every item taken off the work queue is marked done exactly
    once, as the last call on the queue, whether its sync returns or
    panics; before that the item is forgotten or left alone, and it is
    never added to the queue again. *)
Theorem worker_item_done_once
    (ReleaseReplicasAnnotation : string)
    (calculatePercentageFromAmount : Z → Z → Z) (env : Env) (obj : QueueItem) :
  ∃ before,
    queueCalls (actions_of (processNextCapacityTargetWorkItem ReleaseReplicasAnnotation
                              calculatePercentageFromAmount env (Some obj)))
    = WGet :: before ++ [WDone obj]
    ∧ (before = [] ∨ before = [WForget obj]).
Proof.
  destruct obj as [key|repr].
  - rewrite processNext_key.
    destruct (capacityTargetSyncHandler _ _ _ _ _) as [[err|] w|w];
      cbn [actions_of]; rewrite queueCalls_Get, queueCalls_app, queueCalls_WSync.
    + exists []. split; [done|by left].
    + exists [WForget (ItemString key)]. split; [done|by right].
    + exists []. split; [done|by left].
  - exists [WForget (ItemOther repr)]. split; [done|by right].
Qed.

(** X17.  The worker forgets an item exactly when the item is not a
    string or its sync returns nil. *)
Theorem worker_forgets_iff
    (ReleaseReplicasAnnotation : string)
    (calculatePercentageFromAmount : Z → Z → Z) (env : Env) (obj : QueueItem) :
  WForget obj ∈ actions_of (processNextCapacityTargetWorkItem ReleaseReplicasAnnotation
                              calculatePercentageFromAmount env (Some obj))
  ↔ forgotten ReleaseReplicasAnnotation calculatePercentageFromAmount env obj.
Proof.
  destruct obj as [key|repr]; cbn [forgotten].
  - rewrite processNext_key. unfold syncSucceeds.
    destruct (capacityTargetSyncHandler _ _ _ _ _) as [[err|] w|w]; cbn [actions_of];
      rewrite elem_of_cons, elem_of_app, list_elem_of_fmap.
    + split; [|by intros [? [=]]].
      intros [[=]|[(a & [=] & _)|Hin]].
      apply elem_of_cons in Hin as [[=]|Hin].
      apply list_elem_of_singleton in Hin. done.
    + split; [by eexists|]. intros _. right. right. apply list_elem_of_here.
    + split; [|by intros [? [=]]].
      intros [[=]|[(a & [=] & _)|Hin]]. apply list_elem_of_singleton in Hin. done.
  - split; [done|]. intros _. rewrite processNext_other. cbn.
    apply list_elem_of_further, list_elem_of_here.
Qed.

(** X18.  When the sync of a key returns an error, the worker hands that
    error, with the key, to [runtime.HandleError] once, marks the item
    done without forgetting it or adding it again, and returns true, so
    that the worker goes on. *)
Theorem worker_reports_sync_error
    (ReleaseReplicasAnnotation : string)
    (calculatePercentageFromAmount : Z → Z → Z) (env : Env)
    (key : string) (err : error) (w : World) :
  capacityTargetSyncHandler ReleaseReplicasAnnotation
    calculatePercentageFromAmount env key initialWorld = Ok (Some err) w →
  ∃ actions,
    processNextCapacityTargetWorkItem ReleaseReplicasAnnotation
      calculatePercentageFromAmount env (Some (ItemString key))
    = Returns true actions
    ∧ handledErrors actions = [SyncError key err]
    ∧ queueCalls actions = [WGet; WDone (ItemString key)]
    ∧ syncActions actions = trace w.
Proof.
  intros Hsync. rewrite processNext_key, Hsync. eexists. split; [done|].
  rewrite handledErrors_Get, handledErrors_app, handledErrors_WSync.
  rewrite queueCalls_Get, queueCalls_app, queueCalls_WSync.
  rewrite syncActions_Get, syncActions_app, syncActions_WSync.
  split; [done|]. split; [done|]. cbn. by rewrite app_nil_r.
Qed.

Lemma worker_reports_sync_error_witness :
  let ct := Scenario.target [Scenario.owner; Scenario.owner]
              [Scenario.cluster "a" 50] [] in
  let env := Scenario.world ct (Scenario.release "uid-1" "10") (λ _, None)
               (λ _, inr [Scenario.deployment (Some 5) 5]) (λ _, inr (5, 0, [])) in
  ∃ actions,
    processNextCapacityTargetWorkItem Scenario.annotation Scenario.percentage env
      (Some (ItemString "ns/ct"))
    = Returns true actions
    ∧ handledErrors actions
      = [SyncError "ns/ct" (MultipleOwnerReferencesError "ct" 2)]
    ∧ queueCalls actions = [WGet; WDone (ItemString "ns/ct")]
    ∧ syncActions actions = trace (afterCopy ct initialWorld).
Proof.
  intros ct env.
  apply (worker_reports_sync_error Scenario.annotation Scenario.percentage env "ns/ct"
           (MultipleOwnerReferencesError "ct" 2) (afterCopy ct initialWorld)).
  reflexivity.
Defined.

Lemma processNext_item ReleaseReplicasAnnotation calculatePercentageFromAmount env obj :
  (∀ key, obj = ItemString key →
     syncReturns ReleaseReplicasAnnotation calculatePercentageFromAmount env key) →
  ∃ actions,
    processNextCapacityTargetWorkItem ReleaseReplicasAnnotation
      calculatePercentageFromAmount env (Some obj) = Returns true actions
    ∧ doneItems actions = [obj]
    ∧ getCount actions = 1%nat.
Proof.
  intros Hsync. destruct obj as [key|repr].
  - destruct (Hsync key eq_refl) as (err & w & Hrun). rewrite processNext_key, Hrun.
    destruct err as [err|]; eexists; (split; [done|]);
      rewrite doneItems_Get, doneItems_app, doneItems_WSync,
        getCount_Get, getCount_app, getCount_WSync; done.
  - eexists. split; [apply processNext_other|]. done.
Qed.

(** X19.  A worker whose syncs return processes the items in the order
    [Get] hands them out, marks each of them done, and stops at the
    shutdown of the queue: it calls [Get] once per item and once more,
    and takes nothing after that. *)
Theorem worker_runs_until_shutdown
    (ReleaseReplicasAnnotation : string)
    (calculatePercentageFromAmount : Z → Z → Z) (env : Env)
    (items : list QueueItem) (rest : list (option QueueItem)) :
  (∀ key, ItemString key ∈ items →
     syncReturns ReleaseReplicasAnnotation calculatePercentageFromAmount env key) →
  ∃ actions,
    runCapacityTargetWorker ReleaseReplicasAnnotation calculatePercentageFromAmount env
      ((Some <$> items) ++ None :: rest)
    = Returns () actions
    ∧ doneItems actions = items
    ∧ getCount actions = S (length items).
Proof.
  induction items as [|obj items IH]; intros Hsync.
  { eexists. split; [reflexivity|]. done. }
  destruct (processNext_item ReleaseReplicasAnnotation calculatePercentageFromAmount
              env obj) as (actions1 & Hrun1 & Hdone1 & Hget1).
  { intros key ->. apply Hsync, list_elem_of_here. }
  destruct IH as (actions2 & Hrun2 & Hdone2 & Hget2).
  { intros key Hkey. by apply Hsync, list_elem_of_further. }
  exists (actions1 ++ actions2). split.
  - rewrite fmap_cons. cbn [app runCapacityTargetWorker].
    unfold mbind at 1, Run_bind. by rewrite Hrun1, Hrun2.
  - rewrite doneItems_app, getCount_app, Hdone1, Hdone2, Hget1, Hget2. done.
Qed.

Lemma worker_runs_until_shutdown_witness :
  let ct := Scenario.target [Scenario.owner] [Scenario.cluster "a" 50] [] in
  let env := Scenario.world ct (Scenario.release "uid-1" "10") (λ _, None)
               (λ _, inr [Scenario.deployment (Some 5) 5]) (λ _, inr (5, 0, [])) in
  ∃ actions,
    runCapacityTargetWorker Scenario.annotation Scenario.percentage env
      ((Some <$> [ItemString "ns/ct"; ItemOther "42"; ItemString "ns/gone"])
       ++ None :: [Some (ItemString "ns/ct")])
    = Returns () actions
    ∧ doneItems actions = [ItemString "ns/ct"; ItemOther "42"; ItemString "ns/gone"]
    ∧ getCount actions = 4%nat.
Proof.
  intros ct env.
  apply (worker_runs_until_shutdown Scenario.annotation Scenario.percentage env
           [ItemString "ns/ct"; ItemOther "42"; ItemString "ns/gone"]
           [Some (ItemString "ns/ct")]).
  intros key Hkey.
  repeat (apply elem_of_cons in Hkey as [Hkey|Hkey]);
    [injection Hkey as ->|discriminate Hkey|injection Hkey as ->|
     by apply elem_of_nil in Hkey];
    eexists _, _; vm_compute; reflexivity.
Defined.

(** X20.  A key that does not split into namespace and name, or whose
    capacity target the lister does not find, is dropped: the error is
    logged, no cluster is contacted, and the item is forgotten and marked
    done. *)
Theorem worker_drops_unknown_key
    (ReleaseReplicasAnnotation : string)
    (calculatePercentageFromAmount : Z → Z → Z) (env : Env) (key : string) :
  (SplitMetaNamespaceKey key = None
   ∨ ∃ namespace name err,
       SplitMetaNamespaceKey key = Some (namespace, name)
       ∧ capacityTargetsLister_Get env namespace name = inl err
       ∧ IsNotFound err = true) →
  processNextCapacityTargetWorkItem ReleaseReplicasAnnotation
    calculatePercentageFromAmount env (Some (ItemString key))
  = Returns true
      [WGet; WSync (ActHandleError key); WForget (ItemString key);
       WDone (ItemString key)].
Proof.
  intros Hkey. rewrite processNext_key, handler_run.
  destruct Hkey as [->|(namespace & name & err & -> & -> & ->)]; done.
Qed.

Lemma worker_drops_unknown_key_witness :
  let ct := Scenario.target [Scenario.owner] [Scenario.cluster "a" 50] [] in
  let env := Scenario.world ct (Scenario.release "uid-1" "10") (λ _, None)
               (λ _, inr [Scenario.deployment (Some 5) 5]) (λ _, inr (5, 0, [])) in
  processNextCapacityTargetWorkItem Scenario.annotation Scenario.percentage env
    (Some (ItemString "ns/gone"))
  = Returns true
      [WGet; WSync (ActHandleError "ns/gone"); WForget (ItemString "ns/gone");
       WDone (ItemString "ns/gone")].
Proof.
  intros ct env.
  apply (worker_drops_unknown_key Scenario.annotation Scenario.percentage env "ns/gone").
  right. exists "ns"%string, "gone"%string, (ApiError true "not found").
  repeat split; reflexivity.
Defined.

(** X21.  The key that the event handlers enqueue for an added or updated
    object with a namespace and a name without a slash is one key, added
    rate limited, which [SplitMetaNamespaceKey] in the sync handler splits
    into that namespace and name again. *)
Theorem enqueued_key_resolves (namespace name : string) (old : Object) :
  hasSlash namespace = false → hasSlash name = false →
  ∃ key,
    capacityTargetEventHandler (OnAdd (ObjMeta namespace name))
    = Returns () [WAddRateLimited key]
    ∧ capacityTargetEventHandler (OnUpdate old (ObjMeta namespace name))
      = Returns () [WAddRateLimited key]
    ∧ SplitMetaNamespaceKey key = Some (namespace, name).
Proof.
  intros Hns Hname. unfold capacityTargetEventHandler, enqueueCapacityTarget.
  cbn [MetaNamespaceKeyFunc]. unfold SplitMetaNamespaceKey.
  destruct namespace as [|c namespace].
  - exists name. split; [done|]. split; [done|]. by rewrite split_slash_no_slash.
  - eexists. split; [reflexivity|]. split; [reflexivity|].
    change ("/" +:+ name)%string with (String "/" name).
    by rewrite split_slash_append, split_slash_no_slash.
Qed.

Lemma enqueued_key_resolves_witness :
  ∃ key,
    capacityTargetEventHandler (OnAdd (ObjMeta "ns" "ct"))
    = Returns () [WAddRateLimited key]
    ∧ capacityTargetEventHandler (OnUpdate (ObjMeta "ns" "ct") (ObjMeta "ns" "ct"))
      = Returns () [WAddRateLimited key]
    ∧ SplitMetaNamespaceKey key = Some ("ns"%string, "ct"%string).
Proof.
  apply (enqueued_key_resolves "ns" "ct" (ObjMeta "ns" "ct")); reflexivity.
Defined.
